(** * neuralxc.symmetrizer: Casimir and bispectrum reductions

    A shallow embedding of [neuralxc/symmetrizer/symmetrizer.py].

    Python integers are [Z].  numpy arrays are a shape together with the
    row-major list of their entries; reshaping, indexing (with Python's
    negative indices), slicing and concatenation are written out with the
    errors numpy raises.  Scalars are real and complex numbers over the
    Standard Library's [R]: floating-point arithmetic is idealised by exact
    real arithmetic.  Python exceptions are the [Raise] case of [result].
    The [print] calls of the source have no counterpart here. *)

From Stdlib Require Import String Ascii.
From Stdlib Require Import ZArith List Lia Bool Reals Lra.
Import ListNotations.

(** ** Exceptions and results *)

Inductive exn : Type :=
| IndexError
| ValueError
| OverflowError
| KeyError (key : string)
| PyException (msg : string).

Inductive result (A : Type) : Type :=
| Ok (a : A)
| Raise (e : exn).

Arguments Ok {A} a.
Arguments Raise {A} e.

Definition bind {A B : Type} (r : result A) (k : A -> result B) : result B :=
  match r with
  | Ok a => k a
  | Raise e => Raise e
  end.

Declare Scope py_scope.
Delimit Scope py_scope with py.
Notation "x <- r ;; k" := (bind r (fun x => k))
  (at level 61, r at next level, right associativity) : py_scope.
Local Open Scope py_scope.

(** [for x in xs: s = body x s], stopping at the first exception. *)
Fixpoint for_each {X S : Type} (xs : list X) (body : X -> S -> result S) (s : S)
  : result S :=
  match xs with
  | [] => Ok s
  | x :: xs' => s' <- body x s ;; for_each xs' body s'
  end.

(** Python's [range(lo, hi)]. *)
Definition range (lo hi : Z) : list Z :=
  map (fun i => (lo + Z.of_nat i)%Z) (seq 0 (Z.to_nat (hi - lo))).

(** ** Scalars *)

Local Open Scope R_scope.

Definition C : Type := (R * R)%type.

Definition Cre (z : C) : R := fst z.
Definition Cim (z : C) : R := snd z.
Definition RtoC (x : R) : C := (x, 0).
Definition C0 : C := RtoC 0.
Definition C1 : C := RtoC 1.
Definition Cadd (a b : C) : C := (Cre a + Cre b, Cim a + Cim b).
Definition Cmul (a b : C) : C :=
  (Cre a * Cre b - Cim a * Cim b, Cre a * Cim b + Cim a * Cre b).
Definition Cconj (a : C) : C := (Cre a, - Cim a).

(** [(x.conj() * x).real], the summand of [np.linalg.norm]. *)
Definition Cabs2 (z : C) : R := Cre (Cmul (Cconj z) z).

Definition Rsum (xs : list R) : R := fold_right Rplus 0 xs.

(** [np.linalg.norm] of a vector: [sqrt(add.reduce((x.conj() * x).real))]. *)
Definition norm (xs : list C) : R := sqrt (Rsum (map Cabs2 xs)).

(** [np.rint]: round to the nearest integer, ties to the even one. *)
Definition rfloor (x : R) : Z := (up x - 1)%Z.

Definition rint (x : R) : Z :=
  let f := rfloor x in
  let d := x - IZR f in
  if Rlt_dec d (1 / 2) then f
  else if Rlt_dec (1 / 2) d then (f + 1)%Z
  else if Z.even f then f else (f + 1)%Z.

(** [x.round(decimals)] for a non-negative number of decimals: numpy
    computes [rint(x * 10^decimals) / 10^decimals]; the product and the
    quotient are exact here, where numpy rounds them to floats. *)
Definition round (decimals : nat) (x : R) : R :=
  IZR (rint (x * 10 ^ decimals)) / 10 ^ decimals.

(** ** numpy arrays *)

Record ndarray (A : Type) : Type := mk_ndarray {
  shape : list nat;
  data : list A
}.

Arguments mk_ndarray {A} shape data.
Arguments shape {A} n.
Arguments data {A} n.

Definition size_of (sh : list nat) : nat := fold_right Nat.mul 1%nat sh.

(** The entries fill the shape. *)
Definition wf {A : Type} (a : ndarray A) : Prop :=
  length (data a) = size_of (shape a).

(** [a.reshape] with a new shape: every negative entry counts as the unknown
    dimension; at most one is allowed, and it is inferred from the size. *)
Definition reshape {A : Type} (a : ndarray A) (newshape : list Z)
  : result (ndarray A) :=
  let unknowns := length (filter (fun d => (d <? 0)%Z) newshape) in
  let s_known :=
    size_of (map Z.to_nat (filter (fun d => negb (d <? 0)%Z) newshape)) in
  let s_original := length (data a) in
  if (1 <? unknowns)%nat then Raise ValueError
  else if (unknowns =? 1)%nat then
    if ((s_known =? 0) || negb (s_original mod s_known =? 0))%nat
    then Raise ValueError
    else Ok (mk_ndarray
               (map (fun d => if (d <? 0)%Z then (s_original / s_known)%nat
                              else Z.to_nat d) newshape)
               (data a))
  else if (s_original =? s_known)%nat
       then Ok (mk_ndarray (map Z.to_nat newshape) (data a))
       else Raise ValueError.

(** [shape[-1]]. *)
Definition last_dim (sh : list nat) : result nat :=
  match rev sh with
  | [] => Raise IndexError
  | d :: _ => Ok d
  end.

(** The rows of an array seen as a matrix with [ncols] columns. *)
Definition row {A : Type} (ncols : nat) (xs : list A) (i : nat) : list A :=
  firstn ncols (skipn (i * ncols) xs).

Definition rows {A : Type} (nrows ncols : nat) (xs : list A) : list (list A) :=
  map (row ncols xs) (seq 0 nrows).

(** The rows of a two-dimensional array. *)
Definition matrix_rows {A : Type} (a : ndarray A) : list (list A) :=
  match shape a with
  | [r; c] => rows r c (data a)
  | _ => []
  end.

(** [x[lo:hi]] for [0 <= lo]: numpy clips the slice to the axis. *)
Definition slice {A : Type} (lo hi : Z) (xs : list A) : list A :=
  firstn (Z.to_nat hi - Z.to_nat lo) (skipn (Z.to_nat lo) xs).

(** [np.array(vs)] for a list of vectors of one length. *)
Definition np_array {A : Type} (vs : list (list A)) : ndarray A :=
  match vs with
  | [] => mk_ndarray [0%nat] []
  | v :: _ => mk_ndarray [length vs; length v] (concat vs)
  end.

(** [a.T] for an array of at most two dimensions. *)
Definition transpose {A : Type} (d : A) (a : ndarray A) : ndarray A :=
  match shape a with
  | [r; c] =>
      mk_ndarray [c; r]
        (concat (map (fun j => map (fun v => nth j v d) (rows r c (data a)))
                     (seq 0 c)))
  | _ => a
  end.

(** ** CasimirSymmetrizer._symmetrize_function *)

(** One pass of the inner loop body: append the squared norm of the slice
    [idx : idx + 2l + 1] of every row, and advance [idx]. *)
Definition casimir_body (c : list (list C)) (l : Z)
  (st : list (list R) * Z) : list (list R) * Z :=
  let '(casimirs, idx) := st in
  (casimirs ++ [map (fun r => (norm (slice idx (idx + (2 * l + 1)) r)) ^ 2) c],
   (idx + (2 * l + 1))%Z).

Definition casimir_loop (c : list (list C)) (n_l n : Z)
  : list (list R) * Z :=
  fold_left
    (fun st _ => fold_left (fun st l => casimir_body c l st) (range 0 n_l) st)
    (range 0 n) ([], 0%Z).

Definition lead_shape (sh : list nat) : list Z :=
  map Z.of_nat (removelast sh).

Definition CasimirSymmetrizer_symmetrize_function (c : ndarray C) (n_l n : Z)
  : result (ndarray R) :=
  let c_shape := shape c in
  k <- last_dim c_shape ;;
  c2 <- reshape c [(-1)%Z; Z.of_nat k] ;;
  let casimirs := fst (casimir_loop (matrix_rows c2) n_l n) in
  let casimirs := transpose 0 (np_array casimirs) in
  reshape casimirs (lead_shape c_shape ++ [(-1)%Z]).

(** ** Integer indexing *)

(** One index against one axis: Python's negative indices count from the
    end, anything outside [-dim, dim) is an [IndexError]. *)
Definition norm_index (dim : nat) (i : Z) : result nat :=
  if ((0 <=? i) && (i <? Z.of_nat dim))%Z then Ok (Z.to_nat i)
  else if ((- Z.of_nat dim <=? i) && (i <? 0))%Z
       then Ok (Z.to_nat (i + Z.of_nat dim))
       else Raise IndexError.

(** Row-major offset of a full integer index.  (The arrays indexed this way
    in the source are always given one integer per axis.) *)
Fixpoint ravel (sh : list nat) (idx : list Z) (acc : nat) : result nat :=
  match sh, idx with
  | [], [] => Ok acc
  | d :: sh', i :: idx' =>
      p <- norm_index d i ;; ravel sh' idx' (acc * d + p)%nat
  | _, _ => Raise IndexError
  end.

Definition getitem {A : Type} (a : ndarray A) (idx : list Z) : result A :=
  p <- ravel (shape a) idx 0%nat ;;
  match nth_error (data a) p with
  | Some v => Ok v
  | None => Raise IndexError
  end.

Fixpoint update {A : Type} (p : nat) (v : A) (xs : list A) : list A :=
  match xs, p with
  | [], _ => []
  | _ :: xs', O => v :: xs'
  | x :: xs', S p' => x :: update p' v xs'
  end.

(** [a[idx] = v]. *)
Definition setitem {A : Type} (a : ndarray A) (idx : list Z) (v : A)
  : result (ndarray A) :=
  p <- ravel (shape a) idx 0%nat ;;
  Ok (mk_ndarray (shape a) (update p v (data a))).

(** [np.zeros(dims, dtype=complex)]. *)
Definition np_zeros (dims : list Z) : result (ndarray C) :=
  if existsb (fun d => (d <? 0)%Z) dims then Raise ValueError
  else let sh := map Z.to_nat dims in
       Ok (mk_ndarray sh (repeat C0 (size_of sh))).

(** [a[i, :, j, :, k, :]] of a six-axis array, flattened. *)
Definition sub_block (a : ndarray C) (i j k : Z) : result (list C) :=
  match shape a with
  | [d0; d1; d2; d3; d4; d5] =>
      pi <- norm_index d0 i ;;
      pj <- norm_index d2 j ;;
      pk <- norm_index d4 k ;;
      Ok (flat_map (fun q1 =>
            flat_map (fun q2 =>
              map (fun q3 =>
                     nth (((((pi * d1 + q1) * d2 + pj) * d3 + q2) * d4 + pk)
                          * d5 + q3) (data a) C0)
                  (seq 0 d5))
              (seq 0 d3))
            (seq 0 d1))
  | _ => Raise IndexError
  end.

(** [a[:, i, j]] of a three-axis array. *)
Definition take_col (a : ndarray C) (i j : Z) : result (list C) :=
  match shape a with
  | [d0; d1; d2] =>
      pi <- norm_index d1 i ;;
      pj <- norm_index d2 j ;;
      Ok (map (fun b => nth ((b * d1 + pi) * d2 + pj) (data a) C0) (seq 0 d0))
  | _ => Raise IndexError
  end.

Fixpoint zip_with {X Y Z' : Type} (f : X -> Y -> Z') (xs : list X) (ys : list Y)
  : list Z' :=
  match xs, ys with
  | x :: xs', y :: ys' => f x y :: zip_with f xs' ys'
  | _, _ => []
  end.

(** [np.concatenate([a, b], axis=-1)]. *)
Definition concatenate {A : Type} (a b : ndarray A) : result (ndarray A) :=
  match rev (shape a), rev (shape b) with
  | ka :: la, kb :: lb =>
      if list_eq_dec Nat.eq_dec la lb then
        let p := size_of la in
        Ok (mk_ndarray (rev la ++ [(ka + kb)%nat])
              (concat (zip_with (@app A) (rows p ka (data a))
                                         (rows p kb (data b)))))
      else Raise ValueError
  | _, _ => Raise ValueError
  end.

(** ** Clebsch-Gordan table and the reducers that use it *)

Section Coupling.

(** [N(CG(l1, m1, l2, m2, l, m).doit())] of sympy: the numerical value of the
    Clebsch-Gordan coefficient, total on integer arguments. *)
Variable CG : Z -> Z -> Z -> Z -> Z -> Z -> C.

Definition cg_matrix (n_l : Z) : result (ndarray C) :=
  let lmax := (n_l - 1)%Z in
  let w := (2 * lmax + 1)%Z in
  cgs <- np_zeros [n_l; w; n_l; w; n_l; w] ;;
  for_each (range 0 n_l) (fun l =>
    for_each (range 0 n_l) (fun l1 =>
      for_each (range 0 n_l) (fun l2 =>
        for_each (range (- n_l) (n_l + 1)) (fun m =>
          for_each (range (- n_l) (n_l + 1)) (fun m1 =>
            for_each (range (- n_l) (n_l + 1)) (fun m2 cgs =>
              setitem cgs [l1; m1; l2; m2; l; m] (CG l1 m1 l2 m2 l m)))))))
    cgs.

(** [start[l]]: offset of the block of angular momentum [l]. *)
Definition start_table (n_l : Z) : list Z :=
  fst (fold_left (fun st l => (fst st ++ [snd st], (snd st + (2 * l + 1))%Z))
                 (range 0 n_l) ([], 0%Z)).

Definition start_at (start : list Z) (l : Z) : Z := nth (Z.to_nat l) start 0%Z.

(** The summand added to [b] for one [(m, m1, m2)]. *)
Definition triple_term (c : ndarray C) (cgs : ndarray C) (start : list Z)
  (n l1 l2 l m m1 m2 : Z) (b : list C) : result (list C) :=
  x <- take_col c n (start_at start l + m + l)%Z ;;
  y <- take_col c n (start_at start l1 + m1 + l1)%Z ;;
  z <- take_col c n (start_at start l2 + m2 + l2)%Z ;;
  g <- getitem cgs [l1; m1; l2; m2; l; m] ;;
  Ok (zip_with Cadd b
        (map (fun t => Cmul t g)
             (zip_with Cmul (zip_with Cmul (map Cconj x) y) z))).

(** The scalar [b(l1, l2, l)] of radial channel [n], one entry per row. *)
Definition triple_sum (c : ndarray C) (cgs : ndarray C) (start : list Z)
  (n l1 l2 l : Z) : result (list C) :=
  for_each (range (- l) (l + 1)) (fun m =>
    for_each (range (- l1) (l1 + 1)) (fun m1 =>
      for_each (range (- l2) (l2 + 1)) (fun m2 =>
        triple_term c cgs start n l1 l2 l m m1 m2)))
    (repeat C0 (hd 0%nat (shape c))).

(** [abs(z.imag) > 1e-5]. *)
Definition not_real (z : C) : bool :=
  if Rlt_dec 1e-5 (Rabs (Cim z)) then true else false.

Definition Not_real : exn := PyException "Not real".

(** The realness check on a computed [b] and the value appended for it. *)
Definition checked_real (b : list C) : result (list R) :=
  if existsb not_real b then Raise Not_real
  else Ok (map (fun z => round 5 (Cre z)) b).

(** [np.linalg.norm(cgs[l1,:,l2,:,l,:]) < 1e-15].  (For the flattened block
    numpy adds the squared real and the squared imaginary parts, which is
    the same real number as in [norm].) *)
Definition negligible (cgs : ndarray C) (l1 l2 l : Z) : result bool :=
  blk <- sub_block cgs l1 l2 l ;;
  Ok (if Rlt_dec (norm blk) 1e-15 then true else false).

(** Body of the loop over [(n, l1, l2, l)]. *)
Definition bispectrum_body (c : ndarray C) (cgs : ndarray C) (start : list Z)
  (t : Z * Z * Z * Z) (bispectrum : list (list R)) : result (list (list R)) :=
  let '(n, l1, l2, l) := t in
  skip <- negligible cgs l1 l2 l ;;
  if skip : bool then Ok bispectrum
  else
    b <- triple_sum c cgs start n l1 l2 l ;;
    v <- checked_real b ;;
    Ok (bispectrum ++ [v]).

Definition bispectrum_loop (c : ndarray C) (cgs : ndarray C) (start : list Z)
  (n_l n : Z) : result (list (list R)) :=
  for_each (range 0 n) (fun n_ =>
    for_each (range 0 n_l) (fun l1 =>
      for_each (range 0 n_l) (fun l2 =>
        for_each (range (Z.abs (l2 - l1)) (Z.min (l1 + l2 + 1) n_l)) (fun l =>
          bispectrum_body c cgs start (n_, l1, l2, l)))))
    [].

(** [BispectrumSymmetrizer._symmetrize_function]; [cgs = None] stands for
    any argument that is not an [np.ndarray]. *)
Definition BispectrumSymmetrizer_symmetrize_function (c : ndarray C)
  (n_l n : Z) (cgs : option (ndarray C))
  : result (ndarray R) :=
  casimirs <- CasimirSymmetrizer_symmetrize_function c n_l n ;;
  let c_shape := shape c in
  k <- last_dim c_shape ;;
  c2 <- reshape c [(-1)%Z; Z.of_nat k] ;;
  c3 <- reshape c2 [Z.of_nat (hd 0%nat (shape c2)); n; (-1)%Z] ;;
  let start := start_table n_l in
  cgs <- match cgs with
         | Some t => Ok t
         | None => cg_matrix n_l
         end ;;
  bisp <- bispectrum_loop c3 cgs start n_l n ;;
  let bisp := transpose 0 (np_array bisp) in
  bisp <- reshape bisp (lead_shape c_shape ++ [(-1)%Z]) ;;
  concatenate casimirs bisp.

End Coupling.

(** ** Dictionaries *)

(** A Python [dict] with string keys: the entries in insertion order. *)
Definition dict (V : Type) : Type := list (string * V).

Definition keys {V : Type} (d : dict V) : list string := map fst d.

(** [d[k]]. *)
Fixpoint dict_get {V : Type} (d : dict V) (k : string) : result V :=
  match d with
  | [] => Raise (KeyError k)
  | (k', v) :: d' => if String.eqb k' k then Ok v else dict_get d' k
  end.

(** [d[k] = v]: an existing key keeps its place. *)
Fixpoint dict_set {V : Type} (d : dict V) (k : string) (v : V) : dict V :=
  match d with
  | [] => [(k, v)]
  | (k', v') :: d' =>
      if String.eqb k' k then (k', v) :: d' else (k', v') :: dict_set d' k v
  end.

(** [str.lower] on ASCII text. *)
Definition lower_ascii (ch : ascii) : ascii :=
  let n := nat_of_ascii ch in
  if ((65 <=? n) && (n <=? 90))%nat then ascii_of_nat (n + 32) else ch.

Fixpoint lower (s : string) : string :=
  match s with
  | EmptyString => EmptyString
  | String ch s' => String (lower_ascii ch) (lower s')
  end.

(** ** Symmetrizer objects *)

(** The classes that provide [_symmetrize_function]. *)
Inductive symmetrizer_class : Type :=
| CasimirSymmetrizer
| BispectrumSymmetrizer.

(** [basis[spec]]: the entries ['l'] and ['n']. *)
Record basis_entry : Type := mk_basis_entry {
  basis_l : Z;
  basis_n : Z
}.

(** [symmetrize_instructions]: the entries read by this module, absent
    when [None]. *)
Record instructions : Type := mk_instructions {
  symmetrizer_type : option string;
  basis : option (dict basis_entry)
}.

(** [_cgs] is [None] when it holds the integer 0 of [Symmetrizer.__init__]. *)
Record symmetrizer : Type := mk_symmetrizer {
  class_of : symmetrizer_class;
  _attrs : instructions;
  _cgs : option (ndarray C)
}.

(** The argument and the value of [get_symmetrized]: one mapping, or a
    Python list of mappings. *)
Inductive descriptors (V : Type) : Type :=
| Mapping (d : dict V)
| Mappings (ds : list (dict V)).

Arguments Mapping {V} d.
Arguments Mappings {V} ds.

(** The argument of [transform]: a tuple whose first item goes to
    [get_symmetrized], or anything that is not a tuple. *)
Inductive transform_arg (Y : Type) : Type :=
| ArgTuple (x0 : descriptors (ndarray C)) (rest : list Y)
| ArgOther (x : descriptors (ndarray C)).

Arguments ArgTuple {Y} x0 rest.
Arguments ArgOther {Y} x.

Inductive transformed (Y : Type) : Type :=
| Pair (d : descriptors (ndarray R)) (y : Y)
| Plain (d : descriptors (ndarray R)).

Arguments Pair {Y} d y.
Arguments Plain {Y} d.

Definition attr_basis (ins : instructions) : result (dict basis_entry) :=
  match basis ins with
  | Some b => Ok b
  | None => Raise (KeyError "basis")
  end.

Section Dispatch.

Variable CG : Z -> Z -> Z -> Z -> Z -> Z -> C.

(** [self._symmetrize_function(c, n_l, n, self._cgs)]. *)
Definition _symmetrize_function (self : symmetrizer) (c : ndarray C)
  (n_l n : Z) : result (ndarray R) :=
  match class_of self with
  | CasimirSymmetrizer => CasimirSymmetrizer_symmetrize_function c n_l n
  | BispectrumSymmetrizer =>
      BispectrumSymmetrizer_symmetrize_function CG c n_l n (_cgs self)
  end.

(** The loop over the species of one dataset. *)
Definition symmetrize_dataset (self : symmetrizer) (basis : dict basis_entry)
  (dataset : dict (ndarray C)) : result (dict (ndarray R)) :=
  for_each (keys dataset) (fun spec results_dict =>
    c <- dict_get dataset spec ;;
    b <- dict_get basis spec ;;
    v <- _symmetrize_function self c (basis_l b) (basis_n b) ;;
    Ok (dict_set results_dict spec v)) [].

Definition get_symmetrized (self : symmetrizer) (X : descriptors (ndarray C))
  : result (descriptors (ndarray R)) :=
  basis <- attr_basis (_attrs self) ;;
  let '(made_list, X') :=
    match X with
    | Mapping d => (true, [d])
    | Mappings ds => (false, ds)
    end in
  results <- for_each X' (fun dataset results =>
               results_dict <- symmetrize_dataset self basis dataset ;;
               Ok (results ++ [results_dict])) [] ;;
  if made_list : bool then
    match results with
    | r :: _ => Ok (Mapping r)
    | [] => Raise IndexError
    end
  else Ok (Mappings results).

Definition transform {Y : Type} (self : symmetrizer) (X : transform_arg Y)
  : result (transformed Y) :=
  match X with
  | ArgTuple x0 rest =>
      d <- get_symmetrized self x0 ;;
      match rest with
      | y :: _ => Ok (Pair d y)
      | [] => Raise IndexError
      end
  | ArgOther x => d <- get_symmetrized self x ;; Ok (Plain d)
  end.

(** [Symmetrizer.__init__], as inherited by [CasimirSymmetrizer]. *)
Definition Symmetrizer_init (cls : symmetrizer_class) (ins : instructions)
  : symmetrizer :=
  mk_symmetrizer cls ins None.

Definition BispectrumSymmetrizer_init (attrs : instructions)
  : result symmetrizer :=
  let self := Symmetrizer_init BispectrumSymmetrizer attrs in
  basis <- attr_basis attrs ;;
  let n_l_max :=
    fold_left (fun acc spec => Z.max acc (basis_l (snd spec))) basis 0%Z in
  cgs <- cg_matrix CG n_l_max ;;
  Ok (mk_symmetrizer (class_of self) (_attrs self) (Some cgs)).

Definition symmetrizer_dict : dict symmetrizer_class :=
  [("casimir"%string, CasimirSymmetrizer);
   ("bispectrum"%string, BispectrumSymmetrizer)].

Definition construct (cls : symmetrizer_class) (ins : instructions)
  : result symmetrizer :=
  match cls with
  | CasimirSymmetrizer => Ok (Symmetrizer_init CasimirSymmetrizer ins)
  | BispectrumSymmetrizer => BispectrumSymmetrizer_init ins
  end.

Definition symmetrizer_factory (symmetrize_instructions : instructions)
  : result symmetrizer :=
  let sym_ins := symmetrize_instructions in
  match symmetrizer_type sym_ins with
  | None =>
      Raise (PyException
               "symmetrize_instructions must contain symmetrizer_type key")
  | Some name =>
      cls <- dict_get symmetrizer_dict (lower name) ;;
      construct cls sym_ins
  end.

End Dispatch.

(** [Symmetrizer.get_params]: a dictionary with the single key
    ['symmetrize_instructions']. *)
Definition get_params (self : symmetrizer) : dict instructions :=
  [("symmetrize_instructions"%string, _attrs self)].

(** * neuralxc.utils.geom: spherical harmonics

    The functions of [neuralxc/utils/geom.py], for one angle at a time: the
    source applies them entry by entry to arrays of angles. *)

(** [math.factorial] of an integer: the argument has to fit a C [long]
    ([OverflowError] above [2^63 - 1]) and must not be negative. *)
Definition factorial (n : Z) : result Z :=
  if (2 ^ 63 - 1 <? n)%Z then Raise OverflowError
  else if (n <? 0)%Z then Raise ValueError
  else Ok (Z.of_nat (fact (Z.to_nat n))).

(** An integer that meets a float in an arithmetic operation is converted
    to a float first; one that rounds to [2^1024] or beyond has no float:
    "int too large to convert to float". *)
Definition int_overflows (z : Z) : bool :=
  (2 ^ 1024 - 2 ^ 970 <=? Z.abs z)%Z.

Definition float_of_int (z : Z) : result R :=
  if int_overflows z then Raise OverflowError else Ok (IZR z).

(** [math.sqrt]. *)
Definition math_sqrt (x : R) : result R :=
  if Rlt_dec x 0 then Raise ValueError else Ok (sqrt x).

(** The loop [for i in range(1, m + 1)] on the pair [(pmm, fact)]. *)
Definition diagonal_loop (m : Z) (somx2 pmm : R) : R * R :=
  fold_left (fun st _ => (fst st * (- snd st) * somx2, snd st + 2))
            (range 1 (m + 1)) (pmm, 1).

(** One pass of [for ll in range(m + 2, l + 1)] on [(pll, pmm, pmmp1)]. *)
Definition legendre_step (m : Z) (x : R) (st : R * R * R) (ll : Z)
  : R * R * R :=
  let '(_, pmm, pmmp1) := st in
  let pll := ((2 * IZR ll - 1) * x * pmmp1 - (IZR ll + IZR m - 1) * pmm)
             / IZR (ll - m) in
  (pll, pmmp1, pll).

(** [np.sqrt] of a negative number is nan; no number of the model stands
    for it, so the properties of this function are stated for
    [-1 <= x <= 1], where [(1 - x) * (1 + x)] is not negative. *)
Definition associated_legendre_polynomial (l m : Z) (x pmm pll : R) : R :=
  let pmm :=
    if (0 <? m)%Z
    then let somx2 := sqrt ((1 - x) * (1 + x)) in
         fst (diagonal_loop m somx2 pmm)
    else pmm in
  if (l =? m)%Z then pmm
  else
    let pmmp1 := x * (2 * IZR m + 1) * pmm in
    if (l =? m + 1)%Z then pmmp1
    else
      let '(pll, _, _) :=
        fold_left (legendre_step m x) (range (m + 2) (l + 1))
                  (pll, pmm, pmmp1) in
      pll.

(** The operands are evaluated from left to right: [2.0 * l], the
    factorial of [l - m] and its product with the float, then the factorial
    of [l + m] and its product with [4 * math.pi]. *)
Definition SH_renormalization (l m : Z) : result R :=
  fl <- float_of_int l ;;
  a <- factorial (l - m) ;;
  fa <- float_of_int a ;;
  b <- factorial (l + m) ;;
  fb <- float_of_int b ;;
  math_sqrt ((2 * fl + 1) * fa / (4 * PI * fb)).

(** [pmm = np.ones_like(theta)] and [pll = np.zeros_like(theta)] are 1 and
    0 for one angle. *)
Definition SH (l m : Z) (theta phi : R) : result R :=
  let pmm := 1 in
  let pll := 0 in
  if (m =? 0)%Z then
    k <- SH_renormalization l m ;;
    Ok (k * associated_legendre_polynomial l m (cos theta) pmm pll)
  else if (0 <? m)%Z then
    s <- math_sqrt 2 ;;
    k <- SH_renormalization l m ;;
    fm <- float_of_int m ;;
    Ok (s * k * cos (fm * phi)
        * associated_legendre_polynomial l m (cos theta) pmm pll)
  else
    s <- math_sqrt 2 ;;
    k <- SH_renormalization l (- m) ;;
    fm <- float_of_int (- m) ;;
    Ok (s * k * sin (fm * phi)
        * associated_legendre_polynomial l (- m) (cos theta) pmm pll).

(** ** Notions used to state the properties *)

(** Flattened basis size: the sum over [n] in [0, N) and [l] in [0, L) of
    [2l + 1]. *)
Definition Zsum (xs : list Z) : Z := fold_right Z.add 0%Z xs.

Definition basis_size (L N : Z) : Z :=
  Zsum (map (fun _ => Zsum (map (fun l => (2 * l + 1)%Z) (range 0 L)))
            (range 0 N)).

(** Sum of the squared magnitudes of a block. *)
Definition squared_norm (xs : list C) : R :=
  Rsum (map (fun z => Cre z * Cre z + Cim z * Cim z) xs).

(** The [m]-slice of a row at radial channel [n_] and angular channel [l],
    in the (n, l, m) layout. *)
Definition block (L n_ l : Z) (r : list C) : list C :=
  slice (n_ * (L * L) + l * l) (n_ * (L * L) + l * l + (2 * l + 1)) r.

(** The invariants of one row: [n] outer, [l] inner. *)
Definition casimir_row (L N : Z) (r : list C) : list R :=
  flat_map (fun n_ => map (fun l => squared_norm (block L n_ l r)) (range 0 L))
           (range 0 N).

(** The value appended by one pass of the Casimir loop body. *)
Definition casimir_col (c : list (list C)) (idx l : Z) : list R :=
  map (fun r => (norm (slice idx (idx + (2 * l + 1)) r)) ^ 2) c.

(** The quadruples [(n, l1, l2, l)] in the order the bispectrum loops visit
    them. *)
Definition coupling_triples (n_l n : Z) : list (Z * Z * Z * Z) :=
  flat_map (fun n_ =>
    flat_map (fun l1 =>
      flat_map (fun l2 =>
        map (fun l => (n_, l1, l2, l))
            (range (Z.abs (l2 - l1)) (Z.min (l1 + l2 + 1) n_l)))
        (range 0 n_l))
      (range 0 n_l))
    (range 0 n).

(** The selection rules of the coupling coefficient [<l1 m1; l2 m2 | l m>]. *)
Definition selection_ok (l1 m1 l2 m2 l m : Z) : Prop :=
  (Z.abs (l1 - l2) <= l <= l1 + l2 /\ Z.abs m1 <= l1 /\ Z.abs m2 <= l2 /\
   Z.abs m <= l /\ m = m1 + m2)%Z.

(** One entry of a symmetrized mapping against the entry it comes from:
    the same key, and the value the reducer of [self] returns for that
    species' tensor and basis. *)
Definition symmetrized_entry (CG : Z -> Z -> Z -> Z -> Z -> Z -> C)
  (self : symmetrizer) (basis : dict basis_entry)
  (kc : string * ndarray C) (kv : string * ndarray R) : Prop :=
  fst kv = fst kc /\
  exists b, dict_get basis (fst kc) = Ok b /\
            _symmetrize_function CG self (snd kc) (basis_l b) (basis_n b)
            = Ok (snd kv).

(** The arrays the bispectrum loop works on: the tensor reshaped to
    (rows, radial channel, rest) and the coupling table, as the reducer
    prepares them before the loop. *)
Definition bispectrum_operands (CG : Z -> Z -> Z -> Z -> Z -> Z -> C)
  (c : ndarray C) (n_l n : Z) (cgs : option (ndarray C))
  : result (ndarray C * ndarray C) :=
  _ <- CasimirSymmetrizer_symmetrize_function c n_l n ;;
  k <- last_dim (shape c) ;;
  c2 <- reshape c [(-1)%Z; Z.of_nat k] ;;
  c3 <- reshape c2 [Z.of_nat (hd 0%nat (shape c2)); n; (-1)%Z] ;;
  tbl <- match cgs with
         | Some t => Ok t
         | None => cg_matrix CG n_l
         end ;;
  Ok (c3, tbl).

(** The loop computes the scalar [b] for the quadruple [t]: the quadruple is
    not skipped and the sum over [(m, m1, m2)] is [b]. *)
Definition computes (c cgs : ndarray C) (start : list Z)
  (t : Z * Z * Z * Z) (b : list C) : Prop :=
  let '(n, l1, l2, l) := t in
  negligible cgs l1 l2 l = Ok false /\ triple_sum c cgs start n l1 l2 l = Ok b.

(** The scalars computed for a list of quadruples, in order. *)
Definition computed_values (c cgs : ndarray C) (start : list Z)
  (ts : list (Z * Z * Z * Z)) : list (list C) :=
  flat_map (fun t : Z * Z * Z * Z =>
              let '(n, l1, l2, l) := t in
              match negligible cgs l1 l2 l with
              | Ok false =>
                  match triple_sum c cgs start n l1 l2 l with
                  | Ok b => [b]
                  | Raise _ => []
                  end
              | _ => []
              end) ts.

(** The exceptions of indexing and reshaping. *)
Definition shape_error (e : exn) : Prop := e = IndexError \/ e = ValueError.

(** Position of a Python index on an axis of size [dim]. *)
Definition wrap (dim : nat) (i : Z) : nat :=
  if (0 <=? i)%Z then Z.to_nat i else Z.to_nat (i + Z.of_nat dim).

(** Row-major offset of six positions in a table with [n] angular and [w]
    magnetic positions per axis. *)
Definition offset6 (n w p0 p1 p2 p3 p4 p5 : nat) : nat :=
  (((((p0 * w + p1) * n + p2) * w + p3) * n + p4) * w + p5)%nat.

(** What [cg_matrix] keeps true of the table while it fills it: the shape,
    the number of entries, and that every entry is still 0 or was written
    by the loop body for loop variables that land on its position. *)
Definition cg_filling (CG : Z -> Z -> Z -> Z -> Z -> Z -> C) (L : Z)
  (cgs : ndarray C) : Prop :=
  let n := Z.to_nat L in
  let w := Z.to_nat (2 * (L - 1) + 1) in
  shape cgs = [n; w; n; w; n; w]
  /\ length (data cgs) = (n * w * n * w * n * w)%nat
  /\ forall p v, nth_error (data cgs) p = Some v ->
       v = C0 \/
       exists l1 m1 l2 m2 l m,
         (0 <= l1 < L /\ 0 <= l2 < L /\ 0 <= l < L /\
          - L <= m1 <= L /\ - L <= m2 <= L /\ - L <= m <= L)%Z
         /\ p = offset6 n w (Z.to_nat l1) (wrap w m1) (Z.to_nat l2)
                        (wrap w m2) (Z.to_nat l) (wrap w m)
         /\ v = CG l1 m1 l2 m2 l m.

(** The loop variables [(l, (l1, (l2, (m, (m1, m2)))))] of [cg_matrix] in
    the order the six nested loops visit them. *)
Definition loop_tuple : Type := (Z * (Z * (Z * (Z * (Z * Z)))))%type.

Definition cg_writes (n_l : Z) : list loop_tuple :=
  let ls := range 0 n_l in
  let ms := range (- n_l) (n_l + 1) in
  list_prod ls (list_prod ls (list_prod ls
    (list_prod ms (list_prod ms ms)))).

(** The assignment of the innermost loop body. *)
Definition cg_write (CG : Z -> Z -> Z -> Z -> Z -> Z -> C) (t : loop_tuple)
  (cgs : ndarray C) : result (ndarray C) :=
  let '(l, (l1, (l2, (m, (m1, m2))))) := t in
  setitem cgs [l1; m1; l2; m2; l; m] (CG l1 m1 l2 m2 l m).

(** The position it writes and the value it writes there. *)
Definition cg_pos (n_l : Z) (t : loop_tuple) : nat :=
  let '(l, (l1, (l2, (m, (m1, m2))))) := t in
  let n := Z.to_nat n_l in
  let w := Z.to_nat (2 * (n_l - 1) + 1) in
  offset6 n w (wrap n l1) (wrap w m1) (wrap n l2) (wrap w m2) (wrap n l)
          (wrap w m).

Definition cg_val (CG : Z -> Z -> Z -> Z -> Z -> Z -> C) (t : loop_tuple)
  : C :=
  let '(l, (l1, (l2, (m, (m1, m2))))) := t in CG l1 m1 l2 m2 l m.

(** The values the loop variables of [cg_matrix n_l] take. *)
Definition in_loops (n_l : Z) (t : loop_tuple) : Prop :=
  let '(l, (l1, (l2, (m, (m1, m2))))) := t in
  (0 <= l < n_l /\ 0 <= l1 < n_l /\ 0 <= l2 < n_l
   /\ - n_l <= m <= n_l /\ - n_l <= m1 <= n_l /\ - n_l <= m2 <= n_l)%Z.

(** The last element of a list that satisfies a test. *)
Fixpoint find_last {X : Type} (P : X -> bool) (xs : list X) : option X :=
  match xs with
  | [] => None
  | x :: xs' =>
      match find_last P xs' with
      | Some y => Some y
      | None => if P x then Some x else None
      end
  end.

(** The magnetic loop value whose coefficient the table holds at the
    magnetic index [m] once [cg_matrix n_l] has run: the loop value [n_l]
    lands on the position of [-(n_l - 1)] and is written later. *)
Definition stored_index (n_l m : Z) : Z :=
  if (m =? 1 - n_l)%Z then n_l else m.

(** [n!] over the integers, as a product that can be evaluated. *)
Fixpoint Zfact (n : nat) : Z :=
  match n with
  | O => 1%Z
  | S k => (Z.of_nat (S k) * Zfact k)%Z
  end.

(** [v] is [x] rounded to [decimals] decimals: a multiple of
    [10^-decimals] at distance at most half a unit of the last decimal
    from [x], the even multiple when [x] lies halfway between two. *)
Definition rounded_to (decimals : nat) (x v : R) : Prop :=
  exists k : Z,
    v = IZR k / 10 ^ decimals
    /\ Rabs (IZR k - x * 10 ^ decimals) <= 1 / 2
    /\ (Rabs (IZR k - x * 10 ^ decimals) = 1 / 2 -> Z.even k = true).

(** The product [1 * 3 * ... * (2n - 1)]. *)
Fixpoint odd_factorial (n : nat) : nat :=
  match n with
  | O => 1%nat
  | S n' => (odd_factorial n' * (2 * n' + 1))%nat
  end.

(** The value on the diagonal [l = m] and the state of the loop over [ll]
    after the pass for [ll = l] in [associated_legendre_polynomial]. *)
Definition legendre_diagonal (m : Z) (x pmm : R) : R :=
  if (0 <? m)%Z
  then fst (diagonal_loop m (sqrt ((1 - x) * (1 + x))) pmm)
  else pmm.

Definition legendre_state (l m : Z) (x pmm pll : R) : R * R * R :=
  fold_left (legendre_step m x) (range (m + 2) (l + 1))
            (pll, legendre_diagonal m x pmm,
             x * (2 * IZR m + 1) * legendre_diagonal m x pmm).

(** The species of an entry makes [get_symmetrized] raise [e]: it is not in
    the basis, or the reducer raises on its tensor. *)
Definition entry_raises (CG : Z -> Z -> Z -> Z -> Z -> Z -> C)
  (self : symmetrizer) (basis : dict basis_entry)
  (kc : string * ndarray C) (e : exn) : Prop :=
  dict_get basis (fst kc) = Raise e \/
  exists b, dict_get basis (fst kc) = Ok b /\
            _symmetrize_function CG self (snd kc) (basis_l b) (basis_n b)
            = Raise e.

(** [n_l_max] of [BispectrumSymmetrizer.__init__]. *)
Definition n_l_max (basis : dict basis_entry) : Z :=
  fold_left (fun acc spec => Z.max acc (basis_l (snd spec))) basis 0%Z.

(** ** The s-orbital scenario

    Species "H" with one angular and one radial channel, and a tensor whose
    only entry is the real number 2. *)
Definition c_H : ndarray C := mk_ndarray [1%nat] [RtoC 2].

Definition basis_H : dict basis_entry := [("H"%string, mk_basis_entry 1 1)].

Definition instructions_H (name : string) : instructions :=
  mk_instructions (Some name) (Some basis_H).

(** A table of shape [1, 1, 1, 1, 1, 1] holding [<0 0; 0 0 | 0 0> = 1]. *)
Definition cgs_s : ndarray C :=
  mk_ndarray [1%nat; 1%nat; 1%nat; 1%nat; 1%nat; 1%nat] [C1].

(** A coupling function that is 1 at [<0 0; 0 0 | 0 0>] and 0 elsewhere. *)
Definition CG_s (l1 m1 l2 m2 l m : Z) : C :=
  if ((l1 =? 0) && (m1 =? 0) && (l2 =? 0) && (m2 =? 0) && (l =? 0)
      && (m =? 0))%Z
  then C1 else C0.

(** ** Results and loops *)

Lemma bind_Ok {A B : Type} (r : result A) (k : A -> result B) (b : B) :
  bind r k = Ok b <-> exists a, r = Ok a /\ k a = Ok b.
Proof.
  destruct r as [a|e]; simpl; split.
  - intros H. exists a. auto.
  - intros [a' [Ha Hk]]. inversion Ha. subst. exact Hk.
  - discriminate.
  - intros [a' [Ha _]]. discriminate.
Qed.

Lemma bind_Raise {A B : Type} (r : result A) (k : A -> result B) (e : exn) :
  bind r k = Raise e <-> r = Raise e \/ exists a, r = Ok a /\ k a = Raise e.
Proof.
  destruct r as [a|e']; simpl; split.
  - intros H. right. exists a. auto.
  - intros [Ha | [a' [Ha Hk]]]; [discriminate|]. inversion Ha. subst. exact Hk.
  - intros H. left. congruence.
  - intros [Ha | [a' [Ha _]]]; [congruence | discriminate].
Qed.

Lemma for_each_app {X S : Type} (xs ys : list X) (body : X -> S -> result S)
  (s : S) :
  for_each (xs ++ ys) body s
  = (s' <- for_each xs body s ;; for_each ys body s').
Proof.
  revert s. induction xs as [|x xs IH]; intros s; simpl.
  - reflexivity.
  - destruct (body x s) as [s'|e]; simpl; [apply IH | reflexivity].
Qed.

Lemma for_each_flat_map {X Y S : Type} (f : X -> list Y) (xs : list X)
  (body : Y -> S -> result S) (s : S) :
  for_each (flat_map f xs) body s
  = for_each xs (fun x => for_each (f x) body) s.
Proof.
  revert s. induction xs as [|x xs IH]; intros s; simpl.
  - reflexivity.
  - rewrite for_each_app. destruct (for_each (f x) body s); simpl; auto.
Qed.

Lemma for_each_map {X Y S : Type} (f : X -> Y) (xs : list X)
  (body : Y -> S -> result S) (s : S) :
  for_each (map f xs) body s = for_each xs (fun x => body (f x)) s.
Proof.
  revert s. induction xs as [|x xs IH]; intros s; simpl.
  - reflexivity.
  - destruct (body (f x) s); simpl; auto.
Qed.

Lemma for_each_ext {X S : Type} (xs : list X) (f g : X -> S -> result S)
  (s : S) :
  (forall x s', In x xs -> f x s' = g x s') ->
  for_each xs f s = for_each xs g s.
Proof.
  revert s. induction xs as [|x xs IH]; intros s H; simpl.
  - reflexivity.
  - rewrite (H x s (or_introl eq_refl)).
    destruct (g x s); simpl; [|reflexivity].
    apply IH. intros. apply H. right. assumption.
Qed.

(** A loop preserves what its body preserves. *)
Lemma for_each_invariant {X S : Type} (P : S -> Prop) (xs : list X)
  (body : X -> S -> result S) :
  (forall x s s', In x xs -> P s -> body x s = Ok s' -> P s') ->
  forall s s', P s -> for_each xs body s = Ok s' -> P s'.
Proof.
  induction xs as [|x xs IH]; intros Hb s s' Hs H; simpl in H.
  - inversion H. subst. exact Hs.
  - apply bind_Ok in H. destruct H as [s1 [H1 H2]].
    apply (IH (fun y t t' Hy => Hb y t t' (or_intror Hy)) s1 s').
    + apply (Hb x s s1); [left; reflexivity | exact Hs | exact H1].
    + exact H2.
Qed.

(** A loop returns when its body does under the invariant. *)
Lemma for_each_total {X S : Type} (P : S -> Prop) (xs : list X)
  (body : X -> S -> result S) :
  (forall x s, In x xs -> P s -> exists s', body x s = Ok s' /\ P s') ->
  forall s, P s -> exists s', for_each xs body s = Ok s' /\ P s'.
Proof.
  induction xs as [|x xs IH]; intros Hb s Hs; simpl.
  - exists s. auto.
  - destruct (Hb x s (or_introl eq_refl) Hs) as [s1 [H1 P1]].
    rewrite H1. simpl.
    apply IH; [|exact P1]. intros y t Hy. apply Hb. right. exact Hy.
Qed.

(** ** Ranges *)

Lemma range_nil (lo hi : Z) : (hi <= lo)%Z -> range lo hi = [].
Proof.
  intros H. unfold range. replace (Z.to_nat (hi - lo)) with 0%nat by lia.
  reflexivity.
Qed.

Lemma range_cons (lo hi : Z) :
  (lo < hi)%Z -> range lo hi = lo :: range (lo + 1) hi.
Proof.
  intros H. unfold range.
  replace (Z.to_nat (hi - lo)) with (S (Z.to_nat (hi - (lo + 1)))) by lia.
  simpl. f_equal; [lia|].
  rewrite <- seq_shift, map_map. apply map_ext. intros i. lia.
Qed.

Lemma range_In (lo hi x : Z) : In x (range lo hi) <-> (lo <= x < hi)%Z.
Proof.
  unfold range. rewrite in_map_iff. split.
  - intros [i [Hi Hin]]. apply in_seq in Hin. lia.
  - intros H. exists (Z.to_nat (x - lo)). split; [lia|].
    apply in_seq. lia.
Qed.

Lemma range_length (lo hi : Z) : length (range lo hi) = Z.to_nat (hi - lo).
Proof. unfold range. rewrite length_map, length_seq. reflexivity. Qed.

(** Induction over [range lo hi] from the left. *)
Lemma range_ind (P : Z -> list Z -> Prop) (hi : Z) :
  (forall lo, (hi <= lo)%Z -> P lo []) ->
  (forall lo, (lo < hi)%Z -> P (lo + 1)%Z (range (lo + 1) hi) ->
              P lo (lo :: range (lo + 1) hi)) ->
  forall lo, P lo (range lo hi).
Proof.
  intros Hnil Hcons lo.
  remember (Z.to_nat (hi - lo)) as k eqn:Hk.
  revert lo Hk. induction k as [|k IH]; intros lo Hk.
  - rewrite range_nil by lia. apply Hnil. lia.
  - rewrite range_cons by lia. apply Hcons; [lia|]. apply IH. lia.
Qed.

(** ** Real and complex arithmetic *)

Lemma Cabs2_eq (z : C) : Cabs2 z = Cre z * Cre z + Cim z * Cim z.
Proof. unfold Cabs2, Cmul, Cconj, Cre, Cim. simpl. ring. Qed.

Lemma Cabs2_nonneg (z : C) : 0 <= Cabs2 z.
Proof. rewrite Cabs2_eq. nra. Qed.

Lemma Rsum_nonneg (xs : list R) : Forall (fun x => 0 <= x) xs -> 0 <= Rsum xs.
Proof.
  induction 1 as [|x xs Hx _ IH]; simpl; [lra|]. lra.
Qed.

Lemma squared_norm_nonneg (xs : list C) : 0 <= squared_norm xs.
Proof.
  unfold squared_norm. apply Rsum_nonneg. apply Forall_forall.
  intros x Hx. apply in_map_iff in Hx. destruct Hx as [z [Hz _]]. subst x. nra.
Qed.

(** Squaring the norm gives back the sum of the squared magnitudes. *)
Lemma norm_pow2 (xs : list C) : norm xs ^ 2 = squared_norm xs.
Proof.
  unfold norm.
  replace (map Cabs2 xs)
    with (map (fun z => Cre z * Cre z + Cim z * Cim z) xs)
    by (apply map_ext; intros z; symmetry; apply Cabs2_eq).
  apply pow2_sqrt. apply squared_norm_nonneg.
Qed.

(** ** Lists seen as matrices *)

Lemma skipn_add {A : Type} (a b : nat) (xs : list A) :
  skipn (a + b) xs = skipn b (skipn a xs).
Proof.
  revert xs. induction a as [|a IH]; intros xs; simpl; [reflexivity|].
  destruct xs as [|x xs]; [now rewrite skipn_nil | apply IH].
Qed.

Lemma map_nth_seq {A : Type} (d : A) (xs : list A) :
  map (fun j => nth j xs d) (seq 0 (length xs)) = xs.
Proof.
  induction xs as [|x xs IH]; simpl; [reflexivity|].
  f_equal. rewrite <- seq_shift, map_map. exact IH.
Qed.

(** Cutting a concatenation of equally long vectors gives the vectors back. *)
Lemma rows_concat {A : Type} (w : nat) (vs : list (list A)) :
  Forall (fun v => length v = w) vs ->
  rows (length vs) w (concat vs) = vs.
Proof.
  induction 1 as [|v vs Hv _ IH]; simpl; [reflexivity|].
  unfold rows in *. simpl. f_equal.
  - unfold row. simpl. rewrite firstn_app, Hv, Nat.sub_diag. simpl.
    rewrite app_nil_r. apply firstn_all2. lia.
  - rewrite <- seq_shift, map_map. rewrite <- IH at 2.
    apply map_ext. intros i. unfold row.
    replace (S i * w)%nat with (w + i * w)%nat by lia.
    rewrite skipn_add. rewrite skipn_app, Hv, Nat.sub_diag. simpl.
    rewrite (@skipn_all2 _ w v) by lia. reflexivity.
Qed.

Lemma rows_length {A : Type} (r w : nat) (xs : list A) :
  length (rows r w xs) = r.
Proof. unfold rows. now rewrite length_map, length_seq. Qed.

Lemma row_length {A : Type} (r w : nat) (xs : list A) (i : nat) :
  length xs = (r * w)%nat -> (i < r)%nat -> length (row w xs i) = w.
Proof.
  intros Hlen Hi. unfold row. rewrite length_firstn, length_skipn, Hlen.
  apply Nat.min_l. nia.
Qed.

Lemma rows_row_length {A : Type} (r w : nat) (xs : list A) :
  length xs = (r * w)%nat -> Forall (fun v => length v = w) (rows r w xs).
Proof.
  intros Hlen. apply Forall_forall. intros v Hv. unfold rows in Hv.
  apply in_map_iff in Hv. destruct Hv as [i [Hi Hin]]. subst v.
  apply in_seq in Hin. apply (row_length r); [exact Hlen | lia].
Qed.

Lemma concat_length_uniform {A : Type} (w : nat) (vs : list (list A)) :
  Forall (fun v => length v = w) vs ->
  length (concat vs) = (length vs * w)%nat.
Proof.
  induction 1 as [|v vs Hv _ IH]; simpl; [reflexivity|].
  rewrite length_app, IH, Hv. reflexivity.
Qed.

(** [np.array(cols).T] when every column lists one value per row of [c]:
    the result lists, row by row, one value per column. *)
Lemma transpose_np_array {P X : Type} (g : P -> X -> R) (ps : list P)
  (c : list X) :
  ps <> [] ->
  transpose 0 (np_array (map (fun p => map (g p) c) ps))
  = mk_ndarray [length c; length ps]
      (concat (map (fun r => map (fun p => g p r) ps) c)).
Proof.
  intros Hps.
  assert (Hall : Forall (fun v : list R => length v = length c)
                        (map (fun p => map (g p) c) ps)).
  { apply Forall_forall. intros v Hv. apply in_map_iff in Hv.
    destruct Hv as [p [Hp _]]. subst v. apply length_map. }
  destruct ps as [|p ps]; [congruence|].
  pose proof (rows_concat (length c) _ Hall) as Hr.
  rewrite length_map in Hr.
  unfold np_array, transpose. cbn [map shape data length] in *.
  rewrite !length_map. rewrite Hr.
  f_equal. f_equal.
  destruct c as [|x0 c']; [reflexivity|].
  rewrite <- (map_nth_seq x0 (x0 :: c')) at 2.
  rewrite map_map. apply map_ext_in. intros j Hj. apply in_seq in Hj.
  change (map (g p) (x0 :: c') :: map (fun p0 => map (g p0) (x0 :: c')) ps)
    with (map (fun p0 => map (g p0) (x0 :: c')) (p :: ps)).
  rewrite map_map.
  change (g p (nth j (x0 :: c') x0)
          :: map (fun p0 => g p0 (nth j (x0 :: c') x0)) ps)
    with (map (fun p0 => g p0 (nth j (x0 :: c') x0)) (p :: ps)).
  apply map_ext. intros q.
  rewrite (nth_indep _ 0 (g q x0)) by (rewrite length_map; lia).
  apply (map_nth (g q)).
Qed.

(** ** The Casimir loop *)

Lemma Zsum_odd (hi : Z) :
  forall lo, (0 <= lo)%Z ->
  Zsum (map (fun l => (2 * l + 1)%Z) (range lo hi))
  = (Z.max lo hi * Z.max lo hi - lo * lo)%Z.
Proof.
  apply (range_ind
           (fun lo xs => (0 <= lo)%Z ->
              Zsum (map (fun l => (2 * l + 1)%Z) xs)
              = (Z.max lo hi * Z.max lo hi - lo * lo)%Z)).
  - intros lo Hle _. simpl. rewrite Z.max_l by lia. lia.
  - intros lo Hlt IH Hlo. unfold Zsum in *. cbn [map fold_right].
    rewrite IH by lia.
    rewrite (Z.max_r lo hi) by lia. rewrite (Z.max_r (lo + 1) hi) by lia. lia.
Qed.

Lemma basis_size_eq (L N : Z) :
  (0 <= L)%Z -> (0 <= N)%Z -> basis_size L N = (N * (L * L))%Z.
Proof.
  intros HL HN. unfold basis_size.
  rewrite (Zsum_odd L 0) by lia. rewrite Z.max_r by lia.
  replace (L * L - 0 * 0)%Z with (L * L)%Z by lia.
  replace N with (Z.max 0 N - 0)%Z at 2 by lia.
  generalize (L * L)%Z as w. intros w.
  apply (range_ind
           (fun lo xs => Zsum (map (fun _ => w) xs)
                         = ((Z.max lo N - lo) * w)%Z)).
  - intros lo Hle. simpl. rewrite Z.max_l by lia. lia.
  - intros lo Hlt IH. unfold Zsum in *. cbn [map fold_right]. rewrite IH.
    rewrite (Z.max_r lo N) by lia. rewrite (Z.max_r (lo + 1) N) by lia. lia.
Qed.

Lemma casimir_inner (c : list (list C)) (hi : Z) :
  forall lo acc idx,
  fold_left (fun st l => casimir_body c l st) (range lo hi) (acc, idx)
  = (acc ++ map (fun l => casimir_col c (idx + (l * l - lo * lo)) l)
                (range lo hi),
     (idx + Zsum (map (fun l => (2 * l + 1)%Z) (range lo hi)))%Z).
Proof.
  apply (range_ind
           (fun lo xs => forall acc idx,
              fold_left (fun st l => casimir_body c l st) xs (acc, idx)
              = (acc ++ map (fun l => casimir_col c (idx + (l * l - lo * lo)) l)
                            xs,
                 (idx + Zsum (map (fun l => (2 * l + 1)%Z) xs))%Z))).
  - intros lo _ acc idx. simpl. rewrite app_nil_r. f_equal. lia.
  - intros lo Hlt IH acc idx. cbn [fold_left map]. unfold casimir_body at 2.
    rewrite IH. rewrite <- app_assoc. unfold Zsum. cbn [fold_right app].
    f_equal.
    + f_equal. f_equal.
      * replace (idx + (lo * lo - lo * lo))%Z with idx by lia. reflexivity.
      * apply map_ext. intros l. f_equal. lia.
    + lia.
Qed.

Lemma casimir_outer (c : list (list C)) (L hi : Z) :
  (0 <= L)%Z ->
  forall lo acc idx,
  fst (fold_left
         (fun st _ =>
            fold_left (fun st l => casimir_body c l st) (range 0 L) st)
         (range lo hi) (acc, idx))
  = acc ++ flat_map (fun n_ =>
             map (fun l => casimir_col c (idx + (n_ - lo) * (L * L) + l * l) l)
                 (range 0 L))
           (range lo hi).
Proof.
  intros HL.
  apply (range_ind
           (fun lo xs => forall acc idx,
              fst (fold_left
                     (fun st _ => fold_left (fun st l => casimir_body c l st)
                                            (range 0 L) st)
                     xs (acc, idx))
              = acc ++ flat_map (fun n_ =>
                         map (fun l => casimir_col c
                                         (idx + (n_ - lo) * (L * L) + l * l) l)
                             (range 0 L))
                       xs)).
  - intros lo _ acc idx. simpl. now rewrite app_nil_r.
  - intros lo Hlt IH acc idx. simpl. rewrite casimir_inner, IH.
    rewrite <- app_assoc. f_equal. f_equal.
    + apply map_ext. intros l. f_equal. lia.
    + apply flat_map_ext. intros n_. apply map_ext. intros l. f_equal.
      rewrite (Zsum_odd L 0) by lia. rewrite Z.max_r by lia. lia.
Qed.

(** The list built by the two loops: one column per [(n, l)], [n] outer. *)
Lemma casimir_loop_columns (c : list (list C)) (L N : Z) :
  (0 <= L)%Z ->
  fst (casimir_loop c L N)
  = map (fun p => map (fun r => squared_norm (block L (fst p) (snd p) r)) c)
        (flat_map (fun n_ => map (fun l => (n_, l)) (range 0 L)) (range 0 N)).
Proof.
  intros HL. unfold casimir_loop. rewrite casimir_outer by exact HL.
  cbn [app]. induction (range 0 N) as [|n_ ns IH]; [reflexivity|].
  cbn [flat_map]. rewrite map_app, <- IH. f_equal.
  rewrite map_map. apply map_ext. intros l. unfold casimir_col.
  apply map_ext. intros r. rewrite norm_pow2. unfold block. cbn [fst snd].
  f_equal. f_equal; lia.
Qed.

(** ** Reshaping *)

Lemma size_of_app (a b : list nat) :
  size_of (a ++ b) = (size_of a * size_of b)%nat.
Proof.
  induction a as [|x a IH]; simpl; [lia|]. rewrite IH. lia.
Qed.

Lemma last_dim_app (lead : list nat) (k : nat) :
  last_dim (lead ++ [k]) = Ok k.
Proof. unfold last_dim. rewrite rev_app_distr. reflexivity. Qed.

Lemma lead_shape_app (lead : list nat) (k : nat) :
  lead_shape (lead ++ [k]) = map Z.of_nat lead.
Proof. unfold lead_shape. now rewrite removelast_last. Qed.

(** [a.reshape(-1, k)] cuts the entries into rows of length [k]. *)
Lemma reshape_rows {A : Type} (a : ndarray A) (p k : nat) :
  length (data a) = (p * k)%nat -> k <> 0%nat ->
  reshape a [(-1)%Z; Z.of_nat k] = Ok (mk_ndarray [p; k] (data a)).
Proof.
  intros Hlen Hk. unfold reshape. cbn [filter Z.ltb Z.compare negb].
  replace (Z.of_nat k <? 0)%Z with false by (symmetry; apply Z.ltb_ge; lia).
  cbn [negb length map size_of fold_right Nat.ltb Nat.leb Nat.eqb].
  rewrite Nat2Z.id, Nat.mul_1_r, Hlen.
  replace (k =? 0)%nat with false by (symmetry; apply Nat.eqb_neq; exact Hk).
  rewrite Nat.Div0.mod_mul. cbn [Nat.eqb negb orb].
  rewrite Nat.div_mul by exact Hk. cbn [map].
  replace (Z.of_nat k <? 0)%Z with false by (symmetry; apply Z.ltb_ge; lia).
  reflexivity.
Qed.

Lemma filter_neg_lead (lead : list nat) :
  filter (fun d => (d <? 0)%Z) (map Z.of_nat lead ++ [(-1)%Z]) = [(-1)%Z].
Proof.
  induction lead as [|x lead IH]; [reflexivity|]. cbn [map app filter].
  replace (Z.of_nat x <? 0)%Z with false by (symmetry; apply Z.ltb_ge; lia).
  exact IH.
Qed.

Lemma filter_nonneg_lead (lead : list nat) :
  filter (fun d => negb (d <? 0)%Z) (map Z.of_nat lead ++ [(-1)%Z])
  = map Z.of_nat lead.
Proof.
  induction lead as [|x lead IH]; [reflexivity|]. cbn [map app filter].
  replace (Z.of_nat x <? 0)%Z with false by (symmetry; apply Z.ltb_ge; lia).
  cbn [negb]. now rewrite IH.
Qed.

Lemma map_to_nat_of_nat (xs : list nat) : map Z.to_nat (map Z.of_nat xs) = xs.
Proof.
  rewrite map_map. rewrite <- (map_id xs) at 2. apply map_ext.
  intros x. apply Nat2Z.id.
Qed.

(** [a.reshape(lead, -1)] keeps the leading dimensions when they are not
    empty and infers the trailing one. *)
Lemma reshape_lead {A : Type} (a : ndarray A) (lead : list nat) (q : nat) :
  length (data a) = (size_of lead * q)%nat -> size_of lead <> 0%nat ->
  reshape a (map Z.of_nat lead ++ [(-1)%Z])
  = Ok (mk_ndarray (lead ++ [q]) (data a)).
Proof.
  intros Hlen Hp. unfold reshape.
  rewrite filter_neg_lead, filter_nonneg_lead, map_to_nat_of_nat.
  cbn [length Nat.ltb Nat.leb Nat.eqb].
  replace (size_of lead =? 0)%nat with false
    by (symmetry; apply Nat.eqb_neq; exact Hp).
  rewrite Hlen, Nat.mul_comm, Nat.Div0.mod_mul. cbn [Nat.eqb negb orb].
  rewrite Nat.div_mul by exact Hp. f_equal. f_equal.
  rewrite map_app. cbn [map Z.ltb Z.compare]. f_equal.
  rewrite map_map. rewrite <- (map_id lead) at 2. apply map_ext. intros x.
  replace (Z.of_nat x <? 0)%Z with false by (symmetry; apply Z.ltb_ge; lia).
  apply Nat2Z.id.
Qed.

(** An empty leading dimension leaves the trailing one undetermined. *)
Lemma reshape_lead_empty {A : Type} (a : ndarray A) (lead : list nat) :
  size_of lead = 0%nat ->
  reshape a (map Z.of_nat lead ++ [(-1)%Z]) = Raise ValueError.
Proof.
  intros Hp. unfold reshape.
  rewrite filter_neg_lead, filter_nonneg_lead, map_to_nat_of_nat, Hp.
  reflexivity.
Qed.

(** ** The Casimir reducer *)

Lemma pairs_length (L N : Z) :
  (0 <= L)%Z -> (0 <= N)%Z ->
  length (flat_map (fun n_ : Z => map (fun l : Z => (n_, l)) (range 0 L))
                   (range 0 N))
  = Z.to_nat (N * L).
Proof.
  intros HL HN.
  replace (Z.to_nat (N * L)) with (length (range 0 N) * Z.to_nat L)%nat
    by (rewrite range_length; nia).
  induction (range 0 N) as [|x xs IH]; [reflexivity|].
  cbn [flat_map length]. rewrite length_app, IH, length_map, range_length.
  replace (L - 0)%Z with L by lia. lia.
Qed.

Lemma casimir_row_pairs (L N : Z) (r : list C) :
  map (fun p => squared_norm (block L (fst p) (snd p) r))
      (flat_map (fun n_ : Z => map (fun l : Z => (n_, l)) (range 0 L))
                (range 0 N))
  = casimir_row L N r.
Proof.
  unfold casimir_row. induction (range 0 N) as [|x xs IH]; [reflexivity|].
  cbn [flat_map]. rewrite map_app, IH, map_map. reflexivity.
Qed.

Lemma casimir_row_length (L N : Z) (r : list C) :
  (0 <= L)%Z -> (0 <= N)%Z ->
  length (casimir_row L N r) = Z.to_nat (N * L).
Proof.
  intros HL HN. rewrite <- casimir_row_pairs, length_map.
  now apply pairs_length.
Qed.

(** What the reducer returns on a non-empty tensor, whatever its trailing
    dimension [k] is. *)
Lemma casimir_value (c : ndarray C) (lead : list nat) (k : nat) (L N : Z) :
  wf c -> shape c = lead ++ [k] -> k <> 0%nat -> size_of lead <> 0%nat ->
  (1 <= L)%Z -> (1 <= N)%Z ->
  CasimirSymmetrizer_symmetrize_function c L N
  = Ok (mk_ndarray (lead ++ [Z.to_nat (N * L)])
          (concat (map (casimir_row L N) (rows (size_of lead) k (data c))))).
Proof.
  intros Hwf Hsh Hk Hp HL HN.
  unfold CasimirSymmetrizer_symmetrize_function. rewrite Hsh.
  rewrite last_dim_app. cbn [bind].
  assert (Hlen : length (data c) = (size_of lead * k)%nat).
  { unfold wf in Hwf. rewrite Hwf, Hsh, size_of_app. simpl. lia. }
  rewrite (reshape_rows c (size_of lead) k Hlen Hk). cbn [bind].
  unfold matrix_rows. cbn [shape data].
  rewrite casimir_loop_columns by lia.
  set (ps := flat_map (fun n_ : Z => map (fun l : Z => (n_, l)) (range 0 L))
                      (range 0 N)).
  assert (Hps : ps <> []).
  { intros E.
    assert (Hl : length ps = Z.to_nat (N * L)) by (apply pairs_length; lia).
    rewrite E in Hl. simpl in Hl. nia. }
  rewrite (transpose_np_array
             (fun p r => squared_norm (block L (fst p) (snd p) r)) ps _ Hps).
  rewrite lead_shape_app.
  assert (Hdata :
    concat (map (fun r =>
                   map (fun p => squared_norm (block L (fst p) (snd p) r)) ps)
                (rows (size_of lead) k (data c)))
    = concat (map (casimir_row L N) (rows (size_of lead) k (data c)))).
  { f_equal. apply map_ext. intros r. apply casimir_row_pairs. }
  rewrite Hdata.
  rewrite (reshape_lead _ lead (Z.to_nat (N * L))); [reflexivity| |exact Hp].
  cbn [data]. rewrite (concat_length_uniform (Z.to_nat (N * L))).
  - rewrite length_map, rows_length. reflexivity.
  - apply Forall_forall. intros v Hv. apply in_map_iff in Hv.
    destruct Hv as [r [Hr _]]. subst v. apply casimir_row_length; lia.
Qed.

(** ** Properties of the Casimir reducer *)

Lemma reshape_data {A : Type} (a b : ndarray A) (sh : list Z) :
  reshape a sh = Ok b -> data b = data a.
Proof.
  unfold reshape. intros H.
  repeat match type of H with
         | (if ?x then _ else _) = _ => destruct x
         end; inversion H; reflexivity.
Qed.











(** C3 does not hold for an empty batch: with a leading dimension 0 and the
    trailing dimension of the basis, the final reshape cannot infer the
    trailing dimension and the reducer raises. *)
Lemma casimir_empty_batch_raises :
  wf (mk_ndarray [0%nat; 1%nat] (@nil C))
  /\ [0%nat; 1%nat] = [0%nat] ++ [Z.to_nat (basis_size 1 1)]
  /\ CasimirSymmetrizer_symmetrize_function (mk_ndarray [0%nat; 1%nat] []) 1 1
     = Raise ValueError.
Proof. split; [reflexivity|]. split; reflexivity. Qed.

(** C3 (amended): for a tensor without an empty leading dimension whose
    trailing dimension is the basis size of [(L, N)], the reducer returns a
    tensor with the same leading dimensions and trailing dimension [N * L];
    each row lists the squared norms of the [(n, l)] blocks with [n] outer
    and [l] inner.  For [L = 2], [N = 3] the dimensions are 12 and 6. *)
Theorem casimir_shape_law (c : ndarray C) (lead : list nat) (L N : Z) :
  wf c -> shape c = lead ++ [Z.to_nat (basis_size L N)] ->
  (1 <= L)%Z -> (1 <= N)%Z -> size_of lead <> 0%nat ->
  CasimirSymmetrizer_symmetrize_function c L N
  = Ok (mk_ndarray (lead ++ [Z.to_nat (N * L)])
          (concat (map (casimir_row L N)
                       (rows (size_of lead) (Z.to_nat (basis_size L N))
                             (data c)))))
  /\ (forall r, length (casimir_row L N r) = Z.to_nat (N * L))
  /\ (L = 2%Z -> N = 3%Z ->
      Z.to_nat (basis_size L N) = 12%nat /\ Z.to_nat (N * L) = 6%nat).
Proof.
  intros Hwf Hsh HL HN Hp. split; [|split].
  - apply casimir_value; try assumption.
    rewrite basis_size_eq by lia. nia.
  - intros r. apply casimir_row_length; lia.
  - intros HL2 HN3. subst L N. split; reflexivity.
Qed.

Lemma casimir_shape_law_witness :
  exists out,
    CasimirSymmetrizer_symmetrize_function
      (mk_ndarray [1%nat; 12%nat] (repeat (RtoC 1) 12)) 2 3 = Ok out
    /\ shape out = [1%nat; 6%nat].
Proof.
  eexists. split.
  - apply (casimir_shape_law (mk_ndarray [1%nat; 12%nat] (repeat (RtoC 1) 12))
                             [1%nat] 2 3);
      [reflexivity | reflexivity | lia | lia | simpl; lia].
  - reflexivity.
Defined.

(** C5 does not hold: a trailing dimension 1 against a basis of size 4 is
    not reported; the slices are clipped and a result is returned. *)
Lemma casimir_accepts_short_tensor :
  Z.of_nat 1 <> basis_size 2 1
  /\ CasimirSymmetrizer_symmetrize_function (mk_ndarray [1%nat] [RtoC 2]) 2 1
     = Ok (mk_ndarray [2%nat] [4; 0]).
Proof.
  split; [discriminate|].
  rewrite (casimir_value (mk_ndarray [1%nat] [RtoC 2]) [] 1 2 1);
    [| reflexivity | reflexivity | simpl; lia | simpl; lia | lia | lia].
  f_equal. f_equal.
  unfold casimir_row.
  change (range 0 2) with [0%Z; 1%Z]. change (range 0 1) with [0%Z].
  cbn [rows row size_of fold_right seq map Nat.mul Nat.add firstn skipn concat
       app casimir_row flat_map data].
  change (block 2 0 0 [RtoC 2]) with [RtoC 2].
  change (block 2 0 1 [RtoC 2]) with (@nil C).
  unfold squared_norm. cbn [map Rsum fold_right RtoC Cre Cim fst snd].
  f_equal. lra.
Qed.

(** C5 (amended): the reducer does not compare the trailing dimension with
    the basis size.  On a non-empty tensor whose trailing dimension differs
    from it, a tensor of trailing dimension [N * L] is returned, computed
    from the slices clipped to the entries that exist. *)
Theorem casimir_no_shape_check (c : ndarray C) (lead : list nat) (k : nat)
  (L N : Z) :
  wf c -> shape c = lead ++ [k] -> Z.of_nat k <> basis_size L N ->
  k <> 0%nat -> size_of lead <> 0%nat -> (1 <= L)%Z -> (1 <= N)%Z ->
  CasimirSymmetrizer_symmetrize_function c L N
  = Ok (mk_ndarray (lead ++ [Z.to_nat (N * L)])
          (concat (map (casimir_row L N) (rows (size_of lead) k (data c))))).
Proof.
  intros Hwf Hsh _ Hk Hp HL HN. now apply casimir_value.
Qed.

Lemma casimir_no_shape_check_witness :
  exists out,
    CasimirSymmetrizer_symmetrize_function
      (mk_ndarray [1%nat; 5%nat] (repeat (RtoC 1) 5)) 2 3 = Ok out
    /\ shape out = [1%nat; 6%nat].
Proof.
  eexists. split.
  - apply (casimir_no_shape_check
             (mk_ndarray [1%nat; 5%nat] (repeat (RtoC 1) 5)) [1%nat] 5 2 3);
      [reflexivity | reflexivity | discriminate | lia | simpl; lia | lia | lia].
  - reflexivity.
Defined.

(** ** Dictionaries *)

Lemma dict_get_head {V : Type} (d : dict V) (k : string) (v : V) :
  dict_get ((k, v) :: d) k = Ok v.
Proof. simpl. now rewrite String.eqb_refl. Qed.

Lemma dict_get_app_notin {V : Type} (pre d : dict V) (k : string) :
  ~ In k (keys pre) -> dict_get (pre ++ d) k = dict_get d k.
Proof.
  induction pre as [|[k' v'] pre IH]; intros Hk; simpl; [reflexivity|].
  destruct (String.eqb_spec k' k) as [E|E].
  - exfalso. apply Hk. left. exact E.
  - apply IH. intros Hin. apply Hk. right. exact Hin.
Qed.

Lemma dict_set_notin {V : Type} (d : dict V) (k : string) (v : V) :
  ~ In k (keys d) -> dict_set d k v = d ++ [(k, v)].
Proof.
  induction d as [|[k' v'] d IH]; intros Hk; simpl; [reflexivity|].
  destruct (String.eqb_spec k' k) as [E|E].
  - exfalso. apply Hk. left. exact E.
  - f_equal. apply IH. intros Hin. apply Hk. right. exact Hin.
Qed.

Lemma keys_app {V : Type} (a b : dict V) : keys (a ++ b) = keys a ++ keys b.
Proof. apply map_app. Qed.

(** ** get_symmetrized *)

Section DispatchFacts.

Variable CG : Z -> Z -> Z -> Z -> Z -> Z -> C.
Variable self : symmetrizer.
Variable basis : dict basis_entry.

(** A loop that appends one computed value per item returns the values in
    the order of the items, and returns only if every one was computed. *)
Lemma for_each_collect {X Y : Type} (f : X -> result Y) (xs : list X) :
  forall acc res,
  for_each xs (fun x acc => y <- f x ;; Ok (acc ++ [y])) acc = Ok res
  <-> exists ys, Forall2 (fun x y => f x = Ok y) xs ys /\ res = acc ++ ys.
Proof.
  induction xs as [|x xs IH]; intros acc res; simpl.
  - split.
    + intros H. inversion H. exists []. split; [constructor|].
      now rewrite app_nil_r.
    + intros [ys [H ->]]. inversion H. now rewrite app_nil_r.
  - split.
    + intros H. apply bind_Ok in H. destruct H as [acc' [H1 H2]].
      apply bind_Ok in H1. destruct H1 as [y [Hy Hacc]]. inversion Hacc.
      subst acc'. apply IH in H2. destruct H2 as [ys [Hys ->]].
      exists (y :: ys). split; [now constructor|].
      now rewrite <- app_assoc.
    + intros [ys [H ->]]. inversion H as [|x' y l l' Hy Hrest]. subst.
      rewrite Hy. simpl. apply IH. exists l'. split; [exact Hrest|].
      now rewrite <- app_assoc.
Qed.

Lemma symmetrize_dataset_from (suf : dict (ndarray C)) :
  forall (pre : dict (ndarray C)) (acc res : dict (ndarray R)),
  NoDup (keys (pre ++ suf)) -> keys acc = keys pre ->
  for_each (keys suf) (fun spec results_dict =>
    c <- dict_get (pre ++ suf) spec ;;
    b <- dict_get basis spec ;;
    v <- _symmetrize_function CG self c (basis_l b) (basis_n b) ;;
    Ok (dict_set results_dict spec v)) acc = Ok res
  <-> exists out, Forall2 (symmetrized_entry CG self basis) suf out
                  /\ res = acc ++ out.
Proof.
  induction suf as [|[k c] suf IH]; intros pre acc res Hnd Hkeys.
  - simpl. split.
    + intros H. inversion H. exists []. split; [constructor|].
      now rewrite app_nil_r.
    + intros [out [H ->]]. inversion H. now rewrite app_nil_r.
  - assert (Hk : ~ In k (keys pre)).
    { rewrite keys_app in Hnd. simpl in Hnd.
      apply NoDup_remove_2 in Hnd. intros Hin. apply Hnd.
      apply in_or_app. left. exact Hin. }
    assert (Hnd' : NoDup (keys ((pre ++ [(k, c)]) ++ suf)))
      by now rewrite <- app_assoc.
    assert (Hbody : forall spec rd,
      (c0 <- dict_get (pre ++ (k, c) :: suf) spec ;;
       b <- dict_get basis spec ;;
       v <- _symmetrize_function CG self c0 (basis_l b) (basis_n b) ;;
       Ok (dict_set rd spec v))
      = (c0 <- dict_get ((pre ++ [(k, c)]) ++ suf) spec ;;
         b <- dict_get basis spec ;;
         v <- _symmetrize_function CG self c0 (basis_l b) (basis_n b) ;;
         Ok (dict_set rd spec v)))
      by (intros; now rewrite <- app_assoc).
    cbn [keys map fst for_each].
    rewrite dict_get_app_notin by exact Hk. rewrite dict_get_head.
    cbn [bind]. split.
    + intros H. apply bind_Ok in H. destruct H as [acc' [H1 H2]].
      apply bind_Ok in H1. destruct H1 as [b [Hb H1]].
      apply bind_Ok in H1. destruct H1 as [v [Hv H1]].
      inversion H1. subst acc'. clear H1.
      rewrite dict_set_notin in H2 by (rewrite Hkeys; exact Hk).
      rewrite (for_each_ext _ _ _ _ (fun y t _ => Hbody y t)) in H2.
      apply (IH (pre ++ [(k, c)])) in H2;
        [| exact Hnd' | now rewrite !keys_app, Hkeys].
      destruct H2 as [out [Hout ->]].
      exists ((k, v) :: out). split; [|now rewrite <- app_assoc].
      constructor; [|exact Hout]. split; [reflexivity|].
      exists b. split; assumption.
    + intros [out [H ->]].
      inversion H as [|x [k' v] l l' [Hfst [b [Hb Hv]]] Hrest]. subst.
      cbn [fst snd] in *. subst k'. rewrite Hb. cbn [bind]. rewrite Hv.
      cbn [bind]. rewrite dict_set_notin by (rewrite Hkeys; exact Hk).
      rewrite (for_each_ext _ _ _ _ (fun y t _ => Hbody y t)).
      apply (IH (pre ++ [(k, c)]));
        [ exact Hnd' | now rewrite !keys_app, Hkeys |].
      exists l'. split; [exact Hrest | now rewrite <- app_assoc].
Qed.

(** The mapping computed for one dataset: entry by entry, in the order of
    the dataset. *)
Lemma symmetrize_dataset_spec (d : dict (ndarray C)) (r : dict (ndarray R)) :
  NoDup (keys d) ->
  symmetrize_dataset CG self basis d = Ok r
  <-> Forall2 (symmetrized_entry CG self basis) d r.
Proof.
  intros Hnd. unfold symmetrize_dataset.
  rewrite (symmetrize_dataset_from d [] [] r Hnd eq_refl).
  split.
  - intros [out [H ->]]. exact H.
  - intros H. exists r. split; [exact H | reflexivity].
Qed.

Lemma symmetrized_entries_keys (d : dict (ndarray C)) (r : dict (ndarray R)) :
  Forall2 (symmetrized_entry CG self basis) d r -> keys r = keys d.
Proof.
  induction 1 as [|kc kv d r [Hk _] _ IH]; simpl; [reflexivity|].
  now rewrite Hk, IH.
Qed.

End DispatchFacts.

Lemma get_symmetrized_single (CG : Z -> Z -> Z -> Z -> Z -> Z -> C)
  (self : symmetrizer) (d : dict (ndarray C)) :
  get_symmetrized CG self (Mapping d)
  = (basis <- attr_basis (_attrs self) ;;
     r <- symmetrize_dataset CG self basis d ;;
     Ok (Mapping r)).
Proof.
  unfold get_symmetrized. destruct (attr_basis (_attrs self)); simpl; auto.
  destruct (symmetrize_dataset CG self a d); reflexivity.
Qed.

Lemma get_symmetrized_list (CG : Z -> Z -> Z -> Z -> Z -> Z -> C)
  (self : symmetrizer) (ds : list (dict (ndarray C))) :
  get_symmetrized CG self (Mappings ds)
  = (basis <- attr_basis (_attrs self) ;;
     results <- for_each ds (fun dataset results =>
                  r <- symmetrize_dataset CG self basis dataset ;;
                  Ok (results ++ [r])) [] ;;
     Ok (Mappings results)).
Proof. reflexivity. Qed.

(** C6: on a list of mappings [get_symmetrized] returns a list: it returns
    [out] exactly when [out] lists, in the order of the input, the mappings
    that [get_symmetrized] returns for each element passed alone; every such
    mapping has the entries of its input in their order, each value being
    the reducer's result for that species.  A single mapping gives a single
    mapping. *)
Theorem get_symmetrized_batch (CG : Z -> Z -> Z -> Z -> Z -> Z -> C)
  (self : symmetrizer) (ds : list (dict (ndarray C))) :
  Forall (fun d => NoDup (keys d)) ds ->
  (forall out,
     get_symmetrized CG self (Mappings ds) = Ok out
     <-> exists basis rs,
           attr_basis (_attrs self) = Ok basis /\ out = Mappings rs /\
           Forall2 (fun d r =>
                      get_symmetrized CG self (Mapping d) = Ok (Mapping r)
                      /\ Forall2 (symmetrized_entry CG self basis) d r)
                   ds rs)
  /\ (forall rs,
        get_symmetrized CG self (Mappings ds) = Ok (Mappings rs) ->
        length rs = length ds /\ map keys rs = map keys ds)
  /\ (forall d out,
        get_symmetrized CG self (Mapping d) = Ok out ->
        exists r, out = Mapping r).
Proof.
  intros Hnd.
  assert (Hmain : forall out,
     get_symmetrized CG self (Mappings ds) = Ok out
     <-> exists basis rs,
           attr_basis (_attrs self) = Ok basis /\ out = Mappings rs /\
           Forall2 (fun d r =>
                      get_symmetrized CG self (Mapping d) = Ok (Mapping r)
                      /\ Forall2 (symmetrized_entry CG self basis) d r)
                   ds rs).
  { intros out. rewrite get_symmetrized_list. split.
    - intros H. apply bind_Ok in H. destruct H as [basis [Hb H]].
      apply bind_Ok in H. destruct H as [rs [Hrs H]]. inversion H. subst out.
      exists basis, rs. split; [exact Hb|]. split; [reflexivity|].
      apply for_each_collect in Hrs. destruct Hrs as [ys [Hys E]].
      simpl in E. subst ys. clear H.
      induction Hys as [|d r ds' rs' Hd _ IH]; [constructor|].
      inversion Hnd as [|d0 l0 Hd0 Hl0]. subst.
      constructor; [|apply IH; exact Hl0]. split.
      + rewrite get_symmetrized_single, Hb. cbn [bind]. now rewrite Hd.
      + apply symmetrize_dataset_spec; assumption.
    - intros [basis [rs [Hb [E H]]]]. subst out. rewrite Hb. cbn [bind].
      assert (Hc : for_each ds (fun dataset results =>
                     r <- symmetrize_dataset CG self basis dataset ;;
                     Ok (results ++ [r])) [] = Ok rs).
      { apply for_each_collect. exists rs. split; [|reflexivity].
        induction H as [|d r ds' rs' [_ Hd] _ IH]; [constructor|].
        inversion Hnd as [|d0 l0 Hd0 Hl0]. subst.
        constructor; [|apply IH; exact Hl0].
        apply symmetrize_dataset_spec; assumption. }
      rewrite Hc. reflexivity. }
  split; [exact Hmain|]. split.
  - intros rs H. apply Hmain in H. destruct H as [basis [rs' [_ [E H]]]].
    inversion E. subst rs'. clear E Hmain Hnd.
    induction H as [|d r ds' rs' [_ Hd] _ [IH1 IH2]]; [split; reflexivity|].
    simpl. split; [now rewrite IH1|].
    rewrite IH2. f_equal. eapply symmetrized_entries_keys. exact Hd.
  - intros d out H. rewrite get_symmetrized_single in H.
    apply bind_Ok in H. destruct H as [basis [_ H]].
    apply bind_Ok in H. destruct H as [r [_ H]]. inversion H. now exists r.
Qed.

(** C7: the factory raises when the selector key is missing and when the
    lower-cased selector is not a known name; a selector that lower-cases
    to "casimir" or "bispectrum" is handed to the constructor of that
    class. *)
Theorem symmetrizer_factory_selection (CG : Z -> Z -> Z -> Z -> Z -> Z -> C)
  (ins : instructions) :
  (symmetrizer_type ins = None ->
   symmetrizer_factory CG ins
   = Raise (PyException
              "symmetrize_instructions must contain symmetrizer_type key"))
  /\ (forall name, symmetrizer_type ins = Some name ->
        lower name <> "casimir"%string -> lower name <> "bispectrum"%string ->
        symmetrizer_factory CG ins = Raise (KeyError (lower name)))
  /\ (forall name, symmetrizer_type ins = Some name ->
        lower name = "casimir"%string ->
        symmetrizer_factory CG ins
        = Ok (mk_symmetrizer CasimirSymmetrizer ins None))
  /\ (forall name, symmetrizer_type ins = Some name ->
        lower name = "bispectrum"%string ->
        symmetrizer_factory CG ins = BispectrumSymmetrizer_init CG ins).
Proof.
  unfold symmetrizer_factory. repeat split.
  - intros H. now rewrite H.
  - intros name H H1 H2. rewrite H. unfold symmetrizer_dict. cbn [dict_get].
    destruct (String.eqb_spec "casimir" (lower name)) as [E|_];
      [congruence|].
    destruct (String.eqb_spec "bispectrum" (lower name)) as [E|_];
      [congruence|]. reflexivity.
  - intros name H H1. rewrite H, H1. reflexivity.
  - intros name H H1. rewrite H, H1. reflexivity.
Qed.

(** C10: on a tuple [(X, y)] [transform] returns the symmetrized [X] paired
    with [y] itself; on anything else it returns the symmetrized argument;
    an exception of [get_symmetrized] is passed on. *)
Theorem transform_tuple {Y : Type} (CG : Z -> Z -> Z -> Z -> Z -> Z -> C)
  (self : symmetrizer) (X : descriptors (ndarray C)) (y : Y) :
  (forall d, get_symmetrized CG self X = Ok d ->
     transform CG self (ArgTuple X [y]) = Ok (Pair d y)
     /\ transform CG self (@ArgOther Y X) = Ok (Plain d))
  /\ (forall e, get_symmetrized CG self X = Raise e ->
        transform CG self (ArgTuple X [y]) = Raise e
        /\ transform CG self (@ArgOther Y X) = Raise e).
Proof.
  split; intros r H; unfold transform; rewrite H; split; reflexivity.
Qed.

(** ** The s-orbital scenario *)

Lemma casimir_s_orbital :
  CasimirSymmetrizer_symmetrize_function c_H 1 1 = Ok (mk_ndarray [1%nat] [4]).
Proof.
  unfold c_H.
  rewrite (casimir_value (mk_ndarray [1%nat] [RtoC 2]) [] 1 1 1);
    [| reflexivity | reflexivity | simpl; lia | simpl; lia | lia | lia].
  f_equal. f_equal. unfold casimir_row.
  change (range 0 1) with [0%Z].
  cbn [rows row size_of fold_right seq map Nat.mul Nat.add firstn skipn concat
       app flat_map data].
  change (block 1 0 0 [RtoC 2]) with [RtoC 2].
  unfold squared_norm. cbn [map Rsum fold_right RtoC Cre Cim fst snd].
  f_equal. lra.
Qed.

Lemma get_symmetrized_casimir_H :
  get_symmetrized CG_s (Symmetrizer_init CasimirSymmetrizer
                          (instructions_H "casimir"))
                  (Mapping [("H"%string, c_H)])
  = Ok (Mapping [("H"%string, mk_ndarray [1%nat] [4])]).
Proof.
  rewrite get_symmetrized_single. cbn [Symmetrizer_init _attrs attr_basis
    instructions_H basis bind]. unfold symmetrize_dataset.
  cbn [keys map fst for_each dict_get basis_H String.eqb Ascii.eqb Bool.eqb
       bind basis_l basis_n _symmetrize_function class_of].
  unfold _symmetrize_function. cbn [Symmetrizer_init class_of].
  rewrite casimir_s_orbital. reflexivity.
Qed.

Lemma get_symmetrized_batch_witness :
  exists rs,
    get_symmetrized CG_s (Symmetrizer_init CasimirSymmetrizer
                            (instructions_H "casimir"))
      (Mappings [[("H"%string, c_H)]; [("H"%string, c_H)];
                 [("H"%string, c_H)]])
    = Ok (Mappings rs)
    /\ length rs = 3%nat
    /\ map keys rs = [["H"%string]; ["H"%string]; ["H"%string]].
Proof.
  assert (Hnd : Forall (fun d : dict (ndarray C) => NoDup (keys d))
                  [[("H"%string, c_H)]; [("H"%string, c_H)];
                   [("H"%string, c_H)]])
    by (repeat constructor; simpl; tauto).
  set (r := [("H"%string, mk_ndarray [1%nat] [4])]).
  assert (H : get_symmetrized CG_s (Symmetrizer_init CasimirSymmetrizer
                                      (instructions_H "casimir"))
                (Mappings [[("H"%string, c_H)]; [("H"%string, c_H)];
                           [("H"%string, c_H)]])
              = Ok (Mappings [r; r; r])).
  { rewrite get_symmetrized_list.
    cbn [Symmetrizer_init _attrs attr_basis instructions_H basis bind].
    unfold symmetrize_dataset.
    cbn [keys map fst for_each dict_get basis_H String.eqb Ascii.eqb Bool.eqb
         bind basis_l basis_n _symmetrize_function class_of].
    unfold _symmetrize_function. cbn [Symmetrizer_init class_of].
    rewrite casimir_s_orbital. reflexivity. }
  exists [r; r; r]. split; [exact H|].
  exact (proj1 (proj2 (get_symmetrized_batch CG_s _ _ Hnd)) _ H).
Defined.

Lemma symmetrizer_factory_selection_witness :
  symmetrizer_factory CG_s (mk_instructions None (Some basis_H))
  = Raise (PyException
             "symmetrize_instructions must contain symmetrizer_type key")
  /\ symmetrizer_factory CG_s (instructions_H "Coulomb")
     = Raise (KeyError "coulomb")
  /\ symmetrizer_factory CG_s (instructions_H "CaSiMiR")
     = Ok (mk_symmetrizer CasimirSymmetrizer (instructions_H "CaSiMiR") None)
  /\ symmetrizer_factory CG_s (instructions_H "BISPECTRUM")
     = BispectrumSymmetrizer_init CG_s (instructions_H "BISPECTRUM").
Proof.
  split; [|split; [|split]].
  - apply (proj1 (symmetrizer_factory_selection CG_s
                    (mk_instructions None (Some basis_H)))). reflexivity.
  - apply (proj1 (proj2 (symmetrizer_factory_selection CG_s
                           (instructions_H "Coulomb"))) "Coulomb"%string);
      [reflexivity | discriminate | discriminate].
  - apply (proj1 (proj2 (proj2 (symmetrizer_factory_selection CG_s
                                  (instructions_H "CaSiMiR"))))
                 "CaSiMiR"%string); reflexivity.
  - apply (proj2 (proj2 (proj2 (symmetrizer_factory_selection CG_s
                                  (instructions_H "BISPECTRUM"))))
                 "BISPECTRUM"%string); reflexivity.
Defined.

Lemma transform_tuple_witness :
  transform CG_s (Symmetrizer_init CasimirSymmetrizer
                    (instructions_H "casimir"))
            (ArgTuple (Mapping [("H"%string, c_H)]) [7%nat])
  = Ok (Pair (Mapping [("H"%string, mk_ndarray [1%nat] [4])]) 7%nat)
  /\ transform CG_s (Symmetrizer_init CasimirSymmetrizer
                       (instructions_H "casimir"))
               (@ArgOther nat (Mapping [("H"%string, c_H)]))
     = Ok (Plain (Mapping [("H"%string, mk_ndarray [1%nat] [4])])).
Proof.
  exact (proj1 (transform_tuple CG_s _ _ 7%nat) _ get_symmetrized_casimir_H).
Defined.

(** ** The coupling table *)

(** C8: for every [L < 1] building the table raises: [np.zeros] refuses
    the negative dimension [2 (L - 1) + 1]. *)
Theorem cg_matrix_rejects_nonpositive (CG : Z -> Z -> Z -> Z -> Z -> Z -> C)
  (L : Z) :
  (L < 1)%Z -> cg_matrix CG L = Raise ValueError.
Proof.
  intros HL. unfold cg_matrix, np_zeros. cbn [existsb].
  replace (2 * (L - 1) + 1 <? 0)%Z with true by (symmetry; apply Z.ltb_lt; lia).
  rewrite orb_true_r. reflexivity.
Qed.

Lemma cg_matrix_rejects_nonpositive_witness :
  cg_matrix CG_s 0 = Raise ValueError.
Proof. apply cg_matrix_rejects_nonpositive. lia. Defined.

(** For one angular channel no table is built.  The loops run [m], [m1] and
    [m2] over [-1, 0, 1] while the magnetic axes have size 1, and the
    assignment at index 1 raises. *)
Lemma cg_matrix_one_raises (CG : Z -> Z -> Z -> Z -> Z -> Z -> C) :
  cg_matrix CG 1 = Raise IndexError.
Proof. vm_compute. reflexivity. Qed.

(** C1: in the scenario the Casimir reducer gives [4.0], but the bispectrum
    reducer raises, called with the table left out as well as through the
    factory: both build the table with [cg_matrix 1]. *)
Theorem bispectrum_s_orbital_raises (CG : Z -> Z -> Z -> Z -> Z -> Z -> C) :
  CasimirSymmetrizer_symmetrize_function c_H 1 1 = Ok (mk_ndarray [1%nat] [4])
  /\ BispectrumSymmetrizer_symmetrize_function CG c_H 1 1 None
     = Raise IndexError
  /\ symmetrizer_factory CG (instructions_H "bispectrum") = Raise IndexError.
Proof.
  split; [exact casimir_s_orbital|]. split.
  - unfold BispectrumSymmetrizer_symmetrize_function.
    rewrite casimir_s_orbital. cbn [bind].
    change (last_dim (shape c_H)) with (@Ok nat 1%nat). cbn [bind].
    change (reshape c_H [(-1)%Z; Z.of_nat 1])
      with (Ok (mk_ndarray [1%nat; 1%nat] [RtoC 2])). cbn [bind shape hd].
    change (reshape (mk_ndarray [1%nat; 1%nat] [RtoC 2])
                    [Z.of_nat 1; 1%Z; (-1)%Z])
      with (Ok (mk_ndarray [1%nat; 1%nat; 1%nat] [RtoC 2])). cbn [bind].
    rewrite cg_matrix_one_raises. reflexivity.
  - vm_compute. reflexivity.
Qed.

(** ** Where exceptions come from *)

Lemma for_each_Raise {X S : Type} (xs : list X) (body : X -> S -> result S)
  (e : exn) :
  forall s,
  for_each xs body s = Raise e
  <-> exists xs1 x xs2 s', xs = xs1 ++ x :: xs2
                           /\ for_each xs1 body s = Ok s'
                           /\ body x s' = Raise e.
Proof.
  induction xs as [|x xs IH]; intros s; simpl.
  - split; [discriminate|].
    intros [xs1 [y [xs2 [s' [E _]]]]]. destruct xs1; discriminate.
  - split.
    + intros H. apply bind_Raise in H. destruct H as [H | [s1 [H1 H2]]].
      * exists [], x, xs, s. auto.
      * apply IH in H2. destruct H2 as [xs1 [y [xs2 [s' [E [H2 H3]]]]]].
        exists (x :: xs1), y, xs2, s'. subst xs. simpl. rewrite H1.
        auto.
    + intros [xs1 [y [xs2 [s' [E [H1 H2]]]]]].
      destruct xs1 as [|x1 xs1]; simpl in E; inversion E; subst.
      * simpl in H1. inversion H1. subst s'. now rewrite H2.
      * simpl in H1. apply bind_Ok in H1. destruct H1 as [s1 [Hs1 H1]].
        rewrite Hs1. simpl. apply IH. exists xs1, y, xs2, s'. auto.
Qed.

(** A loop raises only what its body raises. *)
Lemma for_each_raises {X S : Type} (P : exn -> Prop) (xs : list X)
  (body : X -> S -> result S) :
  (forall x s e, body x s = Raise e -> P e) ->
  forall s e, for_each xs body s = Raise e -> P e.
Proof.
  intros Hb s e H. apply for_each_Raise in H.
  destruct H as [xs1 [x [xs2 [s' [_ [_ H]]]]]]. exact (Hb x s' e H).
Qed.

Lemma norm_index_raises (d : nat) (i : Z) (e : exn) :
  norm_index d i = Raise e -> shape_error e.
Proof.
  unfold norm_index. intros H.
  destruct ((0 <=? i) && (i <? Z.of_nat d))%Z; [discriminate|].
  destruct ((- Z.of_nat d <=? i) && (i <? 0))%Z; [discriminate|].
  inversion H. now left.
Qed.

Lemma ravel_raises (sh : list nat) :
  forall (idx : list Z) (acc : nat) (e : exn),
  ravel sh idx acc = Raise e -> shape_error e.
Proof.
  induction sh as [|d sh IH]; intros [|i idx] acc e H; simpl in H;
    try (inversion H; now left).
  apply bind_Raise in H. destruct H as [H | [p [_ H]]].
  - exact (norm_index_raises _ _ _ H).
  - exact (IH _ _ _ H).
Qed.

Lemma getitem_raises {A : Type} (a : ndarray A) (idx : list Z) (e : exn) :
  getitem a idx = Raise e -> shape_error e.
Proof.
  unfold getitem. intros H. apply bind_Raise in H.
  destruct H as [H | [p [_ H]]].
  - exact (ravel_raises _ _ _ _ H).
  - destruct (nth_error (data a) p); [discriminate|]. inversion H. now left.
Qed.

Lemma setitem_raises {A : Type} (a : ndarray A) (idx : list Z) (v : A)
  (e : exn) :
  setitem a idx v = Raise e -> shape_error e.
Proof.
  unfold setitem. intros H. apply bind_Raise in H.
  destruct H as [H | [p [_ H]]]; [|discriminate].
  exact (ravel_raises _ _ _ _ H).
Qed.

Lemma take_col_raises (a : ndarray C) (i j : Z) (e : exn) :
  take_col a i j = Raise e -> shape_error e.
Proof.
  unfold take_col. intros H.
  destruct (shape a) as [|d0 [|d1 [|d2 [|d3 sh]]]];
    try (inversion H; now left).
  apply bind_Raise in H. destruct H as [H | [p [_ H]]];
    [exact (norm_index_raises _ _ _ H)|].
  apply bind_Raise in H. destruct H as [H | [q [_ H]]];
    [exact (norm_index_raises _ _ _ H) | discriminate].
Qed.

Lemma sub_block_raises (a : ndarray C) (i j k : Z) (e : exn) :
  sub_block a i j k = Raise e -> shape_error e.
Proof.
  unfold sub_block. intros H.
  destruct (shape a) as [|d0 [|d1 [|d2 [|d3 [|d4 [|d5 [|d6 sh]]]]]]];
    try (inversion H; now left).
  apply bind_Raise in H. destruct H as [H | [p [_ H]]];
    [exact (norm_index_raises _ _ _ H)|].
  apply bind_Raise in H. destruct H as [H | [q [_ H]]];
    [exact (norm_index_raises _ _ _ H)|].
  apply bind_Raise in H. destruct H as [H | [r [_ H]]];
    [exact (norm_index_raises _ _ _ H) | discriminate].
Qed.

Lemma reshape_raises {A : Type} (a : ndarray A) (sh : list Z) (e : exn) :
  reshape a sh = Raise e -> shape_error e.
Proof.
  unfold reshape. intros H.
  repeat match type of H with
         | (if ?x then _ else _) = _ => destruct x
         end; inversion H; now right.
Qed.

Lemma last_dim_raises (sh : list nat) (e : exn) :
  last_dim sh = Raise e -> shape_error e.
Proof.
  unfold last_dim. destruct (rev sh); intros H; inversion H. now left.
Qed.

Lemma concatenate_raises {A : Type} (a b : ndarray A) (e : exn) :
  concatenate a b = Raise e -> shape_error e.
Proof.
  unfold concatenate. intros H.
  destruct (rev (shape a)) as [|ka la]; [inversion H; now right|].
  destruct (rev (shape b)) as [|kb lb]; [inversion H; now right|].
  destruct (list_eq_dec Nat.eq_dec la lb); inversion H. now right.
Qed.

Lemma casimir_raises (c : ndarray C) (L N : Z) (e : exn) :
  CasimirSymmetrizer_symmetrize_function c L N = Raise e -> shape_error e.
Proof.
  unfold CasimirSymmetrizer_symmetrize_function. intros H.
  apply bind_Raise in H. destruct H as [H | [k [_ H]]];
    [exact (last_dim_raises _ _ H)|].
  apply bind_Raise in H. destruct H as [H | [c2 [_ H]]];
    exact (reshape_raises _ _ _ H).
Qed.

Lemma cg_matrix_raises (CG : Z -> Z -> Z -> Z -> Z -> Z -> C) (L : Z)
  (e : exn) :
  cg_matrix CG L = Raise e -> shape_error e.
Proof.
  unfold cg_matrix. intros H.
  apply bind_Raise in H. destruct H as [H | [cgs [_ H]]].
  - unfold np_zeros in H. destruct (existsb _ _); inversion H. now right.
  - revert cgs e H.
    do 6 (apply for_each_raises; intros ?).
    intros s e. apply setitem_raises.
Qed.

Lemma triple_sum_raises (c cgs : ndarray C) (start : list Z)
  (n l1 l2 l : Z) (e : exn) :
  triple_sum c cgs start n l1 l2 l = Raise e -> shape_error e.
Proof.
  unfold triple_sum. generalize (repeat C0 (hd 0%nat (shape c))).
  intros b0. revert b0 e.
  do 3 (apply for_each_raises; intros ?).
  unfold triple_term. intros b e H.
  apply bind_Raise in H. destruct H as [H | [cx [_ H]]];
    [exact (take_col_raises _ _ _ _ H)|].
  apply bind_Raise in H. destruct H as [H | [cy [_ H]]];
    [exact (take_col_raises _ _ _ _ H)|].
  apply bind_Raise in H. destruct H as [H | [cz [_ H]]];
    [exact (take_col_raises _ _ _ _ H)|].
  apply bind_Raise in H. destruct H as [H | [g [_ H]]];
    [exact (getitem_raises _ _ _ H) | discriminate].
Qed.

Lemma negligible_raises (cgs : ndarray C) (l1 l2 l : Z) (e : exn) :
  negligible cgs l1 l2 l = Raise e -> shape_error e.
Proof.
  unfold negligible. intros H. apply bind_Raise in H.
  destruct H as [H | [blk [_ H]]]; [|discriminate].
  exact (sub_block_raises _ _ _ _ _ H).
Qed.

Lemma Not_real_not_shape_error : ~ shape_error Not_real.
Proof. intros [H|H]; discriminate. Qed.

(** ** The realness check *)

Lemma not_real_true (z : C) : not_real z = true <-> 1e-5 < Rabs (Cim z).
Proof.
  unfold not_real. destruct (Rlt_dec 1e-5 (Rabs (Cim z))); split;
    intros; auto; discriminate.
Qed.

Lemma existsb_not_real (b : list C) :
  existsb not_real b = true <-> Exists (fun z => 1e-5 < Rabs (Cim z)) b.
Proof.
  rewrite existsb_exists, Exists_exists.
  split; intros [z [Hin Hz]]; exists z; (split; [exact Hin|]);
    now apply not_real_true.
Qed.

Lemma existsb_not_real_false (b : list C) :
  existsb not_real b = false <-> Forall (fun z => Rabs (Cim z) <= 1e-5) b.
Proof.
  rewrite Forall_forall. split.
  - intros H z Hin.
    destruct (Rle_lt_dec (Rabs (Cim z)) 1e-5) as [Hle|Hlt]; [exact Hle|].
    assert (Ht : existsb not_real b = true).
    { apply existsb_exists. exists z. split; [exact Hin|].
      now apply not_real_true. }
    congruence.
  - intros H. destruct (existsb not_real b) eqn:E; [|reflexivity].
    apply existsb_exists in E. destruct E as [z [Hin Hz]].
    apply not_real_true in Hz. specialize (H z Hin). lra.
Qed.

(** The check on one computed [b]: the exception when one entry has an
    imaginary part above 1e-5 in absolute value, else the real parts
    rounded to 5 decimals. *)
Lemma checked_real_spec (b : list C) :
  (checked_real b = Raise Not_real
   <-> Exists (fun z => 1e-5 < Rabs (Cim z)) b)
  /\ (forall v, checked_real b = Ok v
      <-> Forall (fun z => Rabs (Cim z) <= 1e-5) b
          /\ v = map (fun z => round 5 (Cre z)) b).
Proof.
  unfold checked_real. destruct (existsb not_real b) eqn:E.
  - split.
    + split; [intros _; now apply existsb_not_real | reflexivity].
    + intros v. split; [discriminate|]. intros [H _].
      apply existsb_not_real_false in H. congruence.
  - split.
    + split; [discriminate|]. intros H. apply existsb_not_real in H.
      congruence.
    + intros v. split.
      * intros H. inversion H. split; [|reflexivity].
        now apply existsb_not_real_false.
      * intros [_ ->]. reflexivity.
Qed.

(** The body raises the realness exception exactly when it computes a [b]
    that fails the check. *)
Lemma bispectrum_body_Not_real (c cgs : ndarray C) (start : list Z)
  (t : Z * Z * Z * Z) (acc : list (list R)) :
  bispectrum_body c cgs start t acc = Raise Not_real
  <-> exists b, computes c cgs start t b
                /\ Exists (fun z => 1e-5 < Rabs (Cim z)) b.
Proof.
  destruct t as [[[n l1] l2] l]. unfold bispectrum_body, computes. split.
  - intros H. apply bind_Raise in H. destruct H as [H | [skip [Hs H]]].
    + apply negligible_raises in H. now apply Not_real_not_shape_error in H.
    + destruct skip; [discriminate|].
      apply bind_Raise in H. destruct H as [H | [b [Hb H]]].
      * apply triple_sum_raises in H.
        now apply Not_real_not_shape_error in H.
      * apply bind_Raise in H. destruct H as [H | [v [_ H]]]; [|discriminate].
        exists b. split; [split; assumption|].
        now apply (proj1 (checked_real_spec b)).
  - intros [b [[Hs Hb] Hex]]. rewrite Hs. cbn [bind]. rewrite Hb. cbn [bind].
    apply (proj1 (checked_real_spec b)) in Hex. now rewrite Hex.
Qed.

(** What a run of the loop that returns has appended. *)
Lemma bispectrum_loop_Ok (c cgs : ndarray C) (start : list Z)
  (ts : list (Z * Z * Z * Z)) :
  forall acc rows,
  for_each ts (bispectrum_body c cgs start) acc = Ok rows ->
  rows = acc ++ map (map (fun z => round 5 (Cre z)))
                    (computed_values c cgs start ts)
  /\ Forall (Forall (fun z => Rabs (Cim z) <= 1e-5))
            (computed_values c cgs start ts).
Proof.
  induction ts as [|t ts IH]; intros acc rows H; simpl in H.
  - inversion H. simpl. rewrite app_nil_r. split; [reflexivity|constructor].
  - apply bind_Ok in H. destruct H as [acc1 [H1 H2]].
    apply IH in H2. destruct H2 as [E HF].
    destruct t as [[[n l1] l2] l]. unfold bispectrum_body in H1.
    cbn [computed_values flat_map].
    fold (computed_values c cgs start ts).
    apply bind_Ok in H1. destruct H1 as [skip [Hs H1]]. rewrite Hs.
    destruct skip.
    + inversion H1. subst acc1. simpl. split; assumption.
    + apply bind_Ok in H1. destruct H1 as [b [Hb H1]]. rewrite Hb.
      apply bind_Ok in H1. destruct H1 as [v [Hv H1]]. inversion H1.
      subst acc1. apply (proj2 (checked_real_spec b)) in Hv.
      destruct Hv as [Hreal ->]. cbn [app map]. split.
      * rewrite E, <- app_assoc. reflexivity.
      * constructor; assumption.
Qed.

Lemma bispectrum_loop_flat (c cgs : ndarray C) (start : list Z) (n_l n : Z) :
  bispectrum_loop c cgs start n_l n
  = for_each (coupling_triples n_l n) (bispectrum_body c cgs start) [].
Proof.
  unfold bispectrum_loop, coupling_triples. symmetry.
  rewrite for_each_flat_map. apply for_each_ext. intros n_ s1 _.
  rewrite for_each_flat_map. apply for_each_ext. intros l1 s2 _.
  rewrite for_each_flat_map. apply for_each_ext. intros l2 s3 _.
  rewrite for_each_map. reflexivity.
Qed.

Lemma bispectrum_unfold (CG : Z -> Z -> Z -> Z -> Z -> Z -> C)
  (c : ndarray C) (n_l n : Z) (cgs : option (ndarray C)) :
  BispectrumSymmetrizer_symmetrize_function CG c n_l n cgs
  = (casimirs <- CasimirSymmetrizer_symmetrize_function c n_l n ;;
     ops <- bispectrum_operands CG c n_l n cgs ;;
     bisp <- bispectrum_loop (fst ops) (snd ops) (start_table n_l) n_l n ;;
     bisp <- reshape (transpose 0 (np_array bisp))
                     (lead_shape (shape c) ++ [(-1)%Z]) ;;
     concatenate casimirs bisp).
Proof.
  unfold BispectrumSymmetrizer_symmetrize_function, bispectrum_operands.
  destruct (CasimirSymmetrizer_symmetrize_function c n_l n) as [cas|e];
    [|reflexivity].
  cbn [bind].
  destruct (last_dim (shape c)) as [k|e]; [|reflexivity]. cbn [bind].
  destruct (reshape c [(-1)%Z; Z.of_nat k]) as [c2|e]; [|reflexivity].
  cbn [bind].
  destruct (reshape c2 [Z.of_nat (hd 0%nat (shape c2)); n; (-1)%Z])
    as [c3|e]; [|reflexivity].
  cbn [bind].
  destruct (match cgs with Some t => Ok t | None => cg_matrix CG n_l end)
    as [tbl|e]; reflexivity.
Qed.

Lemma bispectrum_operands_raises (CG : Z -> Z -> Z -> Z -> Z -> Z -> C)
  (c : ndarray C) (n_l n : Z) (cgs : option (ndarray C)) (e : exn) :
  bispectrum_operands CG c n_l n cgs = Raise e -> shape_error e.
Proof.
  unfold bispectrum_operands. intros H.
  apply bind_Raise in H. destruct H as [H | [cas [_ H]]];
    [exact (casimir_raises _ _ _ _ H)|].
  apply bind_Raise in H. destruct H as [H | [k [_ H]]];
    [exact (last_dim_raises _ _ H)|].
  apply bind_Raise in H. destruct H as [H | [c2 [_ H]]];
    [exact (reshape_raises _ _ _ H)|].
  apply bind_Raise in H. destruct H as [H | [c3 [_ H]]];
    [exact (reshape_raises _ _ _ H)|].
  apply bind_Raise in H. destruct H as [H | [tbl [_ H]]]; [|discriminate].
  destruct cgs as [t|]; [discriminate|]. exact (cg_matrix_raises _ _ _ H).
Qed.

Lemma bispectrum_operands_casimir (CG : Z -> Z -> Z -> Z -> Z -> Z -> C)
  (c : ndarray C) (n_l n : Z) (cgs : option (ndarray C))
  (ops : ndarray C * ndarray C) :
  bispectrum_operands CG c n_l n cgs = Ok ops ->
  exists cas, CasimirSymmetrizer_symmetrize_function c n_l n = Ok cas.
Proof.
  unfold bispectrum_operands. intros H. apply bind_Ok in H.
  destruct H as [cas [H _]]. now exists cas.
Qed.

(** ** Rounding *)

(** [np.rint] gives an integer at distance at most 1/2, the even one of the
    two when the distance is 1/2. *)
Lemma rint_spec (x : R) :
  Rabs (IZR (rint x) - x) <= 1 / 2
  /\ (Rabs (IZR (rint x) - x) = 1 / 2 -> Z.even (rint x) = true).
Proof.
  unfold rint, rfloor. destruct (archimed x) as [H1 H2].
  set (f := (up x - 1)%Z).
  assert (Hf : IZR f = IZR (up x) - 1) by (unfold f; now rewrite minus_IZR).
  destruct (Rlt_dec (x - IZR f) (1 / 2)) as [Hd|Hd].
  - split; unfold Rabs; destruct (Rcase_abs (IZR f - x)); lra.
  - destruct (Rlt_dec (1 / 2) (x - IZR f)) as [Hu|Hu].
    + rewrite plus_IZR.
      split; unfold Rabs; destruct (Rcase_abs (IZR f + 1 - x)); lra.
    + destruct (Z.even f) eqn:E.
      * split; [|intros _; exact E].
        unfold Rabs; destruct (Rcase_abs (IZR f - x)); lra.
      * split.
        -- rewrite plus_IZR.
           unfold Rabs; destruct (Rcase_abs (IZR f + 1 - x)); lra.
        -- intros _. change (f + 1)%Z with (Z.succ f).
           now rewrite Z.even_succ, <- Z.negb_even, E.
Qed.

Lemma round_rounded (decimals : nat) (x : R) :
  rounded_to decimals x (round decimals x).
Proof.
  exists (rint (x * 10 ^ decimals)). split; [reflexivity|].
  apply rint_spec.
Qed.

(** Rounding leaves one value only, so [round] is the function that
    rounds half to even to the given number of decimals. *)
Lemma rounded_to_unique (decimals : nat) (x v v' : R) :
  rounded_to decimals x v -> rounded_to decimals x v' -> v = v'.
Proof.
  intros [k [Ev [Hk Tk]]] [k' [Ev' [Hk' Tk']]]. subst v v'.
  set (y := x * 10 ^ decimals) in *.
  assert (Hy : -(1 / 2) <= IZR k - y <= 1 / 2)
    by (revert Hk; unfold Rabs; destruct (Rcase_abs (IZR k - y)); lra).
  assert (Hy' : -(1 / 2) <= IZR k' - y <= 1 / 2)
    by (revert Hk'; unfold Rabs; destruct (Rcase_abs (IZR k' - y)); lra).
  assert (Hodd : forall a b : Z,
            b = (a + 1)%Z -> Z.even a = true -> Z.even b = true -> False).
  { intros a b E Ha Hb. subst b. change (a + 1)%Z with (Z.succ a) in Hb.
    rewrite Z.even_succ, <- Z.negb_even, Ha in Hb. discriminate. }
  destruct (Z.lt_trichotomy k k') as [Hlt | [Heq | Hgt]].
  - exfalso.
    assert (H1 : IZR k + 1 <= IZR k')
      by (rewrite <- plus_IZR; apply IZR_le; lia).
    assert (E : k' = (k + 1)%Z)
      by (apply eq_IZR; rewrite plus_IZR; lra).
    apply (Hodd k k' E).
    + apply Tk. unfold Rabs. destruct (Rcase_abs (IZR k - y)); lra.
    + apply Tk'. unfold Rabs. destruct (Rcase_abs (IZR k' - y)); lra.
  - now subst k'.
  - exfalso.
    assert (H1 : IZR k' + 1 <= IZR k)
      by (rewrite <- plus_IZR; apply IZR_le; lia).
    assert (E : k = (k' + 1)%Z)
      by (apply eq_IZR; rewrite plus_IZR; lra).
    apply (Hodd k' k E).
    + apply Tk'. unfold Rabs. destruct (Rcase_abs (IZR k' - y)); lra.
    + apply Tk. unfold Rabs. destruct (Rcase_abs (IZR k - y)); lra.
Qed.

Lemma rounded_values (bs : list (list C)) :
  Forall2 (Forall2 (fun z v => rounded_to 5 (Cre z) v)) bs
          (map (map (fun z => round 5 (Cre z))) bs).
Proof.
  induction bs as [|b bs IH]; constructor; [|exact IH].
  induction b as [|z b IHb]; constructor; [apply round_rounded | exact IHb].
Qed.

(** ** The exceptions of the bispectrum reducer *)

Lemma bispectrum_body_raises (c cgs : ndarray C) (start : list Z)
  (t : Z * Z * Z * Z) (acc : list (list R)) (e : exn) :
  bispectrum_body c cgs start t acc = Raise e ->
  e = Not_real \/ shape_error e.
Proof.
  destruct t as [[[n l1] l2] l]. unfold bispectrum_body. intros H.
  apply bind_Raise in H. destruct H as [H | [skip [_ H]]];
    [right; exact (negligible_raises _ _ _ _ _ H)|].
  destruct skip; [discriminate|].
  apply bind_Raise in H. destruct H as [H | [b [_ H]]];
    [right; exact (triple_sum_raises _ _ _ _ _ _ _ _ H)|].
  apply bind_Raise in H. destruct H as [H | [v [_ H]]]; [|discriminate].
  left. unfold checked_real in H.
  destruct (existsb not_real b); inversion H. reflexivity.
Qed.

Lemma bispectrum_raises (CG : Z -> Z -> Z -> Z -> Z -> Z -> C)
  (c : ndarray C) (n_l n : Z) (cgs : option (ndarray C)) (e : exn) :
  BispectrumSymmetrizer_symmetrize_function CG c n_l n cgs = Raise e ->
  e = Not_real \/ shape_error e.
Proof.
  rewrite bispectrum_unfold. intros H.
  apply bind_Raise in H. destruct H as [H | [cas [_ H]]];
    [right; exact (casimir_raises _ _ _ _ H)|].
  apply bind_Raise in H. destruct H as [H | [ops [_ H]]];
    [right; exact (bispectrum_operands_raises _ _ _ _ _ _ H)|].
  apply bind_Raise in H. destruct H as [H | [rows [_ H]]].
  - rewrite bispectrum_loop_flat in H. revert H.
    apply (for_each_raises (fun e => e = Not_real \/ shape_error e)).
    intros t s e'. apply bispectrum_body_raises.
  - apply bind_Raise in H. destruct H as [H | [bisp [_ H]]];
      right; [exact (reshape_raises _ _ _ H)
             |exact (concatenate_raises _ _ _ H)].
Qed.

(** C4 (amended): the bispectrum reducer raises the exception of the
    realness check exactly when its loop reaches a quadruple for which the
    computed [b] has an entry whose imaginary part exceeds 1e-5 in absolute
    value; every other exception it raises is one of indexing or
    reshaping; when the reducer returns, every computed [b] passed the
    check and the values joined to the Casimir invariants are the real
    parts rounded to 5 decimals, half to even. *)
Theorem bispectrum_realness_check (CG : Z -> Z -> Z -> Z -> Z -> Z -> C)
  (c : ndarray C) (n_l n : Z) (cgs : option (ndarray C)) :
  (BispectrumSymmetrizer_symmetrize_function CG c n_l n cgs = Raise Not_real
   <-> exists c3 tbl ts1 t ts2 acc b,
         bispectrum_operands CG c n_l n cgs = Ok (c3, tbl)
         /\ coupling_triples n_l n = ts1 ++ t :: ts2
         /\ for_each ts1 (bispectrum_body c3 tbl (start_table n_l)) []
            = Ok acc
         /\ computes c3 tbl (start_table n_l) t b
         /\ Exists (fun z => 1e-5 < Rabs (Cim z)) b)
  /\ (forall e,
        BispectrumSymmetrizer_symmetrize_function CG c n_l n cgs = Raise e ->
        e = Not_real \/ shape_error e)
  /\ (forall out,
        BispectrumSymmetrizer_symmetrize_function CG c n_l n cgs = Ok out ->
        exists cas c3 tbl vals bisp,
          CasimirSymmetrizer_symmetrize_function c n_l n = Ok cas
          /\ bispectrum_operands CG c n_l n cgs = Ok (c3, tbl)
          /\ Forall (Forall (fun z => Rabs (Cim z) <= 1e-5))
               (computed_values c3 tbl (start_table n_l)
                                (coupling_triples n_l n))
          /\ Forall2 (Forall2 (fun z v => rounded_to 5 (Cre z) v))
               (computed_values c3 tbl (start_table n_l)
                                (coupling_triples n_l n))
               vals
          /\ reshape (transpose 0 (np_array vals))
                     (lead_shape (shape c) ++ [(-1)%Z]) = Ok bisp
          /\ concatenate cas bisp = Ok out).
Proof.
  split; [split|split; [apply bispectrum_raises|]].
  - rewrite bispectrum_unfold. intros H.
    apply bind_Raise in H. destruct H as [H | [cas [_ H]]].
    { apply casimir_raises in H. now apply Not_real_not_shape_error in H. }
    apply bind_Raise in H. destruct H as [H | [[c3 tbl] [Hops H]]].
    { apply bispectrum_operands_raises in H.
      now apply Not_real_not_shape_error in H. }
    cbn [fst snd] in H.
    apply bind_Raise in H. destruct H as [H | [rows [_ H]]].
    + rewrite bispectrum_loop_flat in H. apply for_each_Raise in H.
      destruct H as [ts1 [t [ts2 [acc [E [H1 H2]]]]]].
      apply bispectrum_body_Not_real in H2. destruct H2 as [b [Hb Hex]].
      exists c3, tbl, ts1, t, ts2, acc, b. auto.
    + apply bind_Raise in H. destruct H as [H | [bisp [_ H]]].
      * apply reshape_raises in H. now apply Not_real_not_shape_error in H.
      * apply concatenate_raises in H.
        now apply Not_real_not_shape_error in H.
  - rewrite bispectrum_unfold.
    intros [c3 [tbl [ts1 [t [ts2 [acc [b [Hops [E [H1 [Hb Hex]]]]]]]]]]].
    destruct (bispectrum_operands_casimir _ _ _ _ _ _ Hops) as [cas Hcas].
    rewrite Hcas, Hops. cbn [bind fst snd].
    assert (Hloop : bispectrum_loop c3 tbl (start_table n_l) n_l n
                    = Raise Not_real).
    { rewrite bispectrum_loop_flat. apply for_each_Raise.
      exists ts1, t, ts2, acc. split; [exact E|]. split; [exact H1|].
      apply bispectrum_body_Not_real. exists b. auto. }
    rewrite Hloop. reflexivity.
  - rewrite bispectrum_unfold. intros out H.
    apply bind_Ok in H. destruct H as [cas [Hcas H]].
    apply bind_Ok in H. destruct H as [[c3 tbl] [Hops H]]. cbn [fst snd] in H.
    apply bind_Ok in H. destruct H as [rows [Hrows H]].
    apply bind_Ok in H. destruct H as [bisp [Hbisp H]].
    rewrite bispectrum_loop_flat in Hrows.
    apply bispectrum_loop_Ok in Hrows. destruct Hrows as [E HF].
    simpl in E. subst rows.
    exists cas, c3, tbl,
      (map (map (fun z => round 5 (Cre z)))
           (computed_values c3 tbl (start_table n_l)
                            (coupling_triples n_l n))), bisp.
    split; [exact Hcas|]. split; [exact Hops|]. split; [exact HF|].
    split; [apply rounded_values|]. split; [exact Hbisp | exact H].
Qed.

(** ** The bispectrum of one s-orbital coefficient *)

Lemma casimir_one_entry (z : C) :
  CasimirSymmetrizer_symmetrize_function (mk_ndarray [1%nat] [z]) 1 1
  = Ok (mk_ndarray [1%nat] [squared_norm [z]]).
Proof.
  rewrite (casimir_value (mk_ndarray [1%nat] [z]) [] 1 1 1);
    [| reflexivity | reflexivity | simpl; lia | simpl; lia | lia | lia].
  reflexivity.
Qed.

Lemma norm_C1 : norm [C1] = 1.
Proof.
  unfold norm. cbn [map Rsum fold_right]. rewrite Cabs2_eq.
  cbn [C1 RtoC Cre Cim fst snd].
  replace (1 * 1 + 0 * 0 + 0) with 1 by lra. apply sqrt_1.
Qed.

Lemma negligible_cgs_s : negligible cgs_s 0 0 0 = Ok false.
Proof.
  unfold negligible.
  change (sub_block cgs_s 0 0 0) with (@Ok (list C) [C1]). cbn [bind].
  rewrite norm_C1. destruct (Rlt_dec 1 1e-15) as [H|H]; [lra|reflexivity].
Qed.

(** The scalar [b(0, 0, 0)] of a tensor with the single entry [z]. *)
Lemma triple_sum_s (z : C) :
  triple_sum (mk_ndarray [1%nat; 1%nat; 1%nat] [z]) cgs_s (start_table 1)
             0 0 0 0
  = Ok [Cadd C0 (Cmul (Cmul (Cmul (Cconj z) z) z) C1)].
Proof. reflexivity. Qed.

Lemma bispectrum_one_entry (CG : Z -> Z -> Z -> Z -> Z -> Z -> C) (z : C) :
  BispectrumSymmetrizer_symmetrize_function CG (mk_ndarray [1%nat] [z]) 1 1
    (Some cgs_s)
  = (v <- checked_real [Cadd C0 (Cmul (Cmul (Cmul (Cconj z) z) z) C1)] ;;
     Ok (mk_ndarray [2%nat] (squared_norm [z] :: v))).
Proof.
  rewrite bispectrum_unfold. unfold bispectrum_operands.
  rewrite casimir_one_entry. cbn [bind].
  change (last_dim (shape (mk_ndarray [1%nat] [z]))) with (@Ok nat 1%nat).
  cbn [bind].
  change (reshape (mk_ndarray [1%nat] [z]) [(-1)%Z; Z.of_nat 1])
    with (Ok (mk_ndarray [1%nat; 1%nat] [z])).
  cbn [bind shape hd].
  change (reshape (mk_ndarray [1%nat; 1%nat] [z]) [Z.of_nat 1; 1%Z; (-1)%Z])
    with (Ok (mk_ndarray [1%nat; 1%nat; 1%nat] [z])).
  cbn [bind fst snd].
  rewrite bispectrum_loop_flat.
  change (coupling_triples 1 1) with [(0, 0, 0, 0)%Z].
  cbn [for_each bispectrum_body]. rewrite negligible_cgs_s. cbn [bind].
  rewrite triple_sum_s. cbn [bind].
  unfold checked_real. cbn [existsb].
  destruct (not_real (Cadd C0 (Cmul (Cmul (Cmul (Cconj z) z) z) C1)));
    reflexivity.
Qed.

Lemma rint_IZR (k : Z) : rint (IZR k) = k.
Proof.
  unfold rint, rfloor.
  assert (Hup : up (IZR k) = (k + 1)%Z).
  { symmetry. apply tech_up; rewrite plus_IZR; lra. }
  rewrite Hup. replace (k + 1 - 1)%Z with k by lia.
  destruct (Rlt_dec (IZR k - IZR k) (1 / 2)) as [_|H]; [reflexivity|].
  exfalso. apply H. lra.
Qed.

Lemma round_8 : round 5 8 = 8.
Proof.
  unfold round. replace (8 * 10 ^ 5) with (IZR 800000) by (simpl; lra).
  rewrite rint_IZR. simpl. lra.
Qed.

(** With a table that holds [<0 0; 0 0 | 0 0> = 1] the loop of the reducer
    gives the value the scenario expects. *)
Lemma bispectrum_s_orbital_given_table
  (CG : Z -> Z -> Z -> Z -> Z -> Z -> C) :
  BispectrumSymmetrizer_symmetrize_function CG c_H 1 1 (Some cgs_s)
  = Ok (mk_ndarray [2%nat] [4; 8]).
Proof.
  unfold c_H. rewrite bispectrum_one_entry.
  set (b := Cadd C0 (Cmul (Cmul (Cmul (Cconj (RtoC 2)) (RtoC 2)) (RtoC 2)) C1)).
  assert (Hre : Cre b = 8)
    by (unfold b, Cadd, Cmul, Cconj, C0, C1, RtoC, Cre, Cim; simpl; lra).
  assert (Him : Cim b = 0)
    by (unfold b, Cadd, Cmul, Cconj, C0, C1, RtoC, Cre, Cim; simpl; lra).
  unfold checked_real. cbn [existsb]. unfold not_real. rewrite Him, Rabs_R0.
  destruct (Rlt_dec 1e-5 0) as [H|_]; [lra|].
  cbn [orb bind map]. rewrite Hre, round_8.
  unfold squared_norm. cbn [map Rsum fold_right RtoC Cre Cim fst snd].
  do 2 f_equal. f_equal. lra.
Qed.

(** A tensor whose entry is the imaginary unit fails the realness check. *)
Lemma bispectrum_imaginary_raises (CG : Z -> Z -> Z -> Z -> Z -> Z -> C) :
  BispectrumSymmetrizer_symmetrize_function CG (mk_ndarray [1%nat] [(0, 1)])
    1 1 (Some cgs_s)
  = Raise Not_real.
Proof.
  rewrite bispectrum_one_entry.
  set (b := Cadd C0 (Cmul (Cmul (Cmul (Cconj (0, 1)) (0, 1)) (0, 1)) C1)).
  assert (Him : Cim b = 1)
    by (unfold b, Cadd, Cmul, Cconj, C0, C1, RtoC, Cre, Cim; simpl; lra).
  unfold checked_real. cbn [existsb]. unfold not_real. rewrite Him, Rabs_R1.
  destruct (Rlt_dec 1e-5 1) as [_|H]; [reflexivity | lra].
Qed.

(** The value 1/27 of the tensor [1/3] is not a multiple of 1e-5: the
    reducer returns it rounded to 0.03704. *)
Lemma round_third : round 5 (1 / 27) = 3704 / 100000.
Proof.
  apply (rounded_to_unique 5 (1 / 27)); [apply round_rounded|].
  exists 3704%Z.
  assert (E : IZR 3704 - 1 / 27 * 10 ^ 5 = 8 / 27) by (simpl; lra).
  split; [simpl; lra|]. rewrite E.
  split; [|intros H; exfalso; revert H];
    unfold Rabs; destruct (Rcase_abs (8 / 27)); lra.
Qed.

Lemma bispectrum_third_given_table
  (CG : Z -> Z -> Z -> Z -> Z -> Z -> C) :
  BispectrumSymmetrizer_symmetrize_function CG
    (mk_ndarray [1%nat] [RtoC (1 / 3)]) 1 1 (Some cgs_s)
  = Ok (mk_ndarray [2%nat] [1 / 9; 3704 / 100000]).
Proof.
  rewrite bispectrum_one_entry.
  set (b := Cadd C0 (Cmul (Cmul (Cmul (Cconj (RtoC (1 / 3))) (RtoC (1 / 3)))
                                (RtoC (1 / 3))) C1)).
  assert (Hre : Cre b = 1 / 27)
    by (unfold b, Cadd, Cmul, Cconj, C0, C1, RtoC, Cre, Cim; simpl; lra).
  assert (Him : Cim b = 0)
    by (unfold b, Cadd, Cmul, Cconj, C0, C1, RtoC, Cre, Cim; simpl; lra).
  unfold checked_real. cbn [existsb]. unfold not_real. rewrite Him, Rabs_R0.
  destruct (Rlt_dec 1e-5 0) as [H|_]; [lra|].
  cbn [orb bind map]. rewrite Hre, round_third.
  unfold squared_norm. cbn [map Rsum fold_right RtoC Cre Cim fst snd].
  do 2 f_equal. f_equal. lra.
Qed.

(** An empty batch stops the reducer in its first statement, the call of
    the Casimir reducer, before any [b] is computed. *)
Lemma bispectrum_empty_batch_raises
  (CG : Z -> Z -> Z -> Z -> Z -> Z -> C) :
  BispectrumSymmetrizer_symmetrize_function CG
    (mk_ndarray [0%nat; 1%nat] []) 1 1 (Some cgs_s)
  = Raise ValueError
  /\ bispectrum_operands CG (mk_ndarray [0%nat; 1%nat] []) 1 1 (Some cgs_s)
     = Raise ValueError.
Proof. split; reflexivity. Qed.

Lemma bispectrum_realness_check_witness :
  (exists c3 tbl ts1 t ts2 acc b,
     bispectrum_operands CG_s (mk_ndarray [1%nat] [(0, 1)]) 1 1 (Some cgs_s)
     = Ok (c3, tbl)
     /\ coupling_triples 1 1 = ts1 ++ t :: ts2
     /\ for_each ts1 (bispectrum_body c3 tbl (start_table 1)) [] = Ok acc
     /\ computes c3 tbl (start_table 1) t b
     /\ Exists (fun z => 1e-5 < Rabs (Cim z)) b)
  /\ (ValueError = Not_real \/ shape_error ValueError)
  /\ (exists cas c3 tbl vals bisp,
        CasimirSymmetrizer_symmetrize_function
          (mk_ndarray [1%nat] [RtoC (1 / 3)]) 1 1 = Ok cas
        /\ bispectrum_operands CG_s (mk_ndarray [1%nat] [RtoC (1 / 3)]) 1 1
                               (Some cgs_s) = Ok (c3, tbl)
        /\ Forall (Forall (fun z => Rabs (Cim z) <= 1e-5))
             (computed_values c3 tbl (start_table 1) (coupling_triples 1 1))
        /\ Forall2 (Forall2 (fun z v => rounded_to 5 (Cre z) v))
             (computed_values c3 tbl (start_table 1) (coupling_triples 1 1))
             vals
        /\ reshape (transpose 0 (np_array vals))
                   (lead_shape [1%nat] ++ [(-1)%Z]) = Ok bisp
        /\ concatenate cas bisp
           = Ok (mk_ndarray [2%nat] [1 / 9; 3704 / 100000])).
Proof.
  split; [|split].
  - exact (proj1 (proj1 (bispectrum_realness_check CG_s
                           (mk_ndarray [1%nat] [(0, 1)]) 1 1 (Some cgs_s)))
                 (bispectrum_imaginary_raises CG_s)).
  - exact (proj1 (proj2 (bispectrum_realness_check CG_s
                           (mk_ndarray [0%nat; 1%nat] []) 1 1 (Some cgs_s)))
                 _ (proj1 (bispectrum_empty_batch_raises CG_s))).
  - exact (proj2 (proj2 (bispectrum_realness_check CG_s
                           (mk_ndarray [1%nat] [RtoC (1 / 3)]) 1 1
                           (Some cgs_s)))
                 _ (bispectrum_third_given_table CG_s)).
Defined.

(** C4 as first stated does not hold: on an empty batch the reducer raises
    an error although no [b] is computed, let alone one with an imaginary
    part above 1e-5. *)
Lemma bispectrum_error_without_check :
  BispectrumSymmetrizer_symmetrize_function CG_s
    (mk_ndarray [0%nat; 1%nat] []) 1 1 (Some cgs_s)
  = Raise ValueError
  /\ ~ (exists c3 tbl t b,
          bispectrum_operands CG_s (mk_ndarray [0%nat; 1%nat] []) 1 1
                              (Some cgs_s) = Ok (c3, tbl)
          /\ computes c3 tbl (start_table 1) t b
          /\ Exists (fun z => 1e-5 < Rabs (Cim z)) b).
Proof.
  destruct (bispectrum_empty_batch_raises CG_s) as [H1 H2].
  split; [exact H1|].
  intros [c3 [tbl [t [b [H _]]]]]. rewrite H2 in H. discriminate.
Qed.

(** ** The coupling table for two and more angular channels *)

Lemma norm_index_Ok (d : nat) (i : Z) :
  (- Z.of_nat d <= i < Z.of_nat d)%Z -> norm_index d i = Ok (wrap d i).
Proof.
  intros H. unfold norm_index, wrap.
  destruct (Z.leb_spec 0 i) as [H0|H0].
  - replace (i <? Z.of_nat d)%Z with true by (symmetry; apply Z.ltb_lt; lia).
    reflexivity.
  - cbn [andb].
    replace (- Z.of_nat d <=? i)%Z with true
      by (symmetry; apply Z.leb_le; lia).
    replace (i <? 0)%Z with true by (symmetry; apply Z.ltb_lt; lia).
    reflexivity.
Qed.

Lemma wrap_nonneg (d : nat) (i : Z) : (0 <= i)%Z -> wrap d i = Z.to_nat i.
Proof.
  intros H. unfold wrap.
  now replace (0 <=? i)%Z with true by (symmetry; apply Z.leb_le; lia).
Qed.

Lemma wrap_lt (d : nat) (i : Z) :
  (- Z.of_nat d <= i < Z.of_nat d)%Z -> (wrap d i < d)%nat.
Proof. intros H. unfold wrap. destruct (Z.leb_spec 0 i); lia. Qed.

Lemma ravel6 (n w : nat) (i0 i1 i2 i3 i4 i5 : Z) :
  (- Z.of_nat n <= i0 < Z.of_nat n)%Z -> (- Z.of_nat w <= i1 < Z.of_nat w)%Z ->
  (- Z.of_nat n <= i2 < Z.of_nat n)%Z -> (- Z.of_nat w <= i3 < Z.of_nat w)%Z ->
  (- Z.of_nat n <= i4 < Z.of_nat n)%Z -> (- Z.of_nat w <= i5 < Z.of_nat w)%Z ->
  ravel [n; w; n; w; n; w] [i0; i1; i2; i3; i4; i5] 0
  = Ok (offset6 n w (wrap n i0) (wrap w i1) (wrap n i2) (wrap w i3)
                (wrap n i4) (wrap w i5)).
Proof.
  intros H0 H1 H2 H3 H4 H5. cbn [ravel].
  rewrite (norm_index_Ok n i0 H0). cbn [bind].
  rewrite (norm_index_Ok w i1 H1). cbn [bind].
  rewrite (norm_index_Ok n i2 H2). cbn [bind].
  rewrite (norm_index_Ok w i3 H3). cbn [bind].
  rewrite (norm_index_Ok n i4 H4). cbn [bind].
  rewrite (norm_index_Ok w i5 H5). cbn [bind].
  unfold offset6. f_equal; lia.
Qed.

Lemma radix_lt (a b A w : nat) :
  (a < A)%nat -> (b < w)%nat -> (a * w + b < A * w)%nat.
Proof. intros. nia. Qed.

Lemma radix_inj (a b a' b' w : nat) :
  (b < w)%nat -> (b' < w)%nat -> (a * w + b = a' * w + b')%nat ->
  a = a' /\ b = b'.
Proof.
  intros Hb Hb' E.
  assert (Ha : a = ((a * w + b) / w)%nat)
    by (apply (Nat.div_unique _ _ _ b); lia).
  assert (Ha' : a' = ((a * w + b) / w)%nat)
    by (apply (Nat.div_unique _ _ _ b'); lia).
  assert (Eq : a = a') by congruence. split; [exact Eq|].
  rewrite <- Eq in E. lia.
Qed.

Lemma offset6_lt (n w p0 p1 p2 p3 p4 p5 : nat) :
  (p0 < n)%nat -> (p1 < w)%nat -> (p2 < n)%nat -> (p3 < w)%nat ->
  (p4 < n)%nat -> (p5 < w)%nat ->
  (offset6 n w p0 p1 p2 p3 p4 p5 < n * w * n * w * n * w)%nat.
Proof.
  intros H0 H1 H2 H3 H4 H5. unfold offset6.
  repeat (apply radix_lt; [|assumption]). assumption.
Qed.

Lemma offset6_inj (n w p0 p1 p2 p3 p4 p5 q0 q1 q2 q3 q4 q5 : nat) :
  (p1 < w)%nat -> (p2 < n)%nat -> (p3 < w)%nat -> (p4 < n)%nat ->
  (p5 < w)%nat ->
  (q1 < w)%nat -> (q2 < n)%nat -> (q3 < w)%nat -> (q4 < n)%nat ->
  (q5 < w)%nat ->
  offset6 n w p0 p1 p2 p3 p4 p5 = offset6 n w q0 q1 q2 q3 q4 q5 ->
  p0 = q0 /\ p1 = q1 /\ p2 = q2 /\ p3 = q3 /\ p4 = q4 /\ p5 = q5.
Proof.
  intros P1 P2 P3 P4 P5 Q1 Q2 Q3 Q4 Q5 E. unfold offset6 in E.
  apply radix_inj in E; [|assumption|assumption]. destruct E as [E E5].
  apply radix_inj in E; [|assumption|assumption]. destruct E as [E E4].
  apply radix_inj in E; [|assumption|assumption]. destruct E as [E E3].
  apply radix_inj in E; [|assumption|assumption]. destruct E as [E E2].
  apply radix_inj in E; [|assumption|assumption]. destruct E as [E E1].
  auto 7.
Qed.

Lemma update_length {A : Type} (p : nat) (v : A) (xs : list A) :
  length (update p v xs) = length xs.
Proof.
  revert p. induction xs as [|x xs IH]; intros [|p]; simpl; auto.
Qed.

Lemma update_nth_error {A : Type} (p : nat) (v : A) (xs : list A) (q : nat)
  (u : A) :
  nth_error (update p v xs) q = Some u ->
  (q = p /\ u = v) \/ nth_error xs q = Some u.
Proof.
  revert p q. induction xs as [|x xs IH]; intros [|p] [|q] H; simpl in *;
    try discriminate; auto.
  - inversion H. auto.
  - destruct (IH p q H) as [[E1 E2]|E]; auto.
Qed.

(** Two loop variables that land on one magnetic position: they are equal
    or the one from the loop is [L] or [-L], outside every [l < L]. *)
Lemma wrap_alias (L m m' : Z) :
  (2 <= L)%Z -> (Z.abs m <= L - 1)%Z -> (- L <= m' <= L)%Z ->
  wrap (Z.to_nat (2 * (L - 1) + 1)) m' = wrap (Z.to_nat (2 * (L - 1) + 1)) m ->
  m' = m \/ Z.abs m' = L.
Proof.
  intros HL Hm Hm'. unfold wrap.
  destruct (Z.leb_spec 0 m'), (Z.leb_spec 0 m); lia.
Qed.

Section Selection.

Variable CG : Z -> Z -> Z -> Z -> Z -> Z -> C.
Variable L : Z.
Hypothesis HL : (2 <= L)%Z.

Lemma np_zeros_filling :
  exists cgs,
    np_zeros [L; (2 * (L - 1) + 1)%Z; L; (2 * (L - 1) + 1)%Z; L;
              (2 * (L - 1) + 1)%Z] = Ok cgs
    /\ cg_filling CG L cgs.
Proof.
  unfold np_zeros. cbn [existsb].
  replace (L <? 0)%Z with false by (symmetry; apply Z.ltb_ge; lia).
  replace (2 * (L - 1) + 1 <? 0)%Z with false
    by (symmetry; apply Z.ltb_ge; lia).
  cbn [orb]. eexists. split; [reflexivity|].
  unfold cg_filling. cbn [shape data map]. split; [reflexivity|]. split.
  - rewrite repeat_length. cbn [size_of fold_right]. lia.
  - intros p v H. left. apply nth_error_In in H.
    now apply repeat_spec in H.
Qed.

(** The innermost assignment is in range and keeps the table as described. *)
Lemma setitem_filling (cgs : ndarray C) (l l1 l2 m m1 m2 : Z) :
  In l (range 0 L) -> In l1 (range 0 L) -> In l2 (range 0 L) ->
  In m (range (- L) (L + 1)) -> In m1 (range (- L) (L + 1)) ->
  In m2 (range (- L) (L + 1)) ->
  cg_filling CG L cgs ->
  exists cgs', setitem cgs [l1; m1; l2; m2; l; m] (CG l1 m1 l2 m2 l m)
               = Ok cgs'
               /\ cg_filling CG L cgs'.
Proof.
  rewrite !range_In. intros Hl Hl1 Hl2 Hm Hm1 Hm2 [Hsh [Hlen Hent]].
  unfold setitem. rewrite Hsh.
  rewrite ravel6 by lia. cbn [bind]. eexists. split; [reflexivity|].
  unfold cg_filling. cbn [shape data]. split; [reflexivity|]. split.
  - now rewrite update_length.
  - intros p v H. apply update_nth_error in H. destruct H as [[Ep Ev]|H].
    + right. exists l1, m1, l2, m2, l, m. split; [lia|]. split; [|exact Ev].
      rewrite Ep. rewrite !(wrap_nonneg (Z.to_nat L)) by lia. reflexivity.
    + exact (Hent p v H).
Qed.

Lemma cg_matrix_filling :
  exists cgs, cg_matrix CG L = Ok cgs /\ cg_filling CG L cgs.
Proof.
  unfold cg_matrix. destruct np_zeros_filling as [cgs0 [H0 P0]].
  rewrite H0. cbn [bind]. clear H0.
  revert cgs0 P0.
  apply (for_each_total (cg_filling CG L)). intros l s Hl Ps. revert s Ps.
  apply (for_each_total (cg_filling CG L)). intros l1 s Hl1 Ps. revert s Ps.
  apply (for_each_total (cg_filling CG L)). intros l2 s Hl2 Ps. revert s Ps.
  apply (for_each_total (cg_filling CG L)). intros m s Hm Ps. revert s Ps.
  apply (for_each_total (cg_filling CG L)). intros m1 s Hm1 Ps. revert s Ps.
  apply (for_each_total (cg_filling CG L)). intros m2 s Hm2 Ps.
  now apply setitem_filling.
Qed.

Hypothesis CG_selection :
  forall l1 m1 l2 m2 l m,
    ~ selection_ok l1 m1 l2 m2 l m -> CG l1 m1 l2 m2 l m = C0.

(** In a table filled this way the entries read at an index inside the
    magnetic window that breaks a selection rule are 0. *)
Lemma cg_filling_selection (cgs : ndarray C) (l1 m1 l2 m2 l m : Z) :
  cg_filling CG L cgs ->
  (0 <= l1 < L)%Z -> (0 <= l2 < L)%Z -> (0 <= l < L)%Z ->
  (Z.abs m1 <= L - 1)%Z -> (Z.abs m2 <= L - 1)%Z -> (Z.abs m <= L - 1)%Z ->
  ~ selection_ok l1 m1 l2 m2 l m ->
  getitem cgs [l1; m1; l2; m2; l; m] = Ok C0.
Proof.
  intros [Hsh [Hlen Hent]] Hl1 Hl2 Hl Hm1 Hm2 Hm Hsel.
  assert (Wm1 : (wrap (Z.to_nat (2 * (L - 1) + 1)) m1
                 < Z.to_nat (2 * (L - 1) + 1))%nat) by (apply wrap_lt; lia).
  assert (Wm2 : (wrap (Z.to_nat (2 * (L - 1) + 1)) m2
                 < Z.to_nat (2 * (L - 1) + 1))%nat) by (apply wrap_lt; lia).
  assert (Wm : (wrap (Z.to_nat (2 * (L - 1) + 1)) m
                < Z.to_nat (2 * (L - 1) + 1))%nat) by (apply wrap_lt; lia).
  unfold getitem. rewrite Hsh. rewrite ravel6 by lia. cbn [bind].
  rewrite !(wrap_nonneg (Z.to_nat L)) by lia.
  match goal with
  | |- context [nth_error _ ?q] => set (p := q)
  end.
  assert (Hp : (p < length (data cgs))%nat)
    by (rewrite Hlen; apply offset6_lt; lia).
  destruct (nth_error (data cgs) p) as [v|] eqn:Hv;
    [|apply nth_error_None in Hv; lia].
  f_equal.
  destruct (Hent p v Hv)
    as [E | [k1 [j1 [k2 [j2 [k [j [Hb [Ep Ev]]]]]]]]]; [exact E|].
  subst v. apply CG_selection. intros Hok.
  unfold p in Ep.
  apply offset6_inj in Ep; try assumption; try (apply wrap_lt; lia);
    try lia.
  destruct Ep as [E1 [E2 [E3 [E4 [E5 E6]]]]].
  assert (k1 = l1) by lia. assert (k2 = l2) by lia. assert (k = l) by lia.
  subst k1 k2 k.
  symmetry in E2, E4, E6.
  apply (wrap_alias L m1 j1) in E2; [|lia|lia|lia].
  apply (wrap_alias L m2 j2) in E4; [|lia|lia|lia].
  apply (wrap_alias L m j) in E6; [|lia|lia|lia].
  unfold selection_ok in Hok, Hsel.
  clear Hsh Hlen Hent Hp Hv Wm1 Wm2 Wm E1 E3 E5 Hb. clear p.
  destruct E2 as [E2|E2]; [|lia].
  destruct E4 as [E4|E4]; [|lia].
  destruct E6 as [E6|E6]; [|lia].
  subst j1 j2 j. apply Hsel. exact Hok.
Qed.

End Selection.

(** With two angular channels the table is built, but the loop values
    [m1 = -1] and [m1 = 2] land on one position and the later one stays:
    the entry read at [m1 = -1] is the coefficient computed for [m1 = 2]. *)
Lemma cg_matrix_two_overwrites (CG : Z -> Z -> Z -> Z -> Z -> Z -> C) :
  (tbl <- cg_matrix CG 2 ;; getitem tbl [1; -1; 1; 1; 0; 0])%Z
  = Ok (CG 1 2 1 1 0 0)%Z.
Proof. vm_compute. reflexivity. Qed.

Lemma CG_s_selection (l1 m1 l2 m2 l m : Z) :
  ~ selection_ok l1 m1 l2 m2 l m -> CG_s l1 m1 l2 m2 l m = C0.
Proof.
  intros H. unfold CG_s.
  destruct ((l1 =? 0) && (m1 =? 0) && (l2 =? 0) && (m2 =? 0) && (l =? 0)
            && (m =? 0))%Z eqn:E; [|reflexivity].
  exfalso. apply H.
  repeat (apply andb_prop in E; destruct E as [E ?]).
  repeat match goal with
         | Hz : (_ =? _)%Z = true |- _ => apply Z.eqb_eq in Hz
         end.
  subst. unfold selection_ok. simpl. lia.
Qed.

(** C2: for one angular channel no table is built (the magnetic loops run
    over [-1, 0, 1] while the magnetic axes have size 1).  For two and more
    channels the table is built, and with a coupling function that is 0
    outside the selection rules every entry read at an index inside the
    magnetic window that breaks a rule is 0; so is the entry at
    [(l1, 0, l2, 0, 0, 0)] unless [l1 = l2]. *)
Theorem cg_matrix_selection_rules (CG : Z -> Z -> Z -> Z -> Z -> Z -> C) :
  (forall l1 m1 l2 m2 l m,
     ~ selection_ok l1 m1 l2 m2 l m -> CG l1 m1 l2 m2 l m = C0) ->
  cg_matrix CG 1 = Raise IndexError
  /\ forall L, (2 <= L)%Z ->
     exists tbl,
       cg_matrix CG L = Ok tbl
       /\ shape tbl = [Z.to_nat L; Z.to_nat (2 * L - 1); Z.to_nat L;
                       Z.to_nat (2 * L - 1); Z.to_nat L; Z.to_nat (2 * L - 1)]
       /\ (forall l1 m1 l2 m2 l m,
             (0 <= l1 < L)%Z -> (0 <= l2 < L)%Z -> (0 <= l < L)%Z ->
             (Z.abs m1 <= L - 1)%Z -> (Z.abs m2 <= L - 1)%Z ->
             (Z.abs m <= L - 1)%Z ->
             ~ selection_ok l1 m1 l2 m2 l m ->
             getitem tbl [l1; m1; l2; m2; l; m] = Ok C0)
       /\ (forall l1 l2,
             (0 <= l1 < L)%Z -> (0 <= l2 < L)%Z -> l1 <> l2 ->
             getitem tbl [l1; 0; l2; 0; 0; 0]%Z = Ok C0).
Proof.
  intros Hsel. split; [apply cg_matrix_one_raises|].
  intros L HL. destruct (cg_matrix_filling CG L HL) as [tbl [Htbl Hfill]].
  exists tbl. split; [exact Htbl|]. split.
  - destruct Hfill as [Hsh _]. rewrite Hsh.
    replace (2 * (L - 1) + 1)%Z with (2 * L - 1)%Z by lia. reflexivity.
  - split.
    + intros l1 m1 l2 m2 l m Hl1 Hl2 Hl Hm1 Hm2 Hm Hbad.
      now apply (cg_filling_selection CG L HL Hsel).
    + intros l1 l2 Hl1 Hl2 Hne.
      apply (cg_filling_selection CG L HL Hsel); try assumption; try lia.
      unfold selection_ok. lia.
Qed.

Lemma cg_matrix_selection_rules_witness :
  cg_matrix CG_s 1 = Raise IndexError
  /\ exists tbl, cg_matrix CG_s 2 = Ok tbl
                 /\ getitem tbl [1; 0; 0; 0; 0; 0]%Z = Ok C0.
Proof.
  destruct (cg_matrix_selection_rules CG_s CG_s_selection) as [H1 H2].
  split; [exact H1|].
  destruct (H2 2%Z ltac:(lia)) as [tbl [Ht [_ [_ Hz]]]].
  exists tbl. split; [exact Ht|]. apply Hz; lia.
Defined.

(** * Properties of the spherical-harmonics utilities *)

Lemma range_snoc (lo hi : Z) :
  (lo <= hi)%Z -> range lo (hi + 1) = range lo hi ++ [hi].
Proof.
  intros H. unfold range.
  replace (Z.to_nat (hi + 1 - lo)) with (Z.to_nat (hi - lo) + 1)%nat by lia.
  rewrite seq_app, map_app. simpl. f_equal. f_equal. lia.
Qed.

Lemma factorial_Ok (n : Z) :
  (0 <= n <= 170)%Z -> factorial n = Ok (Z.of_nat (fact (Z.to_nat n))).
Proof.
  intros H. unfold factorial.
  replace (2 ^ 63 - 1 <? n)%Z with false
    by (symmetry; apply Z.ltb_ge;
        apply Z.le_trans with 170%Z; [lia | vm_compute; discriminate]).
  now replace (n <? 0)%Z with false by (symmetry; apply Z.ltb_ge; lia).
Qed.

Lemma factorial_negative (n : Z) : (n < 0)%Z -> factorial n = Raise ValueError.
Proof.
  intros H. unfold factorial.
  replace (2 ^ 63 - 1 <? n)%Z with false
    by (symmetry; apply Z.ltb_ge;
        apply Z.le_trans with 0%Z; [lia | vm_compute; discriminate]).
  now replace (n <? 0)%Z with true by (symmetry; apply Z.ltb_lt; lia).
Qed.

Lemma math_sqrt_Ok (x : R) : 0 <= x -> math_sqrt x = Ok (sqrt x).
Proof.
  intros H. unfold math_sqrt. destruct (Rlt_dec x 0); [lra | reflexivity].
Qed.

Lemma fact_IZR_pos (n : nat) : 0 < IZR (Z.of_nat (fact n)).
Proof. apply IZR_lt. pose proof (lt_O_fact n). lia. Qed.

(** *** Integers that have a float *)

Lemma Zfact_fact (n : nat) : Zfact n = Z.of_nat (fact n).
Proof.
  induction n as [|n IH]; [reflexivity|].
  cbn [Zfact]. rewrite IH. change (fact (S n)) with (S n * fact n)%nat.
  now rewrite Nat2Z.inj_mul.
Qed.

Lemma Zfact_pos (n : nat) : (0 < Zfact n)%Z.
Proof. rewrite Zfact_fact. pose proof (lt_O_fact n). lia. Qed.

Lemma Zfact_le (n k : nat) : (n <= k)%nat -> (Zfact n <= Zfact k)%Z.
Proof.
  induction 1 as [|k _ IH]; [lia|].
  cbn [Zfact]. pose proof (Zfact_pos k). nia.
Qed.

Lemma small_fits (z : Z) : (Z.abs z <= 170)%Z -> int_overflows z = false.
Proof.
  intros H. unfold int_overflows. apply Z.leb_gt.
  apply Z.le_lt_trans with 170%Z; [exact H | vm_compute; reflexivity].
Qed.

(** [170!] is the last factorial below the largest float. *)
Lemma fact_fits (n : nat) :
  (n <= 170)%nat -> int_overflows (Z.of_nat (fact n)) = false.
Proof.
  intros H. rewrite <- Zfact_fact. unfold int_overflows. apply Z.leb_gt.
  rewrite Z.abs_eq by (pose proof (Zfact_pos n); lia).
  apply Z.le_lt_trans with (Zfact 170);
    [now apply Zfact_le | vm_compute; reflexivity].
Qed.

Lemma fact_overflows (n : nat) :
  (171 <= n)%nat -> int_overflows (Z.of_nat (fact n)) = true.
Proof.
  intros H. rewrite <- Zfact_fact. unfold int_overflows. apply Z.leb_le.
  rewrite Z.abs_eq by (pose proof (Zfact_pos n); lia).
  apply Z.le_trans with (Zfact 171);
    [vm_compute; discriminate | now apply Zfact_le].
Qed.

(** The factorial and its conversion, as the source chains them. *)
Lemma factorial_float {B : Type} (n : Z) (K : R -> result B) :
  (a <- factorial n ;; fa <- float_of_int a ;; K fa)
  = if (n <? 0)%Z then Raise ValueError
    else if (170 <? n)%Z then Raise OverflowError
    else K (IZR (Z.of_nat (fact (Z.to_nat n)))).
Proof.
  destruct (Z.ltb_spec n 0) as [H0|H0].
  - now rewrite factorial_negative.
  - destruct (Z.ltb_spec 170 n) as [H1|H1].
    + unfold factorial.
      destruct (2 ^ 63 - 1 <? n)%Z; [reflexivity|].
      replace (n <? 0)%Z with false by (symmetry; apply Z.ltb_ge; lia).
      cbn [bind]. unfold float_of_int.
      now rewrite fact_overflows by lia.
    + rewrite factorial_Ok by lia. cbn [bind]. unfold float_of_int.
      now rewrite fact_fits by lia.
Qed.

(** The outcome of [SH_renormalization], case by case in the order in which
    the source evaluates. *)
Lemma SH_renormalization_cases (l m : Z) :
  SH_renormalization l m
  = if int_overflows l then Raise OverflowError
    else if (l - m <? 0)%Z then Raise ValueError
    else if (170 <? l - m)%Z then Raise OverflowError
    else if (l + m <? 0)%Z then Raise ValueError
    else if (170 <? l + m)%Z then Raise OverflowError
    else math_sqrt ((2 * IZR l + 1)
                    * IZR (Z.of_nat (fact (Z.to_nat (l - m))))
                    / (4 * PI * IZR (Z.of_nat (fact (Z.to_nat (l + m)))))).
Proof.
  unfold SH_renormalization, float_of_int at 1.
  destruct (int_overflows l); [reflexivity|]. cbn [bind].
  rewrite factorial_float.
  destruct (l - m <? 0)%Z; [reflexivity|].
  destruct (170 <? l - m)%Z; [reflexivity|].
  now rewrite factorial_float.
Qed.

Lemma SH_renormalization_defined (l m : Z) :
  (Z.abs m <= l)%Z -> (l + Z.abs m <= 170)%Z ->
  exists k,
    SH_renormalization l m = Ok k /\ 0 < k
    /\ k * k = (2 * IZR l + 1) * IZR (Z.of_nat (fact (Z.to_nat (l - m))))
               / (4 * PI * IZR (Z.of_nat (fact (Z.to_nat (l + m))))).
Proof.
  intros H Hs. rewrite SH_renormalization_cases.
  rewrite small_fits by lia.
  replace (l - m <? 0)%Z with false by (symmetry; apply Z.ltb_ge; lia).
  replace (170 <? l - m)%Z with false by (symmetry; apply Z.ltb_ge; lia).
  replace (l + m <? 0)%Z with false by (symmetry; apply Z.ltb_ge; lia).
  replace (170 <? l + m)%Z with false by (symmetry; apply Z.ltb_ge; lia).
  set (a := IZR (Z.of_nat (fact (Z.to_nat (l - m))))).
  set (b := IZR (Z.of_nat (fact (Z.to_nat (l + m))))).
  assert (Ha : 0 < a) by apply fact_IZR_pos.
  assert (Hb : 0 < b) by apply fact_IZR_pos.
  assert (Hl : 0 <= IZR l) by (apply IZR_le; lia).
  assert (Hpos : 0 < (2 * IZR l + 1) * a / (4 * PI * b)).
  { apply Rdiv_lt_0_compat; [nra|]. pose proof PI_RGT_0. nra. }
  rewrite math_sqrt_Ok by lra. eexists. split; [reflexivity|]. split.
  - now apply sqrt_lt_R0.
  - apply sqrt_sqrt. lra.
Qed.

Lemma SH_renormalization_overflow (l m : Z) :
  (Z.abs m <= l)%Z -> (170 < l + Z.abs m)%Z ->
  SH_renormalization l m = Raise OverflowError.
Proof.
  intros H Hs. rewrite SH_renormalization_cases.
  destruct (int_overflows l); [reflexivity|].
  replace (l - m <? 0)%Z with false by (symmetry; apply Z.ltb_ge; lia).
  destruct (Z.ltb_spec 170 (l - m)) as [H1|H1]; [reflexivity|].
  replace (l + m <? 0)%Z with false by (symmetry; apply Z.ltb_ge; lia).
  now replace (170 <? l + m)%Z with true by (symmetry; apply Z.ltb_lt; lia).
Qed.

Lemma SH_renormalization_undefined (l m : Z) :
  (l < Z.abs m)%Z ->
  SH_renormalization l m = Raise ValueError
  \/ SH_renormalization l m = Raise OverflowError.
Proof.
  intros H. rewrite SH_renormalization_cases.
  destruct (int_overflows l); [now right|].
  destruct (Z.ltb_spec (l - m) 0) as [H0|H0]; [now left|].
  destruct (Z.ltb_spec 170 (l - m)) as [H1|H1]; [now right|].
  replace (l + m <? 0)%Z with true by (symmetry; apply Z.ltb_lt; lia).
  now left.
Qed.

(** With a second argument that is not negative, as [SH] passes it, the
    order of the tests leaves one exception. *)
Lemma SH_renormalization_below (l m : Z) :
  (0 <= m)%Z -> (l < m)%Z ->
  SH_renormalization l m
  = Raise (if int_overflows l then OverflowError else ValueError).
Proof.
  intros Hm H. rewrite SH_renormalization_cases.
  destruct (int_overflows l); [reflexivity|].
  now replace (l - m <? 0)%Z with true by (symmetry; apply Z.ltb_lt; lia).
Qed.

(** The normalisation constant is returned exactly for [|m| <= l] and
    [l + |m| <= 170]: then it is positive, and its square is
    [(2l + 1) (l - m)! / (4 pi (l + m)!)] (stated up to [l + |m| = 169],
    where no intermediate float is infinite).  For [|m| <= l] beyond that
    range a factorial has no float and the product raises [OverflowError];
    for [|m| > l] the call raises, with [ValueError] for the factorial of
    a negative number when the arguments are small. *)
Theorem SH_renormalization_domain (l m : Z) :
  ((Z.abs m <= l)%Z -> (l + Z.abs m <= 170)%Z ->
   exists k,
     SH_renormalization l m = Ok k /\ 0 < k
     /\ ((l + Z.abs m <= 169)%Z ->
         k * k = (2 * IZR l + 1) * IZR (Z.of_nat (fact (Z.to_nat (l - m))))
                 / (4 * PI * IZR (Z.of_nat (fact (Z.to_nat (l + m)))))))
  /\ ((Z.abs m <= l)%Z -> (170 < l + Z.abs m)%Z ->
      SH_renormalization l m = Raise OverflowError)
  /\ ((l < Z.abs m)%Z ->
      SH_renormalization l m = Raise ValueError
      \/ SH_renormalization l m = Raise OverflowError)
  /\ ((l < Z.abs m)%Z -> (Z.abs l + Z.abs m <= 170)%Z ->
      SH_renormalization l m = Raise ValueError).
Proof.
  split; [|split; [|split]].
  - intros H Hs.
    destruct (SH_renormalization_defined l m H Hs) as [k [Hk [Hp Hv]]].
    exists k. auto.
  - apply SH_renormalization_overflow.
  - apply SH_renormalization_undefined.
  - intros H Hs. rewrite SH_renormalization_cases.
    rewrite small_fits by lia.
    destruct (Z.ltb_spec (l - m) 0) as [H0|H0]; [reflexivity|].
    replace (170 <? l - m)%Z with false by (symmetry; apply Z.ltb_ge; lia).
    now replace (l + m <? 0)%Z with true by (symmetry; apply Z.ltb_lt; lia).
Qed.

Lemma SH_renormalization_domain_witness :
  (exists k, SH_renormalization 2 (-1) = Ok k /\ 0 < k)
  /\ SH_renormalization 171 0 = Raise OverflowError
  /\ SH_renormalization 1 2 = Raise ValueError.
Proof.
  split; [|split].
  - destruct (proj1 (SH_renormalization_domain 2 (-1))
                ltac:(simpl; lia) ltac:(simpl; lia)) as [k [H [Hk _]]].
    exists k. split; assumption.
  - apply (proj1 (proj2 (SH_renormalization_domain 171 0))); simpl; lia.
  - apply (proj2 (proj2 (proj2 (SH_renormalization_domain 1 2))));
      simpl; lia.
Defined.

(** A spherical harmonic is returned exactly for [|m| <= l] and
    [l + |m| <= 170], whatever the angles are.  For [|m| <= l] beyond that
    range the normalisation raises [OverflowError]; for [|m| > l] it
    raises [ValueError] for the factorial of a negative number (or
    [OverflowError] from [2.0 * l] when [l] itself has no float). *)
Theorem SH_domain (l m : Z) (theta phi : R) :
  ((Z.abs m <= l)%Z -> (l + Z.abs m <= 170)%Z ->
   exists y, SH l m theta phi = Ok y)
  /\ ((Z.abs m <= l)%Z -> (170 < l + Z.abs m)%Z ->
      SH l m theta phi = Raise OverflowError)
  /\ ((l < Z.abs m)%Z ->
      SH l m theta phi
      = Raise (if int_overflows l then OverflowError else ValueError)).
Proof.
  assert (H2 : math_sqrt 2 = Ok (sqrt 2)) by (apply math_sqrt_Ok; lra).
  unfold SH. split; [|split].
  - intros H Hs. destruct (Z.eqb_spec m 0) as [E|E].
    + destruct (SH_renormalization_defined l m H Hs) as [k [Hk _]].
      rewrite Hk. eexists. reflexivity.
    + rewrite H2. cbn [bind]. destruct (Z.ltb_spec 0 m) as [Hm|Hm].
      * destruct (SH_renormalization_defined l m H Hs) as [k [Hk _]].
        rewrite Hk. cbn [bind]. unfold float_of_int.
        rewrite small_fits by lia. eexists. reflexivity.
      * destruct (SH_renormalization_defined l (- m) ltac:(lia) ltac:(lia))
          as [k [Hk _]].
        rewrite Hk. cbn [bind]. unfold float_of_int.
        rewrite small_fits by lia. eexists. reflexivity.
  - intros H Hs. destruct (Z.eqb_spec m 0) as [E|E].
    + now rewrite (SH_renormalization_overflow l m H Hs).
    + rewrite H2. cbn [bind]. destruct (Z.ltb_spec 0 m) as [Hm|Hm].
      * now rewrite (SH_renormalization_overflow l m H Hs).
      * now rewrite (SH_renormalization_overflow l (- m)
                       ltac:(lia) ltac:(lia)).
  - intros H. destruct (Z.eqb_spec m 0) as [E|E].
    + now rewrite (SH_renormalization_below l m ltac:(lia) ltac:(lia)).
    + rewrite H2. cbn [bind]. destruct (Z.ltb_spec 0 m) as [Hm|Hm].
      * now rewrite (SH_renormalization_below l m ltac:(lia) ltac:(lia)).
      * now rewrite (SH_renormalization_below l (- m)
                       ltac:(lia) ltac:(lia)).
Qed.

Lemma SH_domain_witness :
  (exists y, SH 2 (-2) 1 1 = Ok y)
  /\ SH 171 0 1 1 = Raise OverflowError
  /\ SH 0 1 1 1 = Raise ValueError.
Proof.
  split; [|split].
  - apply (proj1 (SH_domain 2 (-2) 1 1)); simpl; lia.
  - apply (proj1 (proj2 (SH_domain 171 0 1 1))); simpl; lia.
  - apply (proj2 (proj2 (SH_domain 0 1 1 1))). simpl. lia.
Defined.

(** ** The associated Legendre functions *)

Lemma legendre_fold_pll (m : Z) (x : R) (xs : list Z) (p p' a b : R) :
  xs <> [] ->
  fold_left (legendre_step m x) xs (p, a, b)
  = fold_left (legendre_step m x) xs (p', a, b).
Proof. destruct xs as [|y ys]; [congruence | reflexivity]. Qed.

(** The argument [pll] is what is returned below the diagonal ([l < m]) and
    plays no part from the diagonal on ([m <= l]). *)
Theorem associated_legendre_pll (l m : Z) (x pmm pll : R) :
  ((0 <= m)%Z -> (l < m)%Z ->
   associated_legendre_polynomial l m x pmm pll = pll)
  /\ ((m <= l)%Z ->
      forall pll',
        associated_legendre_polynomial l m x pmm pll'
        = associated_legendre_polynomial l m x pmm pll).
Proof.
  unfold associated_legendre_polynomial. split.
  - intros Hm Hl.
    replace (l =? m)%Z with false by (symmetry; apply Z.eqb_neq; lia).
    replace (l =? m + 1)%Z with false by (symmetry; apply Z.eqb_neq; lia).
    rewrite (range_nil (m + 2) (l + 1)) by lia. reflexivity.
  - intros Hl pll'.
    destruct (Z.eqb_spec l m) as [E|E]; [reflexivity|].
    destruct (Z.eqb_spec l (m + 1)) as [E1|E1]; [reflexivity|].
    rewrite (legendre_fold_pll m x _ pll' pll); [reflexivity|].
    rewrite range_cons by lia. discriminate.
Qed.

Lemma associated_legendre_pll_witness :
  associated_legendre_polynomial 1 3 (1 / 2) 1 7 = 7
  /\ associated_legendre_polynomial 3 1 (1 / 2) 1 7
     = associated_legendre_polynomial 3 1 (1 / 2) 1 0.
Proof.
  split.
  - apply (proj1 (associated_legendre_pll 1 3 (1 / 2) 1 7)); lia.
  - apply (proj2 (associated_legendre_pll 3 1 (1 / 2) 1 0)). lia.
Defined.

Lemma diagonal_loop_closed (s pmm : R) (m : Z) :
  (0 <= m)%Z ->
  diagonal_loop m s pmm
  = (pmm * (-1) ^ Z.to_nat m * INR (odd_factorial (Z.to_nat m))
     * s ^ Z.to_nat m,
     2 * INR (Z.to_nat m) + 1).
Proof.
  intros Hm. unfold diagonal_loop.
  replace (Z.to_nat m) with (length (range 1 (m + 1)))
    by (rewrite range_length; lia).
  induction (range 1 (m + 1)) as [|a xs IH] using rev_ind.
  - simpl. f_equal; lra.
  - rewrite fold_left_app, IH. cbn [fold_left fst snd].
    rewrite length_app. cbn [length]. rewrite Nat.add_1_r.
    cbn [odd_factorial pow]. rewrite mult_INR, plus_INR, mult_INR, !S_INR.
    simpl (INR 2). simpl (INR 1). simpl (INR 0). f_equal; ring.
Qed.

(** On the diagonal the result is
    [pmm * (-1)^m * (2m - 1)!! * sqrt((1 - x)(1 + x))^m]. *)
Theorem associated_legendre_diagonal (k : nat) (x pmm pll : R) :
  -1 <= x <= 1 ->
  associated_legendre_polynomial (Z.of_nat k) (Z.of_nat k) x pmm pll
  = pmm * (-1) ^ k * INR (odd_factorial k) * sqrt ((1 - x) * (1 + x)) ^ k.
Proof.
  intros _. unfold associated_legendre_polynomial.
  rewrite Z.eqb_refl. destruct (Z.ltb_spec 0 (Z.of_nat k)) as [H|H].
  - rewrite diagonal_loop_closed by lia. cbn [fst]. now rewrite Nat2Z.id.
  - assert (k = 0%nat) by lia. subst k. simpl. ring.
Qed.

Lemma associated_legendre_diagonal_witness :
  associated_legendre_polynomial 2 2 0 1 0
  = 1 * (-1) ^ 2 * INR (odd_factorial 2) * sqrt ((1 - 0) * (1 + 0)) ^ 2.
Proof. apply (associated_legendre_diagonal 2 0 1 0). lra. Defined.

Lemma legendre_unfold_diagonal (m : Z) (x pmm pll : R) :
  associated_legendre_polynomial m m x pmm pll = legendre_diagonal m x pmm.
Proof.
  unfold associated_legendre_polynomial, legendre_diagonal.
  now rewrite Z.eqb_refl.
Qed.

Lemma legendre_unfold_next (m : Z) (x pmm pll : R) :
  associated_legendre_polynomial (m + 1) m x pmm pll
  = x * (2 * IZR m + 1) * legendre_diagonal m x pmm.
Proof.
  unfold associated_legendre_polynomial, legendre_diagonal.
  replace (m + 1 =? m)%Z with false by (symmetry; apply Z.eqb_neq; lia).
  now rewrite Z.eqb_refl.
Qed.

Lemma legendre_unfold_loop (l m : Z) (x pmm pll : R) :
  (m + 2 <= l)%Z ->
  associated_legendre_polynomial l m x pmm pll
  = fst (fst (legendre_state l m x pmm pll)).
Proof.
  intros H. unfold associated_legendre_polynomial, legendre_state.
  replace (l =? m)%Z with false by (symmetry; apply Z.eqb_neq; lia).
  replace (l =? m + 1)%Z with false by (symmetry; apply Z.eqb_neq; lia).
  fold (legendre_diagonal m x pmm).
  destruct (fold_left _ _ _) as [[a b] c]. reflexivity.
Qed.

Lemma legendre_state_step (l m : Z) (x pmm pll : R) :
  (m + 1 <= l)%Z ->
  legendre_state (l + 1) m x pmm pll
  = legendre_step m x (legendre_state l m x pmm pll) (l + 1).
Proof.
  intros H. unfold legendre_state.
  rewrite (range_snoc (m + 2) (l + 1)) by lia. now rewrite fold_left_app.
Qed.

(** From [l = m + 1] on, the loop holds the values for [l - 1] and [l]. *)
Lemma legendre_state_values (m : Z) (x pmm pll : R) (j : nat) :
  let l := (m + 1 + Z.of_nat j)%Z in
  snd (legendre_state l m x pmm pll)
  = associated_legendre_polynomial l m x pmm pll
  /\ snd (fst (legendre_state l m x pmm pll))
     = associated_legendre_polynomial (l - 1) m x pmm pll.
Proof.
  induction j as [|j [IH1 IH2]]; cbn zeta.
  - replace (m + 1 + Z.of_nat 0)%Z with (m + 1)%Z by lia.
    replace (m + 1 - 1)%Z with m by lia.
    rewrite legendre_unfold_next, legendre_unfold_diagonal.
    unfold legendre_state. rewrite range_nil by lia. split; reflexivity.
  - cbn zeta in IH1, IH2.
    replace (m + 1 + Z.of_nat (S j))%Z with (m + 1 + Z.of_nat j + 1)%Z by lia.
    rewrite (legendre_unfold_loop (m + 1 + Z.of_nat j + 1)) by lia.
    rewrite legendre_state_step by lia.
    replace (m + 1 + Z.of_nat j + 1 - 1)%Z with (m + 1 + Z.of_nat j)%Z by lia.
    rewrite <- IH1.
    destruct (legendre_state (m + 1 + Z.of_nat j) m x pmm pll) as [[a b] c].
    split; reflexivity.
Qed.

Lemma legendre_recurrence_eq (l m : Z) (x pmm pll : R) :
  (m + 2 <= l)%Z ->
  associated_legendre_polynomial l m x pmm pll
  = ((2 * IZR l - 1) * x * associated_legendre_polynomial (l - 1) m x pmm pll
     - (IZR l + IZR m - 1)
       * associated_legendre_polynomial (l - 2) m x pmm pll)
    / IZR (l - m).
Proof.
  intros H.
  destruct (legendre_state_values m x pmm pll (Z.to_nat (l - 1 - (m + 1))))
    as [H1 H2].
  cbn zeta in H1, H2.
  replace (m + 1 + Z.of_nat (Z.to_nat (l - 1 - (m + 1))))%Z with (l - 1)%Z
    in H1, H2 by lia.
  replace (l - 1 - 1)%Z with (l - 2)%Z in H2 by lia.
  rewrite (legendre_unfold_loop l) by lia.
  replace l with (l - 1 + 1)%Z at 1 by lia.
  rewrite legendre_state_step by lia.
  rewrite <- H1, <- H2.
  destruct (legendre_state (l - 1) m x pmm pll) as [[a b] c].
  cbn [legendre_step fst snd].
  replace (l - 1 + 1)%Z with l by lia. reflexivity.
Qed.

(** Above the diagonal, for [-1 <= x <= 1], the results satisfy the
    three-term recurrence
    [(l - m) P(l) = (2l - 1) x P(l - 1) - (l + m - 1) P(l - 2)]. *)
Theorem associated_legendre_recurrence (l m : Z) (x pmm pll : R) :
  -1 <= x <= 1 -> (m + 2 <= l)%Z ->
  IZR (l - m) * associated_legendre_polynomial l m x pmm pll
  = (2 * IZR l - 1) * x * associated_legendre_polynomial (l - 1) m x pmm pll
    - (IZR l + IZR m - 1)
      * associated_legendre_polynomial (l - 2) m x pmm pll.
Proof.
  intros _ H. rewrite (legendre_recurrence_eq l m x pmm pll H).
  field. apply not_0_IZR. lia.
Qed.

Lemma associated_legendre_recurrence_witness :
  IZR (3 - 1) * associated_legendre_polynomial 3 1 (1 / 2) 1 0
  = (2 * IZR 3 - 1) * (1 / 2)
    * associated_legendre_polynomial (3 - 1) 1 (1 / 2) 1 0
    - (IZR 3 + IZR 1 - 1)
      * associated_legendre_polynomial (3 - 2) 1 (1 / 2) 1 0.
Proof.
  apply (associated_legendre_recurrence 3 1 (1 / 2) 1 0); [lra | lia].
Defined.

Lemma legendre_diagonal_even (m : Z) (x pmm : R) :
  legendre_diagonal m (- x) pmm = legendre_diagonal m x pmm.
Proof.
  unfold legendre_diagonal.
  replace ((1 - - x) * (1 + - x)) with ((1 - x) * (1 + x)) by ring.
  reflexivity.
Qed.

Lemma legendre_parity_pair (m : Z) (x pmm pll : R) (j : nat) :
  (associated_legendre_polynomial (m + Z.of_nat j) m (- x) pmm pll
   = (-1) ^ j * associated_legendre_polynomial (m + Z.of_nat j) m x pmm pll)
  /\ (associated_legendre_polynomial (m + Z.of_nat (S j)) m (- x) pmm pll
      = (-1) ^ S j
        * associated_legendre_polynomial (m + Z.of_nat (S j)) m x pmm pll).
Proof.
  induction j as [|j [IH1 IH2]].
  - replace (m + Z.of_nat 0)%Z with m by lia.
    replace (m + Z.of_nat 1)%Z with (m + 1)%Z by lia.
    rewrite !legendre_unfold_diagonal, !legendre_unfold_next.
    rewrite legendre_diagonal_even. split; simpl; ring.
  - split; [exact IH2|].
    rewrite (legendre_recurrence_eq (m + Z.of_nat (S (S j))) m (- x)) by lia.
    rewrite (legendre_recurrence_eq (m + Z.of_nat (S (S j))) m x) by lia.
    replace (m + Z.of_nat (S (S j)) - 1)%Z with (m + Z.of_nat (S j))%Z by lia.
    replace (m + Z.of_nat (S (S j)) - 2)%Z with (m + Z.of_nat j)%Z by lia.
    rewrite IH1, IH2. simpl pow. field. apply not_0_IZR. lia.
Qed.

(** From the diagonal on the result is even or odd in [x] as [l - m] is:
    [P(l, m, -x) = (-1)^(l - m) P(l, m, x)]. *)
Theorem associated_legendre_parity (m : Z) (j : nat) (x pmm pll : R) :
  -1 <= x <= 1 ->
  associated_legendre_polynomial (m + Z.of_nat j) m (- x) pmm pll
  = (-1) ^ j * associated_legendre_polynomial (m + Z.of_nat j) m x pmm pll.
Proof. intros _. apply (proj1 (legendre_parity_pair m x pmm pll j)). Qed.

Lemma associated_legendre_parity_witness :
  associated_legendre_polynomial (1 + Z.of_nat 3) 1 (- (1 / 2)) 1 0
  = (-1) ^ 3 * associated_legendre_polynomial (1 + Z.of_nat 3) 1 (1 / 2) 1 0.
Proof. apply (associated_legendre_parity 1 3 (1 / 2) 1 0). lra. Defined.

(** For [0 < m <= l] with [l + m <= 170], where both are returned, the
    harmonics of order [m] and [-m] are the cosine and the sine partner of
    one function: the sum of their squares is [2 (k P)^2], whatever the
    azimuth [phi] is. *)
Theorem SH_pair_azimuth (l m : Z) (theta phi : R) :
  (0 < m <= l)%Z -> (l + m <= 170)%Z ->
  exists a b k,
    SH l m theta phi = Ok a /\ SH l (- m) theta phi = Ok b
    /\ SH_renormalization l m = Ok k
    /\ a * a + b * b
       = 2 * (k * associated_legendre_polynomial l m (cos theta) 1 0) ^ 2.
Proof.
  intros H Hlm.
  destruct (SH_renormalization_defined l m ltac:(lia) ltac:(lia))
    as [k [Hk _]].
  assert (H2 : math_sqrt 2 = Ok (sqrt 2)) by (apply math_sqrt_Ok; lra).
  assert (Hm : float_of_int m = Ok (IZR m))
    by (unfold float_of_int; now rewrite small_fits by lia).
  unfold SH.
  replace (m =? 0)%Z with false by (symmetry; apply Z.eqb_neq; lia).
  replace (- m =? 0)%Z with false by (symmetry; apply Z.eqb_neq; lia).
  replace (0 <? m)%Z with true by (symmetry; apply Z.ltb_lt; lia).
  replace (0 <? - m)%Z with false by (symmetry; apply Z.ltb_ge; lia).
  rewrite Z.opp_involutive, H2, Hk. cbn [bind]. rewrite Hm. cbn [bind].
  do 3 eexists. split; [reflexivity|]. split; [reflexivity|].
  split; [reflexivity|].
  set (P := associated_legendre_polynomial l m (cos theta) 1 0).
  set (t := IZR m * phi).
  assert (Hs : sqrt 2 * sqrt 2 = 2) by (apply sqrt_sqrt; lra).
  assert (Ht : sin t * sin t + cos t * cos t = 1).
  { pose proof (sin2_cos2 t) as E. unfold Rsqr in E. exact E. }
  replace (sqrt 2 * k * cos t * P * (sqrt 2 * k * cos t * P)
           + sqrt 2 * k * sin t * P * (sqrt 2 * k * sin t * P))
    with ((sqrt 2 * sqrt 2) * (sin t * sin t + cos t * cos t) * (k * P) ^ 2)
    by ring.
  rewrite Hs, Ht. ring.
Qed.

Lemma SH_pair_azimuth_witness :
  exists a b k,
    SH 2 1 1 3 = Ok a /\ SH 2 (- (1)) 1 3 = Ok b
    /\ SH_renormalization 2 1 = Ok k
    /\ a * a + b * b
       = 2 * (k * associated_legendre_polynomial 2 1 (cos 1) 1 0) ^ 2.
Proof. apply (SH_pair_azimuth 2 1 1 3); lia. Defined.

(** ** Lists without repetition *)

Lemma NoDup_range (lo hi : Z) : NoDup (range lo hi).
Proof.
  unfold range. apply NoDup_map_NoDup_ForallPairs; [|apply seq_NoDup].
  intros a b _ _ E. lia.
Qed.

Lemma NoDup_map_inj {A B : Type} (f : A -> B) (xs : list A) :
  (forall a b, f a = f b -> a = b) -> NoDup xs -> NoDup (map f xs).
Proof.
  intros Hf H. apply NoDup_map_NoDup_ForallPairs; [|exact H].
  intros a b _ _ E. now apply Hf.
Qed.

(** A [flat_map] over a range has no repetition when each piece has none
    and an element tells which piece it is from. *)
Lemma NoDup_flat_map_range {B : Type} (f : Z -> list B) (lo hi : Z) :
  (forall a, NoDup (f a)) ->
  (forall a b x y, In x (f a) -> In y (f b) -> x = y -> a = b) ->
  NoDup (flat_map f (range lo hi)).
Proof.
  intros Hf Hsep. pose proof (NoDup_range lo hi) as Hnd.
  induction (range lo hi) as [|a xs IH]; [constructor|].
  inversion Hnd as [|a' xs' Ha Hxs]. subst. cbn [flat_map].
  apply NoDup_app; [apply Hf | now apply IH |].
  intros x Hx Hin. apply in_flat_map in Hin. destruct Hin as [b [Hb Hy]].
  apply Ha. now rewrite (Hsep a b x x Hx Hy eq_refl).
Qed.

(** * Further properties of the symmetrizers *)

(** ** The quadruples of the bispectrum loop *)

(** The loops of the bispectrum reducer visit exactly the quadruples
    [(n, l1, l2, l)] with [n < N], [l1, l2, l < L] and
    [|l1 - l2| <= l <= l1 + l2], each one once. *)
Theorem bispectrum_loop_triangle (c cgs : ndarray C) (start : list Z)
  (L N : Z) :
  bispectrum_loop c cgs start L N
  = for_each (coupling_triples L N) (bispectrum_body c cgs start) []
  /\ (forall n l1 l2 l,
        In (n, l1, l2, l) (coupling_triples L N)
        <-> (0 <= n < N /\ 0 <= l1 < L /\ 0 <= l2 < L /\ 0 <= l < L
             /\ Z.abs (l1 - l2) <= l <= l1 + l2)%Z)
  /\ NoDup (coupling_triples L N).
Proof.
  split; [apply bispectrum_loop_flat|]. split.
  - intros n l1 l2 l. unfold coupling_triples.
    rewrite in_flat_map. split.
    + intros [n' [Hn H]]. apply in_flat_map in H. destruct H as [k1 [H1 H]].
      apply in_flat_map in H. destruct H as [k2 [H2 H]].
      apply in_map_iff in H. destruct H as [k [E Hk]].
      inversion E. subst. apply range_In in Hn, H1, H2, Hk. lia.
    + intros H. exists n. split; [apply range_In; lia|].
      apply in_flat_map. exists l1. split; [apply range_In; lia|].
      apply in_flat_map. exists l2. split; [apply range_In; lia|].
      apply in_map_iff. exists l. split; [reflexivity|].
      apply range_In. lia.
  - unfold coupling_triples.
    apply NoDup_flat_map_range; [|intros a b x y Ha Hb; apply in_flat_map in Ha;
      apply in_flat_map in Hb; destruct Ha as [u1 [_ Ha]];
      destruct Hb as [v1 [_ Hb]]; apply in_flat_map in Ha;
      apply in_flat_map in Hb; destruct Ha as [u2 [_ Ha]];
      destruct Hb as [v2 [_ Hb]]; apply in_map_iff in Ha;
      apply in_map_iff in Hb; destruct Ha as [u [Ea _]];
      destruct Hb as [v [Eb _]]; congruence].
    intros n.
    apply NoDup_flat_map_range; [|intros a b x y Ha Hb; apply in_flat_map in Ha;
      apply in_flat_map in Hb; destruct Ha as [u2 [_ Ha]];
      destruct Hb as [v2 [_ Hb]]; apply in_map_iff in Ha;
      apply in_map_iff in Hb; destruct Ha as [u [Ea _]];
      destruct Hb as [v [Eb _]]; congruence].
    intros l1.
    apply NoDup_flat_map_range; [|intros a b x y Ha Hb;
      apply in_map_iff in Ha; apply in_map_iff in Hb;
      destruct Ha as [u [Ea _]]; destruct Hb as [v [Eb _]]; congruence].
    intros l2. apply NoDup_map_inj; [|apply NoDup_range].
    intros a b E. congruence.
Qed.

(** ** Block offsets *)

Lemma start_fold (hi : Z) :
  forall lo acc idx,
  fold_left (fun (st : list Z * Z) l =>
               (fst st ++ [snd st], (snd st + (2 * l + 1))%Z))
            (range lo hi) (acc, idx)
  = (acc ++ map (fun l => (idx + (l * l - lo * lo))%Z) (range lo hi),
     (idx + Zsum (map (fun l => (2 * l + 1)%Z) (range lo hi)))%Z).
Proof.
  apply (range_ind
           (fun lo xs => forall acc idx,
              fold_left (fun (st : list Z * Z) l =>
                           (fst st ++ [snd st], (snd st + (2 * l + 1))%Z))
                        xs (acc, idx)
              = (acc ++ map (fun l => (idx + (l * l - lo * lo))%Z) xs,
                 (idx + Zsum (map (fun l => (2 * l + 1)%Z) xs))%Z))).
  - intros lo _ acc idx. simpl. rewrite app_nil_r. f_equal. lia.
  - intros lo Hlt IH acc idx. cbn [fold_left map fst snd]. rewrite IH.
    rewrite <- app_assoc. unfold Zsum. cbn [fold_right app]. f_equal.
    + f_equal. f_equal; [lia|]. apply map_ext. intros l. lia.
    + lia.
Qed.

(** The table [start] of the bispectrum reducer has one offset per angular
    channel and the offset of channel [l] is [l * l]: the blocks it reads
    are the blocks of the Casimir reducer within one radial channel. *)
Theorem start_table_offsets (n_l : Z) :
  length (start_table n_l) = Z.to_nat n_l
  /\ forall l, (0 <= l < n_l)%Z -> start_at (start_table n_l) l = (l * l)%Z.
Proof.
  unfold start_table. rewrite (start_fold n_l 0 [] 0). cbn [fst app]. split.
  - rewrite length_map, range_length. f_equal. lia.
  - intros l Hl. unfold start_at, range.
    rewrite map_map.
    set (f := fun x => (0 + ((0 + Z.of_nat x) * (0 + Z.of_nat x) - 0 * 0))%Z).
    rewrite (nth_indep _ 0%Z (f 0%nat))
      by (rewrite length_map, length_seq; lia).
    rewrite (map_nth f). unfold f.
    rewrite seq_nth by lia. lia.
Qed.

Lemma start_table_offsets_witness :
  start_at (start_table 3) 2 = (2 * 2)%Z.
Proof. apply (proj2 (start_table_offsets 3)). lia. Defined.

(** ** Construction *)

Lemma factory_attrs (CG : Z -> Z -> Z -> Z -> Z -> Z -> C)
  (ins : instructions) (self : symmetrizer) :
  symmetrizer_factory CG ins = Ok self -> _attrs self = ins.
Proof.
  unfold symmetrizer_factory. destruct (symmetrizer_type ins) as [name|];
    [|discriminate].
  intros H. apply bind_Ok in H. destruct H as [cls [_ H]].
  destruct cls; cbn [construct] in H.
  - inversion H. reflexivity.
  - unfold BispectrumSymmetrizer_init in H.
    apply bind_Ok in H. destruct H as [b [_ H]].
    apply bind_Ok in H. destruct H as [cgs [_ H]].
    inversion H. reflexivity.
Qed.

(** An object built by the factory gives back from [get_params] the
    instructions it was built from, so that the factory rebuilds the same
    object from them. *)
Theorem get_params_round_trip (CG : Z -> Z -> Z -> Z -> Z -> Z -> C)
  (ins : instructions) (self : symmetrizer) :
  symmetrizer_factory CG ins = Ok self ->
  dict_get (get_params self) "symmetrize_instructions" = Ok ins
  /\ forall ins', dict_get (get_params self) "symmetrize_instructions"
                  = Ok ins' ->
                  symmetrizer_factory CG ins' = Ok self.
Proof.
  intros H. pose proof (factory_attrs CG ins self H) as E.
  unfold get_params. rewrite dict_get_head, E.
  split; [reflexivity|]. intros ins' H'. inversion H'. subst ins'. exact H.
Qed.

Lemma get_params_round_trip_witness :
  dict_get (get_params (mk_symmetrizer CasimirSymmetrizer
                          (instructions_H "Casimir") None))
           "symmetrize_instructions"
  = Ok (instructions_H "Casimir").
Proof.
  apply (get_params_round_trip CG_s (instructions_H "Casimir")
           (mk_symmetrizer CasimirSymmetrizer (instructions_H "Casimir") None)).
  reflexivity.
Defined.

(** Without the entry ['basis'] a Casimir symmetrizer is still built, and
    every call of [get_symmetrized] on it raises [KeyError]; a bispectrum
    symmetrizer is not built at all. *)
Theorem missing_basis (CG : Z -> Z -> Z -> Z -> Z -> Z -> C) (name : string) :
  (lower name = "casimir"%string ->
   exists self,
     symmetrizer_factory CG (mk_instructions (Some name) None) = Ok self
     /\ forall X, get_symmetrized CG self X = Raise (KeyError "basis"))
  /\ (lower name = "bispectrum"%string ->
      symmetrizer_factory CG (mk_instructions (Some name) None)
      = Raise (KeyError "basis")).
Proof.
  unfold symmetrizer_factory. cbn [symmetrizer_type]. split; intros H.
  - rewrite H. eexists. split; [reflexivity|]. intros X. reflexivity.
  - rewrite H. reflexivity.
Qed.

Lemma missing_basis_witness :
  (exists self,
     symmetrizer_factory CG_s (mk_instructions (Some "CASIMIR"%string) None)
     = Ok self
     /\ forall X, get_symmetrized CG_s self X = Raise (KeyError "basis"))
  /\ symmetrizer_factory CG_s (mk_instructions (Some "Bispectrum"%string) None)
     = Raise (KeyError "basis").
Proof.
  split.
  - apply (proj1 (missing_basis CG_s "CASIMIR")). reflexivity.
  - apply (proj2 (missing_basis CG_s "Bispectrum")). reflexivity.
Defined.

Lemma n_l_max_fold (basis : dict basis_entry) :
  forall a,
  (a <= fold_left (fun acc spec => Z.max acc (basis_l (snd spec))) basis a)%Z
  /\ (forall spec, In spec basis ->
        basis_l (snd spec)
        <= fold_left (fun acc spec => Z.max acc (basis_l (snd spec))) basis a)%Z
  /\ (forall c, (a <= c)%Z ->
        Forall (fun spec => (basis_l (snd spec) <= c)%Z) basis ->
        (fold_left (fun acc spec => Z.max acc (basis_l (snd spec))) basis a
         <= c)%Z).
Proof.
  induction basis as [|s basis IH]; intros a; cbn [fold_left].
  - split; [lia|]. split; [intros spec []|]. intros c Hc _. exact Hc.
  - destruct (IH (Z.max a (basis_l (snd s)))) as [H1 [H2 H3]].
    split; [lia|]. split.
    + intros spec [E|Hin]; [subst; lia | now apply H2].
    + intros c Hc HF. inversion HF. subst. apply H3; [lia | assumption].
Qed.

(** A bispectrum symmetrizer is built exactly when the basis is there and
    some species has at least two angular channels: with none above 0
    [np.zeros] refuses the table, with none above 1 the table cannot be
    filled. *)
Theorem BispectrumSymmetrizer_init_cases
  (CG : Z -> Z -> Z -> Z -> Z -> Z -> C) (ins : instructions)
  (b : dict basis_entry) :
  basis ins = Some b ->
  (Forall (fun spec => (basis_l (snd spec) <= 0)%Z) b ->
   BispectrumSymmetrizer_init CG ins = Raise ValueError)
  /\ (Forall (fun spec => (basis_l (snd spec) <= 1)%Z) b ->
      Exists (fun spec => basis_l (snd spec) = 1%Z) b ->
      BispectrumSymmetrizer_init CG ins = Raise IndexError)
  /\ (Exists (fun spec => (2 <= basis_l (snd spec))%Z) b ->
      exists tbl,
        cg_matrix CG (n_l_max b) = Ok tbl
        /\ BispectrumSymmetrizer_init CG ins
           = Ok (mk_symmetrizer BispectrumSymmetrizer ins (Some tbl))).
Proof.
  intros Hb. unfold BispectrumSymmetrizer_init, attr_basis. rewrite Hb.
  cbn [bind]. fold (n_l_max b).
  destruct (n_l_max_fold b 0) as [H1 [H2 H3]]. fold (n_l_max b) in H1, H2, H3.
  split; [|split].
  - intros HF. pose proof (H3 0%Z ltac:(lia) HF) as Hle.
    assert (E : n_l_max b = 0%Z) by lia. rewrite E.
    unfold cg_matrix. reflexivity.
  - intros HF HE. pose proof (H3 1%Z ltac:(lia) HF) as Hle.
    apply Exists_exists in HE. destruct HE as [spec [Hin Hl]].
    pose proof (H2 spec Hin) as Hge.
    assert (E : n_l_max b = 1%Z) by lia. rewrite E.
    now rewrite cg_matrix_one_raises.
  - intros HE. apply Exists_exists in HE. destruct HE as [spec [Hin Hl]].
    pose proof (H2 spec Hin) as Hge.
    destruct (cg_matrix_filling CG (n_l_max b) ltac:(lia)) as [tbl [Ht _]].
    exists tbl. split; [exact Ht|]. rewrite Ht. reflexivity.
Qed.

Lemma BispectrumSymmetrizer_init_cases_witness :
  BispectrumSymmetrizer_init CG_s (instructions_H "bispectrum")
  = Raise IndexError
  /\ exists tbl,
       BispectrumSymmetrizer_init CG_s
         (mk_instructions (Some "bispectrum"%string)
            (Some [("O"%string, mk_basis_entry 2 1)]))
       = Ok (mk_symmetrizer BispectrumSymmetrizer
               (mk_instructions (Some "bispectrum"%string)
                  (Some [("O"%string, mk_basis_entry 2 1)]))
               (Some tbl)).
Proof.
  split.
  - apply (proj1 (proj2 (BispectrumSymmetrizer_init_cases CG_s
                           (instructions_H "bispectrum") basis_H eq_refl))).
    + repeat constructor. simpl. lia.
    + constructor. reflexivity.
  - destruct (proj2 (proj2 (BispectrumSymmetrizer_init_cases CG_s
                              (mk_instructions (Some "bispectrum"%string)
                                 (Some [("O"%string, mk_basis_entry 2 1)]))
                              [("O"%string, mk_basis_entry 2 1)] eq_refl)))
      as [tbl [_ H]].
    + constructor. simpl. lia.
    + exists tbl. exact H.
Defined.

(** ** Exceptions of get_symmetrized *)

Lemma dict_get_raises {V : Type} (d : dict V) (k : string) (e : exn) :
  dict_get d k = Raise e -> e = KeyError k /\ ~ In k (keys d).
Proof.
  induction d as [|[k' v] d IH]; simpl; intros H.
  - inversion H. split; [reflexivity | tauto].
  - destruct (String.eqb_spec k' k) as [E|E]; [discriminate|].
    destruct (IH H) as [He Hn]. split; [exact He|]. intros [F|F]; tauto.
Qed.

Lemma dict_get_not_in {V : Type} (d : dict V) (k : string) :
  ~ In k (keys d) -> dict_get d k = Raise (KeyError k).
Proof.
  induction d as [|[k' v] d IH]; simpl; intros H; [reflexivity|].
  destruct (String.eqb_spec k' k) as [E|E]; [tauto|]. apply IH. tauto.
Qed.

Section DatasetErrors.

Variable CG : Z -> Z -> Z -> Z -> Z -> Z -> C.
Variable self : symmetrizer.
Variable basis : dict basis_entry.

(** The loop over the species of a dataset raises the exception of the
    first species that fails. *)
Lemma symmetrize_dataset_raises_from (suf : dict (ndarray C)) :
  forall (pre : dict (ndarray C)) (acc : dict (ndarray R)) (e : exn),
  NoDup (keys (pre ++ suf)) -> keys acc = keys pre ->
  for_each (keys suf) (fun spec results_dict =>
    c <- dict_get (pre ++ suf) spec ;;
    b <- dict_get basis spec ;;
    v <- _symmetrize_function CG self c (basis_l b) (basis_n b) ;;
    Ok (dict_set results_dict spec v)) acc = Raise e
  <-> exists s1 kc s2 out,
        suf = s1 ++ kc :: s2
        /\ Forall2 (symmetrized_entry CG self basis) s1 out
        /\ entry_raises CG self basis kc e.
Proof.
  induction suf as [|[k c] suf IH]; intros pre acc e Hnd Hkeys.
  - simpl. split; [discriminate|].
    intros [s1 [kc [s2 [out [E _]]]]]. destruct s1; discriminate.
  - assert (Hk : ~ In k (keys pre)).
    { rewrite keys_app in Hnd. simpl in Hnd.
      apply NoDup_remove_2 in Hnd. intros Hin. apply Hnd.
      apply in_or_app. left. exact Hin. }
    assert (Hnd' : NoDup (keys ((pre ++ [(k, c)]) ++ suf)))
      by now rewrite <- app_assoc.
    assert (Hbody : forall spec rd,
      (c0 <- dict_get (pre ++ (k, c) :: suf) spec ;;
       b <- dict_get basis spec ;;
       v <- _symmetrize_function CG self c0 (basis_l b) (basis_n b) ;;
       Ok (dict_set rd spec v))
      = (c0 <- dict_get ((pre ++ [(k, c)]) ++ suf) spec ;;
         b <- dict_get basis spec ;;
         v <- _symmetrize_function CG self c0 (basis_l b) (basis_n b) ;;
         Ok (dict_set rd spec v)))
      by (intros; now rewrite <- app_assoc).
    cbn [keys map fst for_each].
    rewrite dict_get_app_notin by exact Hk. rewrite dict_get_head.
    cbn [bind].
    destruct (dict_get basis k) as [b|eb] eqn:Hb; cbn [bind].
    + destruct (_symmetrize_function CG self c (basis_l b) (basis_n b))
        as [v|ev] eqn:Hv; cbn [bind].
      * rewrite dict_set_notin by (rewrite Hkeys; exact Hk).
        rewrite (for_each_ext _ _ _ _ (fun y t _ => Hbody y t)).
        rewrite (IH (pre ++ [(k, c)]) (acc ++ [(k, v)]) e Hnd')
          by now rewrite !keys_app, Hkeys.
        split.
        -- intros [s1 [kc [s2 [out [E [HF He]]]]]].
           exists ((k, c) :: s1), kc, s2, ((k, v) :: out).
           split; [now rewrite E|]. split; [|exact He].
           constructor; [|exact HF]. split; [reflexivity|].
           exists b. split; assumption.
        -- intros [s1 [kc [s2 [out [E [HF He]]]]]].
           destruct s1 as [|kc1 s1].
           ++ simpl in E. inversion E. subst kc s2.
              destruct He as [He | [b' [Hb' He]]]; cbn [fst snd] in *;
                congruence.
           ++ simpl in E. inversion E. subst kc1 suf.
              inversion HF as [|x y l l' _ HF']. subst.
              exists s1, kc, s2, l'. auto.
      * split.
        -- intros H. inversion H. subst ev.
           exists [], (k, c), suf, []. split; [reflexivity|].
           split; [constructor|]. right. exists b. split; assumption.
        -- intros [s1 [kc [s2 [out [E [HF He]]]]]].
           destruct s1 as [|kc1 s1].
           ++ simpl in E. inversion E. subst kc s2.
              destruct He as [He | [b' [Hb' He]]]; cbn [fst snd] in *;
                congruence.
           ++ simpl in E. inversion E. subst kc1 suf.
              inversion HF as [|x y l l' [_ [b' [Hb' Hv']]] HF']. subst.
              cbn [fst snd] in *. congruence.
    + split.
      * intros H. inversion H. subst eb.
        exists [], (k, c), suf, []. split; [reflexivity|].
        split; [constructor|]. left. exact Hb.
      * intros [s1 [kc [s2 [out [E [HF He]]]]]].
        destruct s1 as [|kc1 s1].
        -- simpl in E. inversion E. subst kc s2.
           destruct He as [He | [b' [Hb' He]]]; cbn [fst snd] in *;
             congruence.
        -- simpl in E. inversion E. subst kc1 suf.
           inversion HF as [|x y l l' [_ [b' [Hb' Hv']]] HF']. subst.
           cbn [fst snd] in *. congruence.
Qed.

End DatasetErrors.

(** On one mapping [get_symmetrized] raises the exception of the first
    species that fails; a species that is not in the basis fails with
    [KeyError], so a mapping that holds one is never symmetrized. *)
Theorem get_symmetrized_first_failure (CG : Z -> Z -> Z -> Z -> Z -> Z -> C)
  (self : symmetrizer) (b : dict basis_entry) (d : dict (ndarray C)) :
  attr_basis (_attrs self) = Ok b -> NoDup (keys d) ->
  (forall e,
     get_symmetrized CG self (Mapping d) = Raise e
     <-> exists s1 kc s2 out,
           d = s1 ++ kc :: s2
           /\ Forall2 (symmetrized_entry CG self b) s1 out
           /\ entry_raises CG self b kc e)
  /\ (forall k, In k (keys d) -> ~ In k (keys b) ->
        exists e, get_symmetrized CG self (Mapping d) = Raise e)
  /\ (forall s1 k c s2 out,
        d = s1 ++ (k, c) :: s2 ->
        Forall2 (symmetrized_entry CG self b) s1 out ->
        ~ In k (keys b) ->
        get_symmetrized CG self (Mapping d) = Raise (KeyError k)).
Proof.
  intros Hb Hnd.
  assert (Hmain : forall e,
     get_symmetrized CG self (Mapping d) = Raise e
     <-> exists s1 kc s2 out,
           d = s1 ++ kc :: s2
           /\ Forall2 (symmetrized_entry CG self b) s1 out
           /\ entry_raises CG self b kc e).
  { intros e. rewrite get_symmetrized_single, Hb. cbn [bind].
    transitivity (symmetrize_dataset CG self b d = Raise e).
    - destruct (symmetrize_dataset CG self b d) as [r|e']; cbn [bind];
        split; intros H; congruence.
    - unfold symmetrize_dataset.
      apply (symmetrize_dataset_raises_from CG self b d [] [] e Hnd eq_refl). }
  split; [exact Hmain|]. split.
  - intros k Hk Hnb.
    destruct (get_symmetrized CG self (Mapping d)) as [out|e] eqn:Hres;
      [|now exists e].
    exfalso. rewrite get_symmetrized_single, Hb in Hres. cbn [bind] in Hres.
    apply bind_Ok in Hres. destruct Hres as [r [Hr _]].
    apply (symmetrize_dataset_spec CG self b d r Hnd) in Hr.
    clear Hmain Hnd. induction Hr as [|kc kv d r [_ [be [Hbe _]]] _ IH].
    + destruct Hk.
    + destruct Hk as [E|Hk]; [|now apply IH].
      rewrite E in Hbe. rewrite (dict_get_not_in b k Hnb) in Hbe.
      discriminate.
  - intros s1 k c s2 out E HF Hnb. apply Hmain.
    exists s1, (k, c), s2, out. split; [exact E|]. split; [exact HF|].
    left. cbn [fst]. now apply dict_get_not_in.
Qed.

Lemma get_symmetrized_first_failure_witness :
  get_symmetrized CG_s
    (Symmetrizer_init CasimirSymmetrizer (instructions_H "casimir"))
    (Mapping [("H"%string, c_H); ("O"%string, c_H)])
  = Raise (KeyError "O").
Proof.
  apply (proj2 (proj2 (get_symmetrized_first_failure CG_s
                         (Symmetrizer_init CasimirSymmetrizer
                            (instructions_H "casimir"))
                         basis_H
                         [("H"%string, c_H); ("O"%string, c_H)]
                         eq_refl
                         ltac:(repeat constructor; simpl;
                               intuition discriminate)))
           [("H"%string, c_H)] "O"%string c_H []
           [("H"%string, mk_ndarray [1%nat] [4])]).
  - reflexivity.
  - constructor; [|constructor]. split; [reflexivity|].
    exists (mk_basis_entry 1 1). split; [reflexivity|].
    exact casimir_s_orbital.
  - simpl. intuition discriminate.
Defined.

(** On a list of mappings [get_symmetrized] raises exactly when the basis is
    missing or some mapping fails, with the exception of the first mapping
    that fails. *)
Theorem get_symmetrized_batch_failure (CG : Z -> Z -> Z -> Z -> Z -> Z -> C)
  (self : symmetrizer) (ds : list (dict (ndarray C))) (e : exn) :
  get_symmetrized CG self (Mappings ds) = Raise e
  <-> attr_basis (_attrs self) = Raise e
      \/ exists ds1 d ds2 rs,
           ds = ds1 ++ d :: ds2
           /\ Forall2 (fun d r =>
                         get_symmetrized CG self (Mapping d) = Ok (Mapping r))
                      ds1 rs
           /\ get_symmetrized CG self (Mapping d) = Raise e.
Proof.
  rewrite get_symmetrized_list.
  destruct (attr_basis (_attrs self)) as [b|eb] eqn:Hb; cbn [bind].
  - assert (Hsingle : forall d,
      get_symmetrized CG self (Mapping d)
      = (r <- symmetrize_dataset CG self b d ;; Ok (Mapping r)))
      by (intros d; now rewrite get_symmetrized_single, Hb).
    split.
    + intros H. right.
      apply bind_Raise in H. destruct H as [H | [rs [_ H]]]; [|discriminate].
      apply for_each_Raise in H.
      destruct H as [ds1 [d [ds2 [rs [E [H1 H2]]]]]].
      apply for_each_collect in H1. destruct H1 as [ys [Hys Ers]].
      exists ds1, d, ds2, ys. split; [exact E|]. split.
      * clear E Ers. induction Hys as [|x y l l' Hx _ IH]; constructor;
          [|exact IH]. now rewrite Hsingle, Hx.
      * rewrite Hsingle.
        apply bind_Raise in H2. destruct H2 as [H2 | [r [_ H2]]];
          [|discriminate]. now rewrite H2.
    + intros [H | [ds1 [d [ds2 [rs [E [HF Hd]]]]]]]; [discriminate|].
      assert (Hloop : for_each ds (fun dataset results =>
                        r <- symmetrize_dataset CG self b dataset ;;
                        Ok (results ++ [r])) [] = Raise e).
      { apply for_each_Raise. exists ds1, d, ds2, rs. split; [exact E|].
        split.
        - apply for_each_collect. exists rs. split; [|reflexivity].
          clear E. induction HF as [|x y l l' Hx _ IH]; constructor;
            [|exact IH].
          rewrite Hsingle in Hx.
          destruct (symmetrize_dataset CG self b x); inversion Hx.
          reflexivity.
        - rewrite Hsingle in Hd.
          destruct (symmetrize_dataset CG self b d); [discriminate|].
          inversion Hd. reflexivity. }
      now rewrite Hloop.
  - split.
    + intros H. left. congruence.
    + intros [H | [ds1 [d [ds2 [rs [_ [_ Hd]]]]]]]; [congruence|].
      rewrite get_symmetrized_single, Hb in Hd. exact Hd.
Qed.

Lemma get_symmetrized_batch_failure_witness :
  get_symmetrized CG_s
    (Symmetrizer_init CasimirSymmetrizer (instructions_H "casimir"))
    (Mappings [[("H"%string, c_H)]; [("O"%string, c_H)];
               [("H"%string, c_H)]])
  = Raise (KeyError "O").
Proof.
  apply (proj2 (get_symmetrized_batch_failure CG_s _ _ _)). right.
  exists [[("H"%string, c_H)]], [("O"%string, c_H)], [[("H"%string, c_H)]],
         [[("H"%string, mk_ndarray [1%nat] [4])]].
  split; [reflexivity|]. split.
  - constructor; [|constructor]. exact get_symmetrized_casimir_H.
  - reflexivity.
Defined.

(** ** The Casimir invariants and the moduli of the entries *)

Lemma fold_left_ext {S X : Type} (f g : S -> X -> S) (xs : list X) :
  (forall s x, f s x = g s x) ->
  forall s, fold_left f xs s = fold_left g xs s.
Proof.
  intros H. induction xs as [|x xs IH]; intros s; simpl; [reflexivity|].
  now rewrite H, IH.
Qed.

Lemma slice_map {A B : Type} (f : A -> B) (lo hi : Z) (xs : list A) :
  map f (slice lo hi xs) = slice lo hi (map f xs).
Proof. unfold slice. now rewrite <- firstn_map, <- skipn_map. Qed.

Lemma rows_map {A B : Type} (f : A -> B) (r k : nat) (xs : list A) :
  map (map f) (rows r k xs) = rows r k (map f xs).
Proof.
  unfold rows. rewrite map_map. apply map_ext. intros i. unfold row.
  now rewrite <- firstn_map, <- skipn_map.
Qed.

Lemma casimir_col_moduli (c c' : list (list C)) (idx l : Z) :
  map (map Cabs2) c = map (map Cabs2) c' ->
  map (fun r => norm (slice idx (idx + (2 * l + 1)) r) ^ 2) c
  = map (fun r => norm (slice idx (idx + (2 * l + 1)) r) ^ 2) c'.
Proof.
  intros H.
  assert (E : forall rs : list (list C),
    map (fun r => norm (slice idx (idx + (2 * l + 1)) r) ^ 2) rs
    = map (fun q => sqrt (Rsum (slice idx (idx + (2 * l + 1)) q)) ^ 2)
          (map (map Cabs2) rs)).
  { intros rs. rewrite map_map. apply map_ext. intros r. unfold norm.
    now rewrite slice_map. }
  now rewrite (E c), (E c'), H.
Qed.

Lemma casimir_loop_moduli (c c' : list (list C)) (L N : Z) :
  map (map Cabs2) c = map (map Cabs2) c' ->
  casimir_loop c L N = casimir_loop c' L N.
Proof.
  intros H. unfold casimir_loop. apply fold_left_ext. intros st _.
  apply fold_left_ext. intros [acc idx] l. cbn [casimir_body].
  now rewrite (casimir_col_moduli c c' idx l H).
Qed.

Lemma reshape_same_length {A : Type} (a a' : ndarray A) (sh : list Z) :
  length (data a) = length (data a') ->
  reshape a' sh
  = match reshape a sh with
    | Ok b => Ok (mk_ndarray (shape b) (data a'))
    | Raise e => Raise e
    end.
Proof.
  intros H. unfold reshape. rewrite <- H.
  repeat match goal with
         | |- context [if ?x then _ else _] => destruct x
         end; reflexivity.
Qed.

(** The Casimir reducer sees only the moduli of the entries: two tensors of
    one shape whose entries have pairwise equal squared moduli, such as a
    tensor and the same tensor with every entry turned by a phase, give the
    same invariants or the same exception. *)
Theorem casimir_moduli (c c' : ndarray C) (L N : Z) :
  shape c = shape c' -> map Cabs2 (data c) = map Cabs2 (data c') ->
  CasimirSymmetrizer_symmetrize_function c L N
  = CasimirSymmetrizer_symmetrize_function c' L N.
Proof.
  intros Hsh Hd. unfold CasimirSymmetrizer_symmetrize_function.
  rewrite <- Hsh. destruct (last_dim (shape c)) as [k|e]; [|reflexivity].
  cbn [bind].
  assert (Hlen : length (data c) = length (data c'))
    by (rewrite <- (length_map Cabs2 (data c)), Hd; apply length_map).
  rewrite (reshape_same_length c c' _ Hlen).
  destruct (reshape c [(-1)%Z; Z.of_nat k]) as [c2|e] eqn:Hr; [|reflexivity].
  cbn [bind]. apply reshape_data in Hr.
  assert (Hrows : map (map Cabs2) (matrix_rows c2)
                  = map (map Cabs2)
                        (matrix_rows (mk_ndarray (shape c2) (data c')))).
  { unfold matrix_rows. cbn [shape data].
    destruct (shape c2) as [|r [|k' [|x sh]]]; try reflexivity.
    now rewrite !rows_map, Hr, Hd. }
  now rewrite (casimir_loop_moduli _ _ L N Hrows).
Qed.

Lemma casimir_moduli_witness :
  CasimirSymmetrizer_symmetrize_function (mk_ndarray [1%nat] [(0, 2)]) 1 1
  = CasimirSymmetrizer_symmetrize_function c_H 1 1.
Proof.
  apply casimir_moduli; [reflexivity|].
  cbn [data c_H map]. f_equal. rewrite !Cabs2_eq.
  cbn [RtoC Cre Cim fst snd]. ring.
Defined.

(** ** The layout of the bispectrum *)

Lemma size_of_rev (sh : list nat) : size_of (rev sh) = size_of sh.
Proof.
  induction sh as [|x sh IH]; [reflexivity|]. cbn [rev].
  rewrite size_of_app, IH. simpl. lia.
Qed.

Lemma reshape_lead_inv {A : Type} (a b : ndarray A) (lead : list nat) :
  reshape a (map Z.of_nat lead ++ [(-1)%Z]) = Ok b ->
  exists q, shape b = lead ++ [q]
            /\ length (data b) = (size_of lead * q)%nat
            /\ data b = data a.
Proof.
  unfold reshape.
  rewrite filter_neg_lead, filter_nonneg_lead, map_to_nat_of_nat.
  cbn [length Nat.ltb Nat.leb Nat.eqb].
  destruct (size_of lead =? 0)%nat eqn:Hp; [discriminate|].
  destruct (length (data a) mod size_of lead =? 0)%nat eqn:Hm;
    [|discriminate].
  cbn [negb orb]. intros H. inversion H. cbn [shape data].
  apply Nat.eqb_neq in Hp. apply Nat.eqb_eq in Hm.
  exists (length (data a) / size_of lead)%nat. split; [|split].
  - rewrite map_app. cbn [map Z.ltb Z.compare]. f_equal.
    rewrite map_map. rewrite <- (map_id lead) at 2. apply map_ext. intros x.
    replace (Z.of_nat x <? 0)%Z with false by (symmetry; apply Z.ltb_ge; lia).
    apply Nat2Z.id.
  - pose proof (Nat.div_mod_eq (length (data a)) (size_of lead)). lia.
  - reflexivity.
Qed.

(** When the bispectrum reducer returns on a non-empty tensor, the output
    keeps the leading dimensions, and every row is the row of Casimir
    invariants followed by the same number [q] of coupling values. *)
Theorem bispectrum_layout (CG : Z -> Z -> Z -> Z -> Z -> Z -> C)
  (c : ndarray C) (lead : list nat) (k : nat) (L N : Z)
  (cgs : option (ndarray C)) (out : ndarray R) :
  wf c -> shape c = lead ++ [k] -> k <> 0%nat -> size_of lead <> 0%nat ->
  (1 <= L)%Z -> (1 <= N)%Z ->
  BispectrumSymmetrizer_symmetrize_function CG c L N cgs = Ok out ->
  exists q extra,
    shape out = lead ++ [(Z.to_nat (N * L) + q)%nat]
    /\ length extra = size_of lead
    /\ Forall (fun v => length v = q) extra
    /\ data out
       = concat (zip_with (@app R)
                   (map (casimir_row L N) (rows (size_of lead) k (data c)))
                   extra).
Proof.
  intros Hwf Hsh Hk Hp HL HN H. rewrite bispectrum_unfold in H.
  rewrite (casimir_value c lead k L N Hwf Hsh Hk Hp HL HN) in H.
  cbn [bind] in H.
  apply bind_Ok in H. destruct H as [ops [_ H]].
  apply bind_Ok in H. destruct H as [vals [_ H]].
  apply bind_Ok in H. destruct H as [bisp [Hb H]].
  rewrite Hsh, lead_shape_app in Hb.
  apply reshape_lead_inv in Hb. destruct Hb as [q [Hq [Hlen _]]].
  unfold concatenate in H. cbn [shape data] in H.
  rewrite Hq, !rev_app_distr in H. cbn [rev app] in H.
  destruct (list_eq_dec Nat.eq_dec (rev lead) (rev lead)) as [_|F];
    [|congruence].
  inversion H. cbn [shape data]. clear H.
  rewrite rev_involutive, size_of_rev.
  exists q, (rows (size_of lead) q (data bisp)). split; [reflexivity|].
  split; [apply rows_length|]. split; [now apply rows_row_length|].
  f_equal. f_equal.
  set (rs := map (casimir_row L N) (rows (size_of lead) k (data c))).
  assert (Hl : length rs = size_of lead)
    by (unfold rs; now rewrite length_map, rows_length).
  rewrite <- Hl at 1. apply rows_concat.
  apply Forall_forall. intros v Hv. unfold rs in Hv.
  apply in_map_iff in Hv. destruct Hv as [r [Hr _]]. subst v.
  apply casimir_row_length; lia.
Qed.

Lemma bispectrum_layout_witness :
  exists q extra,
    shape (mk_ndarray [2%nat] [4; 8]) = [] ++ [(Z.to_nat (1 * 1) + q)%nat]
    /\ length extra = size_of []
    /\ Forall (fun v : list R => length v = q) extra
    /\ data (mk_ndarray [2%nat] [4; 8])
       = concat (zip_with (@app R)
                   (map (casimir_row 1 1) (rows (size_of []) 1 (data c_H)))
                   extra).
Proof.
  apply (bispectrum_layout CG_s c_H [] 1 1 1 (Some cgs_s));
    [reflexivity | reflexivity | lia | simpl; lia | lia | lia |].
  apply bispectrum_s_orbital_given_table.
Defined.

(** ** What the coupling table holds *)

Lemma for_each_prod {X Y S : Type} (xs : list X) (ys : list Y)
  (body : X * Y -> S -> result S) (s : S) :
  for_each (list_prod xs ys) body s
  = for_each xs (fun x => for_each ys (fun y => body (x, y))) s.
Proof.
  revert s. induction xs as [|x xs IH]; intros s; [reflexivity|].
  cbn [list_prod]. rewrite for_each_app, for_each_map. cbn [for_each].
  destruct (for_each ys (fun y => body (x, y)) s); cbn [bind];
    [apply IH|reflexivity].
Qed.

Lemma find_last_app {X : Type} (P : X -> bool) (xs ys : list X) :
  find_last P (xs ++ ys)
  = match find_last P ys with
    | Some y => Some y
    | None => find_last P xs
    end.
Proof.
  induction xs as [|x xs IH]; cbn [app find_last].
  - now destruct (find_last P ys).
  - rewrite IH. now destruct (find_last P ys).
Qed.

Lemma find_last_none {X : Type} (P : X -> bool) (xs : list X) :
  (forall x, In x xs -> P x = false) -> find_last P xs = None.
Proof.
  induction xs as [|x xs IH]; intros H; [reflexivity|]. cbn [find_last].
  rewrite IH by (intros y Hy; apply H; now right).
  now rewrite (H x (or_introl eq_refl)).
Qed.

Lemma find_last_ext {X : Type} (P Q : X -> bool) (xs : list X) :
  (forall x, In x xs -> P x = Q x) -> find_last P xs = find_last Q xs.
Proof.
  induction xs as [|x xs IH]; intros H; [reflexivity|]. cbn [find_last].
  rewrite IH by (intros y Hy; apply H; now right).
  now rewrite (H x (or_introl eq_refl)).
Qed.

Lemma find_last_map_pair {X Y : Type} (q : X -> bool) (r : Y -> bool) (x : X)
  (ys : list Y) :
  find_last (fun p => q (fst p) && r (snd p)) (map (pair x) ys)
  = if q x then option_map (pair x) (find_last r ys) else None.
Proof.
  induction ys as [|y ys IH]; cbn [map find_last fst snd].
  - now destruct (q x).
  - rewrite IH. destruct (q x); cbn [andb]; [|reflexivity].
    destruct (find_last r ys); cbn [option_map]; [reflexivity|].
    now destruct (r y).
Qed.

Lemma find_last_prod_eq {X Y : Type} (q : X -> bool) (r : Y -> bool)
  (xs : list X) (ys : list Y) :
  find_last (fun p => q (fst p) && r (snd p)) (list_prod xs ys)
  = match find_last q xs, find_last r ys with
    | Some x, Some y => Some (x, y)
    | _, _ => None
    end.
Proof.
  induction xs as [|x xs IH]; [reflexivity|].
  cbn [list_prod find_last]. rewrite find_last_app, IH, find_last_map_pair.
  destruct (find_last q xs) as [x'|]; destruct (find_last r ys) as [y|];
    destruct (q x); reflexivity.
Qed.

(** The last hit in a product visited in row-major order is the pair of
    the last hits. *)
Lemma find_last_prod {X Y : Type} (P : X * Y -> bool) (q : X -> bool)
  (r : Y -> bool) (xs : list X) (ys : list Y) (a : X) (b : Y) :
  (forall x y, P (x, y) = q x && r y) ->
  find_last q xs = Some a -> find_last r ys = Some b ->
  find_last P (list_prod xs ys) = Some (a, b).
Proof.
  intros HP Ha Hb.
  rewrite (find_last_ext P (fun p => q (fst p) && r (snd p)))
    by (intros [x y] _; apply HP).
  now rewrite find_last_prod_eq, Ha, Hb.
Qed.

Lemma range_split_at (lo x k : Z) :
  (lo <= x)%Z -> (0 <= k)%Z ->
  range lo (x + 1 + k) = range lo x ++ x :: range (x + 1) (x + 1 + k).
Proof.
  intros Hx Hk. revert k Hk. apply natlike_ind.
  - rewrite Z.add_0_r, (range_nil (x + 1) (x + 1)) by lia.
    apply range_snoc. lia.
  - intros j Hj IH.
    replace (x + 1 + Z.succ j)%Z with (x + 1 + j + 1)%Z by lia.
    rewrite (range_snoc lo) by lia. rewrite (range_snoc (x + 1)) by lia.
    rewrite IH. now rewrite <- app_assoc.
Qed.

Lemma range_split (lo x hi : Z) :
  (lo <= x < hi)%Z -> range lo hi = range lo x ++ x :: range (x + 1) hi.
Proof.
  intros H. replace hi with (x + 1 + (hi - (x + 1)))%Z by lia.
  apply range_split_at; lia.
Qed.

Lemma find_last_range (q : Z -> bool) (lo hi x : Z) :
  (lo <= x < hi)%Z -> q x = true ->
  (forall y, (x < y < hi)%Z -> q y = false) ->
  find_last q (range lo hi) = Some x.
Proof.
  intros Hx Hq Hlast. rewrite (range_split lo x hi Hx), find_last_app.
  cbn [find_last].
  rewrite find_last_none, Hq; [reflexivity|].
  intros y Hy. apply range_In in Hy. apply Hlast. lia.
Qed.

Lemma update_nth_error_same {A : Type} (p : nat) (v : A) (xs : list A) :
  (p < length xs)%nat -> nth_error (update p v xs) p = Some v.
Proof.
  revert p. induction xs as [|x xs IH]; intros [|p] H; simpl in *;
    try lia; [reflexivity|]. apply IH. lia.
Qed.

Lemma update_nth_error_other {A : Type} (p q : nat) (v : A) (xs : list A) :
  p <> q -> nth_error (update p v xs) q = nth_error xs q.
Proof.
  revert p q. induction xs as [|x xs IH]; intros [|p] [|q] H; simpl;
    try reflexivity; try congruence. apply IH. congruence.
Qed.

(** A sequence of writes leaves at each position the value of the last
    write that went there. *)
Lemma fold_update_last {X A : Type} (pos : X -> nat) (val : X -> A)
  (ts : list X) (d : list A) (p : nat) :
  (p < length d)%nat ->
  nth_error (fold_left (fun d t => update (pos t) (val t) d) ts d) p
  = match find_last (fun t => (pos t =? p)%nat) ts with
    | Some t => Some (val t)
    | None => nth_error d p
    end.
Proof.
  revert d. induction ts as [|t ts IH]; intros d Hp; [reflexivity|].
  cbn [fold_left find_last]. rewrite IH by now rewrite update_length.
  destruct (find_last (fun t0 => (pos t0 =? p)%nat) ts); [reflexivity|].
  destruct (Nat.eqb_spec (pos t) p) as [E|E].
  - rewrite E. now apply update_nth_error_same.
  - now apply update_nth_error_other.
Qed.

Section Table.

Variable CG : Z -> Z -> Z -> Z -> Z -> Z -> C.
Variable L : Z.
Hypothesis HL : (2 <= L)%Z.

Local Abbreviation n := (Z.to_nat L).
Local Abbreviation w := (Z.to_nat (2 * (L - 1) + 1)).

(** The six nested loops are one pass over [cg_writes]. *)
Lemma cg_matrix_flat :
  cg_matrix CG L
  = (cgs <- np_zeros [L; (2 * (L - 1) + 1)%Z; L; (2 * (L - 1) + 1)%Z; L;
                      (2 * (L - 1) + 1)%Z] ;;
     for_each (cg_writes L) (cg_write CG) cgs).
Proof.
  unfold cg_matrix, cg_writes, loop_tuple. cbv zeta.
  destruct (np_zeros _) as [cgs|e]; [|reflexivity]. cbn [bind].
  symmetry. rewrite for_each_prod. apply for_each_ext. intros l s _.
  rewrite for_each_prod. apply for_each_ext. intros l1 s1 _.
  rewrite for_each_prod. apply for_each_ext. intros l2 s2 _.
  rewrite for_each_prod. apply for_each_ext. intros m s3 _.
  rewrite for_each_prod. apply for_each_ext. intros m1 s4 _.
  apply for_each_ext. intros m2 s5 _. reflexivity.
Qed.

Lemma cg_writes_in_loops (t : loop_tuple) :
  In t (cg_writes L) -> in_loops L t.
Proof.
  destruct t as [l [l1 [l2 [m [m1 m2]]]]]. unfold cg_writes, loop_tuple.
  cbv zeta. rewrite !in_prod_iff, !range_In. cbn [in_loops]. lia.
Qed.

Lemma cg_write_Ok (t : loop_tuple) (a : ndarray C) :
  in_loops L t -> shape a = [n; w; n; w; n; w] ->
  cg_write CG t a
  = Ok (mk_ndarray [n; w; n; w; n; w]
                   (update (cg_pos L t) (cg_val CG t) (data a))).
Proof.
  destruct t as [l [l1 [l2 [m [m1 m2]]]]]. cbn [in_loops cg_write].
  intros H Hsh. unfold setitem. rewrite Hsh.
  rewrite ravel6 by lia. reflexivity.
Qed.

Lemma cg_writes_fold (ts : list loop_tuple) (a : ndarray C) :
  Forall (in_loops L) ts -> shape a = [n; w; n; w; n; w] ->
  for_each ts (cg_write CG) a
  = Ok (mk_ndarray [n; w; n; w; n; w]
          (fold_left (fun d t => update (cg_pos L t) (cg_val CG t) d) ts
                     (data a))).
Proof.
  revert a. induction ts as [|t ts IH]; intros a Hts Hsh.
  - cbn [for_each fold_left]. rewrite <- Hsh. now destruct a.
  - inversion Hts as [|t' ts' Ht Hts']. subst. cbn [for_each fold_left].
    rewrite (cg_write_Ok t a Ht Hsh). cbn [bind].
    now rewrite IH.
Qed.

(** Which loop variables write the position of an index inside the
    magnetic window. *)
Lemma cg_pos_hit (t : loop_tuple) (l1 m1 l2 m2 l m : Z) :
  in_loops L t ->
  (0 <= l1 < L)%Z -> (0 <= l2 < L)%Z -> (0 <= l < L)%Z ->
  (Z.abs m1 <= L - 1)%Z -> (Z.abs m2 <= L - 1)%Z -> (Z.abs m <= L - 1)%Z ->
  (cg_pos L t =? cg_pos L (l, (l1, (l2, (m, (m1, m2))))))%nat
  = (fst t =? l)%Z
    && ((fst (snd t) =? l1)%Z
    && ((fst (snd (snd t)) =? l2)%Z
    && ((wrap w (fst (snd (snd (snd t)))) =? wrap w m)%nat
    && ((wrap w (fst (snd (snd (snd (snd t))))) =? wrap w m1)%nat
    && (wrap w (snd (snd (snd (snd (snd t))))) =? wrap w m2)%nat)))).
Proof.
  destruct t as [a [a1 [a2 [b [b1 b2]]]]]. cbn [in_loops fst snd].
  intros Ht Hl1 Hl2 Hl Hm1 Hm2 Hm. cbn [cg_pos].
  assert (Hw : forall i, (- L <= i <= L)%Z -> (wrap w i < w)%nat).
  { intros i Hi. apply wrap_lt. lia. }
  assert (Hn : forall i, (0 <= i < L)%Z -> (wrap n i < n)%nat).
  { intros i Hi. apply wrap_lt. lia. }
  assert (Hnn : forall i j, (0 <= i < L)%Z -> (0 <= j < L)%Z ->
                            wrap n i = wrap n j -> i = j).
  { intros i j Hi Hj. rewrite !wrap_nonneg by lia. lia. }
  apply Bool.eq_iff_eq_true.
  rewrite !andb_true_iff, !Z.eqb_eq, !Nat.eqb_eq. split.
  - intros E.
    apply offset6_inj in E;
      try (apply Hw; lia); try (apply Hn; lia).
    destruct E as [E0 [E1 [E2 [E3 [E4 E5]]]]].
    repeat split; try assumption; apply Hnn; try assumption; lia.
  - intros [Ea [Ea1 [Ea2 [Eb [Eb1 Eb2]]]]]. subst a a1 a2.
    now rewrite Eb, Eb1, Eb2.
Qed.

Lemma find_last_angular (l : Z) :
  (0 <= l < L)%Z -> find_last (fun x => (x =? l)%Z) (range 0 L) = Some l.
Proof.
  intros Hl. apply find_last_range; [lia|apply Z.eqb_refl|].
  intros y Hy. apply Z.eqb_neq. lia.
Qed.

Lemma find_last_magnetic (m : Z) :
  (Z.abs m <= L - 1)%Z ->
  find_last (fun x => (wrap w x =? wrap w m)%nat) (range (- L) (L + 1))
  = Some (stored_index L m).
Proof.
  intros Hm. unfold stored_index.
  destruct (Z.eqb_spec m (1 - L)) as [E|E].
  - apply find_last_range; [lia| |intros y Hy; lia].
    apply Nat.eqb_eq. subst m. unfold wrap.
    destruct (Z.leb_spec 0 L), (Z.leb_spec 0 (1 - L)); lia.
  - apply find_last_range; [lia|apply Nat.eqb_refl|].
    intros y Hy. apply Nat.eqb_neq. unfold wrap.
    destruct (Z.leb_spec 0 y), (Z.leb_spec 0 m); lia.
Qed.

(** The last write to the position of an index inside the window. *)
Lemma cg_last_write (l1 m1 l2 m2 l m : Z) :
  (0 <= l1 < L)%Z -> (0 <= l2 < L)%Z -> (0 <= l < L)%Z ->
  (Z.abs m1 <= L - 1)%Z -> (Z.abs m2 <= L - 1)%Z -> (Z.abs m <= L - 1)%Z ->
  find_last
    (fun t => (cg_pos L t =? cg_pos L (l, (l1, (l2, (m, (m1, m2))))))%nat)
    (cg_writes L)
  = Some (l, (l1, (l2, (stored_index L m,
                        (stored_index L m1, stored_index L m2))))).
Proof.
  intros Hl1 Hl2 Hl Hm1 Hm2 Hm.
  rewrite (find_last_ext _ _ _
             (fun t Ht => cg_pos_hit t l1 m1 l2 m2 l m
                            (cg_writes_in_loops t Ht)
                            Hl1 Hl2 Hl Hm1 Hm2 Hm)).
  unfold cg_writes. cbv zeta.
  do 3 (eapply find_last_prod;
        [intros x y; cbn [fst snd]; reflexivity
        |apply find_last_angular; assumption|]).
  do 2 (eapply find_last_prod;
        [intros x y; cbn [fst snd]; reflexivity
        |apply find_last_magnetic; assumption|]).
  apply find_last_magnetic; assumption.
Qed.

Lemma cg_matrix_table :
  exists tbl,
    cg_matrix CG L = Ok tbl
    /\ shape tbl = [n; w; n; w; n; w]
    /\ forall l1 m1 l2 m2 l m,
         (0 <= l1 < L)%Z -> (0 <= l2 < L)%Z -> (0 <= l < L)%Z ->
         (Z.abs m1 <= L - 1)%Z -> (Z.abs m2 <= L - 1)%Z ->
         (Z.abs m <= L - 1)%Z ->
         getitem tbl [l1; m1; l2; m2; l; m]
         = Ok (CG l1 (stored_index L m1) l2 (stored_index L m2) l
                  (stored_index L m)).
Proof.
  rewrite cg_matrix_flat.
  destruct (np_zeros_filling CG L HL) as [cgs0 [H0 [Hsh0 [Hlen0 _]]]].
  rewrite H0. cbn [bind].
  rewrite (cg_writes_fold (cg_writes L) cgs0)
    by (try exact Hsh0; apply Forall_forall; exact cg_writes_in_loops).
  eexists. split; [reflexivity|]. split; [reflexivity|].
  intros l1 m1 l2 m2 l m Hl1 Hl2 Hl Hm1 Hm2 Hm.
  unfold getitem. cbn [shape data].
  rewrite ravel6 by lia. cbn [bind].
  change (offset6 n w (wrap n l1) (wrap w m1) (wrap n l2) (wrap w m2)
                  (wrap n l) (wrap w m))
    with (cg_pos L (l, (l1, (l2, (m, (m1, m2)))))).
  rewrite fold_update_last.
  - now rewrite cg_last_write.
  - rewrite Hlen0. cbn [cg_pos].
    apply offset6_lt; apply wrap_lt; lia.
Qed.

End Table.

(** For two and more angular channels [cg_matrix] returns a table in which
    the entry read at an index inside the magnetic window is the
    coefficient for that index, except that a magnetic index equal to
    [-(L - 1)] reads the coefficient computed for the loop value [L]; in
    particular every entry with all magnetic indices above [-(L - 1)] is
    the coefficient of its own index. *)
Theorem cg_matrix_entries (CG : Z -> Z -> Z -> Z -> Z -> Z -> C) (L : Z) :
  (2 <= L)%Z ->
  exists tbl,
    cg_matrix CG L = Ok tbl
    /\ (forall l1 m1 l2 m2 l m,
          (0 <= l1 < L)%Z -> (0 <= l2 < L)%Z -> (0 <= l < L)%Z ->
          (Z.abs m1 <= L - 1)%Z -> (Z.abs m2 <= L - 1)%Z ->
          (Z.abs m <= L - 1)%Z ->
          getitem tbl [l1; m1; l2; m2; l; m]
          = Ok (CG l1 (stored_index L m1) l2 (stored_index L m2) l
                   (stored_index L m)))
    /\ (forall l1 m1 l2 m2 l m,
          (0 <= l1 < L)%Z -> (0 <= l2 < L)%Z -> (0 <= l < L)%Z ->
          (- (L - 1) < m1 <= L - 1)%Z -> (- (L - 1) < m2 <= L - 1)%Z ->
          (- (L - 1) < m <= L - 1)%Z ->
          getitem tbl [l1; m1; l2; m2; l; m] = Ok (CG l1 m1 l2 m2 l m)).
Proof.
  intros HL. destruct (cg_matrix_table CG L HL) as [tbl [Ht [_ Hent]]].
  exists tbl. split; [exact Ht|]. split; [exact Hent|].
  intros l1 m1 l2 m2 l m Hl1 Hl2 Hl Hm1 Hm2 Hm.
  rewrite Hent by lia. unfold stored_index.
  destruct (Z.eqb_spec m1 (1 - L)); [lia|].
  destruct (Z.eqb_spec m2 (1 - L)); [lia|].
  destruct (Z.eqb_spec m (1 - L)); [lia|]. reflexivity.
Qed.

Lemma cg_matrix_entries_witness :
  exists tbl,
    cg_matrix CG_s 2 = Ok tbl
    /\ getitem tbl [1; -1; 1; 1; 0; 0]%Z = Ok (CG_s 1 2 1 1 0 0)%Z
    /\ getitem tbl [0; 0; 0; 0; 0; 0]%Z = Ok (CG_s 0 0 0 0 0 0)%Z.
Proof.
  destruct (cg_matrix_entries CG_s 2%Z ltac:(lia)) as [tbl [Ht [H1 H2]]].
  exists tbl. split; [exact Ht|]. split.
  - apply (H1 1 (-1) 1 1 0 0)%Z; lia.
  - apply H2; lia.
Defined.
